(** * cvkit, gutil/msgqueue.h: the two bounded message queues

    The header defines two class templates on top of a counting semaphore:

    - [MsgQueue<T>]: push blocks while the queue is full, pop blocks while
      it is empty;
    - [MsgQueueReplace<T>]: push never waits for room, it drops the oldest
      message instead; pop blocks while the queue is empty.

    Each class is embedded twice, from the same primitive statements:

    - as functions in a small state monad whose results are [Done],
      [Blocks] (the caller sleeps in [Semaphore::decrement]) or [Undefined]
      ([front()]/[pop()] of an empty [std::queue]): one call, run alone;
    - as a step function on control points, one step per statement of the
      method, interleaved over a pool of threads: any number of threads,
      every schedule.

    [push_complete] and [pop_complete] ([replace_push_complete] and
    [replace_pop_complete] for the second class) state that running the
    control points of one call without interruption is the monadic
    function.

    The file has three parts: the model ([Pool], [MsgQueue],
    [MsgQueueReplace], [Demo]), the facts about it ([PoolFacts],
    [MsgQueueFacts], [MsgQueueReplaceFacts], [DemoFacts]) and the
    properties of the specification. *)

From Stdlib Require Import ZArith List Lia Bool Arith Permutation.
Import ListNotations.

Set Implicit Arguments.

(** ** Results of a statement *)

(** The three semaphores a queue object owns. *)
Inductive sem_id : Set := Mutex | Full | Empty.

Inductive outcome (A : Type) : Type :=
| Done (a : A)            (* the statement completed *)
| Blocks (w : sem_id)     (* the caller waits in Semaphore::decrement on w *)
| Undefined.              (* front() or pop() on an empty std::queue *)

Arguments Done {A} a.
Arguments Blocks {A} w.
Arguments Undefined {A}.

(** State passing with the three outcomes. *)
Definition M (St A : Type) : Type := St -> outcome (A * St).

Definition ret {St A : Type} (a : A) : M St A := fun s => Done (a, s).

Definition bind {St A B : Type} (m : M St A) (k : A -> M St B) : M St B :=
  fun s =>
    match m s with
    | Done (a, s') => k a s'
    | Blocks w => Blocks w
    | Undefined => Undefined
    end.

Declare Scope queue_scope.
Delimit Scope queue_scope with queue.
Notation "x <- m ;; k" := (bind m (fun x => k))
  (at level 61, m at next level, right associativity) : queue_scope.
Notation "m ;; k" := (bind m (fun _ => k))
  (at level 61, right associativity) : queue_scope.
Open Scope queue_scope.

(** ** C++ integers used by the header *)

Definition INT_MIN : Z := - 2 ^ 31.
Definition INT_MAX : Z := 2 ^ 31 - 1.
Definition in_int (z : Z) : Prop := (INT_MIN <= z <= INT_MAX)%Z.

(** [std::max(a, b)] is [(a < b) ? b : a]. *)
Definition std_max (a b : Z) : Z := if (a <? b)%Z then b else a.

(** [queue.size() >= nmax] compares a [size_t] with an [int]: the usual
    arithmetic conversions turn the [int] into a [size_t] (64 bits here; any
    width of at least 31 bits gives the same value on [1 .. INT_MAX]). *)
Definition SIZE_WIDTH : Z := 64.
Definition size_t_of_int (z : Z) : Z := (z mod 2 ^ SIZE_WIDTH)%Z.

(** [for (int i=lo; i<hi; i++) body], the fuel being the trip count. *)
Fixpoint for_lt_fuel {St : Type} (fuel : nat) (i hi : Z) (body : St -> St) (s : St) : St :=
  match fuel with
  | O => s
  | S fuel' =>
      if (i <? hi)%Z then for_lt_fuel fuel' (i + 1)%Z hi body (body s) else s
  end.

Definition for_lt {St : Type} (lo hi : Z) (body : St -> St) (s : St) : St :=
  for_lt_fuel (Z.to_nat (hi - lo)) lo hi body s.

(** ** The semaphore *)

Module Semaphore.

(** Modelled from the spec: gutil/semaphore.h ([Semaphore] and the scoped
    [Lock]) is included by the header but is not among the sources.  The
    spec describes a counting signal: a non-negative counter, created with
    no permit, whose [increment] releases one permit without blocking and
    whose [decrement] acquires one, blocking while the count is zero. *)
Definition t : Set := nat.

Definition init : t := O.

Definition increment (c : t) : t := S c.

(** [None]: no permit is available, the caller blocks. *)
Definition decrement (c : t) : option t :=
  match c with
  | O => None
  | S c' => Some c'
  end.

End Semaphore.

(** [sem.decrement()] and [sem.increment()] on the semaphore stored in a
    field of the queue object, given the field's getter and setter. *)
Definition sem_decrement {St : Type} (w : sem_id)
    (get : St -> Semaphore.t) (set : Semaphore.t -> St -> St) : M St unit :=
  fun s =>
    match Semaphore.decrement (get s) with
    | Some c => Done (tt, set c s)
    | None => Blocks w
    end.

Definition sem_increment {St : Type}
    (get : St -> Semaphore.t) (set : Semaphore.t -> St -> St) : M St unit :=
  fun s => Done (tt, set (Semaphore.increment (get s)) s).

(** ** std::queue<T>, as the list of its elements, front first *)

Module StdQueue.
Section StdQueue.
Context {T : Type}.

Definition push (q : list T) (x : T) : list T := q ++ [x].

(** [front()] and [pop()] require a non-empty queue. *)
Definition front (q : list T) : option T := hd_error q.

Definition pop (q : list T) : option (list T) :=
  match q with
  | [] => None
  | _ :: q' => Some q'
  end.

Definition size (q : list T) : Z := Z.of_nat (length q).
End StdQueue.
End StdQueue.

(** ** What a statement does, as seen from outside the thread *)

Inductive event (T : Type) : Type :=
| EvDec (w : sem_id)      (* a decrement() that returned *)
| EvInc (w : sem_id)      (* an increment() *)
| EvTest (b : bool)       (* the test queue.size() >= nmax *)
| EvQPush (x : T)         (* queue.push(x) *)
| EvQFront (x : T)        (* queue.front() read x *)
| EvQPop (x : T)          (* queue.pop() in pop removed x *)
| EvQDrop (x : T)         (* queue.pop() in push dropped the oldest message x *)
| EvReturn (x : T).       (* return x *)

Arguments EvDec {T} w.
Arguments EvInc {T} w.
Arguments EvTest {T} b.
Arguments EvQPush {T} x.
Arguments EvQFront {T} x.
Arguments EvQPop {T} x.
Arguments EvQDrop {T} x.
Arguments EvReturn {T} x.

(** What a caller asks of a queue. *)
Inductive request (T : Type) : Type :=
| ReqPush (msg : T)
| ReqPop.

Arguments ReqPush {T} msg.
Arguments ReqPop {T}.

(** A permit operation on [full] or [empty] (not on the mutex). *)
Definition permit_event {T : Type} (e : event T) : bool :=
  match e with
  | EvDec Full | EvDec Empty | EvInc Full | EvInc Empty => true
  | _ => false
  end.

(** A permit acquisition on [full] or [empty]. *)
Definition acquire_event {T : Type} (e : event T) : bool :=
  match e with
  | EvDec Full | EvDec Empty => true
  | _ => false
  end.

(** The result of a computation seen through [f]. *)
Definition outcome_map {A B : Type} (f : A -> B) (o : outcome A) : outcome B :=
  match o with
  | Done a => Done (f a)
  | Blocks w => Blocks w
  | Undefined => Undefined
  end.

(** [l1] is [l2] with some elements left out, the others in their order. *)
Inductive subseq {A : Type} : list A -> list A -> Prop :=
| subseq_nil : subseq [] []
| subseq_skip x l1 l2 : subseq l1 l2 -> subseq l1 (x :: l2)
| subseq_take x l1 l2 : subseq l1 l2 -> subseq (x :: l1) (x :: l2).

(** ** Threads calling into one queue object

    A thread is either outside the queue ([None]) or at a control point of
    [push] or [pop] ([Some c]).  [call r] is the first control point of the
    method asked for; [exec c] runs the statement at [c] on the shared
    object and names the next control point ([None] after the last
    statement of the method).  A step of the pool is a step of one thread;
    a thread whose statement [Blocks] has no step. *)

Module Pool.
Section Pool.
Context {shared ctl T : Type}.
Variable call : request T -> ctl.
Variable exec : ctl -> M shared (event T * option ctl).

Inductive label : Type :=
| LCall (r : request T)
| LExec (e : event T).

Definition pool : Type := list (option ctl).
Definition config : Type := (shared * pool)%type.
Definition trace : Type := list (nat * label).

Inductive step : config -> nat * label -> config -> Prop :=
| step_call s l1 l2 r :
    step (s, l1 ++ None :: l2) (length l1, LCall r)
         (s, l1 ++ Some (call r) :: l2)
| step_exec s l1 c l2 e c' s' :
    exec c s = Done ((e, c'), s') ->
    step (s, l1 ++ Some c :: l2) (length l1, LExec e)
         (s', l1 ++ c' :: l2).

(** Executions, the trace growing at its end. *)
Inductive steps (c0 : config) : trace -> config -> Prop :=
| steps_refl : steps c0 [] c0
| steps_snoc tr c l c' :
    steps c0 tr c -> step c l c' -> steps c0 (tr ++ [l]) c'.

(** All threads outside the queue: no push or pop is in progress. *)
Definition quiescent (p : pool) : Prop := Forall (fun t => t = None) p.

(** [k] threads, none of them inside the queue yet. *)
Definition idle (k : nat) : pool := repeat None k.

(** *** Projections of a trace *)

Definition events_where {A : Type} (f : nat * label -> list A) (tr : trace) : list A :=
  flat_map f tr.

(** Messages handed to [push], in the order of the calls. *)
Definition push_calls : trace -> list T :=
  events_where (fun l => match l with (_, LCall (ReqPush m)) => [m] | _ => [] end).

(** Messages stored by [queue.push], in the order they entered the storage. *)
Definition stored : trace -> list T :=
  events_where (fun l => match l with (_, LExec (EvQPush m)) => [m] | _ => [] end).

(** Messages removed by [queue.pop] inside [pop], in the order of removal. *)
Definition removed : trace -> list T :=
  events_where (fun l => match l with (_, LExec (EvQPop m)) => [m] | _ => [] end).

(** Messages returned by [pop], in the order of the returns. *)
Definition returned : trace -> list T :=
  events_where (fun l => match l with (_, LExec (EvReturn m)) => [m] | _ => [] end).

(** Number of steps with a given event. *)
Definition occurrences (sel : event T -> bool) (tr : trace) : nat :=
  length (filter (fun l => match l with (_, LExec e) => sel e | _ => false end) tr).

(** Number of calls of the requests selected by [sel]. *)
Definition calls (sel : request T -> bool) (tr : trace) : nat :=
  length (filter (fun l => match l with (_, LCall r) => sel r | _ => false end) tr).

(** Thread [c] is the only one that ever asks for requests selected by [sel]. *)
Definition only_caller (sel : request T -> bool) (c : nat) (tr : trace) : Prop :=
  forall i r, In (i, LCall r) tr -> sel r = true -> i = c.

Definition only_callerb (sel : request T -> bool) (c : nat) (tr : trace) : bool :=
  forallb (fun l => match l with
                    | (i, LCall r) => implb (sel r) (i =? c)
                    | _ => true
                    end) tr.

(** *** A scheduler, to run concrete interleavings *)

Inductive choice : Type :=
| Call (i : nat) (r : request T)   (* idle thread i calls into the queue *)
| Run (i : nat).                   (* thread i runs its next statement *)

Definition set_thread (i : nat) (t : option ctl) (p : pool) : pool :=
  firstn i p ++ t :: skipn (S i) p.

Definition sched_step (ch : choice) (cfg : config) : option ((nat * label) * config) :=
  let '(s, p) := cfg in
  match ch with
  | Call i r =>
      match nth_error p i with
      | Some None =>
          Some ((i, LCall r), (s, set_thread i (Some (call r)) p))
      | _ => None
      end
  | Run i =>
      match nth_error p i with
      | Some (Some c) =>
          match exec c s with
          | Done ((e, c'), s') =>
              Some ((i, LExec e), (s', set_thread i c' p))
          | _ => None
          end
      | _ => None
      end
  end.

Fixpoint schedule (chs : list choice) (cfg : config) : option (trace * config) :=
  match chs with
  | [] => Some ([], cfg)
  | ch :: chs' =>
      match sched_step ch cfg with
      | Some (l, cfg') =>
          match schedule chs' cfg' with
          | Some (tr, cfg'') => Some (l :: tr, cfg'')
          | None => None
          end
      | None => None
      end
  end.

(** Run one thread alone until it leaves the queue: the statements of one
    call, uninterrupted.  [None]: the fuel did not reach the end of the
    call. *)
Fixpoint complete (fuel : nat) (c : ctl) (s : shared)
    : option (outcome (list (event T) * shared)) :=
  match fuel with
  | O => None
  | S fuel' =>
      match exec c s with
      | Done ((e, None), s') => Some (Done ([e], s'))
      | Done ((e, Some c'), s') =>
          match complete fuel' c' s' with
          | Some (Done (es, s'')) => Some (Done (e :: es, s''))
          | r => r
          end
      | Blocks w => Some (Blocks w)
      | Undefined => Some Undefined
      end
  end.

(** Sum of a measure over the threads of a pool. *)
Definition total (f : option ctl -> nat) (p : pool) : nat := list_sum (map f p).

(** Messages dropped by the [queue.pop()] of a replacing [push]. *)
Definition dropped : trace -> list T :=
  events_where (fun l => match l with (_, LExec (EvQDrop m)) => [m] | _ => [] end).

(** Messages that left the storage, removed or dropped, in that order. *)
Definition gone : trace -> list T :=
  events_where (fun l => match l with
                         | (_, LExec (EvQPop m)) | (_, LExec (EvQDrop m)) => [m]
                         | _ => []
                         end).

(** The statement at [c] can run now: it neither waits nor is undefined. *)
Definition runnable (s : shared) (c : ctl) : bool :=
  match exec c s with
  | Done _ => true
  | _ => false
  end.

(** Where the threads inside a method can be, when a single thread calls it. *)
Definition confined (inside : ctl -> bool) (c : nat) (p : pool) : Prop :=
  forall i c0, nth_error p i = Some (Some c0) -> inside c0 = true -> i = c.

(** No other thread of the pool is inside the method. *)
Definition outside (inside : ctl -> bool) (t : option ctl) : Prop :=
  match t with
  | Some c0 => inside c0 = false
  | None => True
  end.

End Pool.
End Pool.

(** Modelled from the spec: the scoped [Lock] of gutil/semaphore.h (not
    among the sources), a mutual-exclusion lock on a semaphore used as a
    binary gate: [Lock lock(mutex)] acquires the permit of [mutex] when the
    scope is entered, the end of the scope releases it. *)
Definition Lock {St : Type}
    (get : St -> Semaphore.t) (set : Semaphore.t -> St -> St) : M St unit :=
  sem_decrement Mutex get set.

Definition Lock_end {St : Type}
    (get : St -> Semaphore.t) (set : Semaphore.t -> St -> St) : M St unit :=
  sem_increment get set.

(** A caller that issues requests one after the other, each call run to
    its end before the next; the values returned by the pops are collected
    in order. *)
Section Serve.
Context {St T : Type}.
Variable push : T -> M St unit.
Variable pop : M St T.

Definition serve (r : request T) : M St (list T) :=
  match r with
  | ReqPush msg => push msg ;; ret []
  | ReqPop => x <- pop ;; ret [x]
  end.

Fixpoint serve_all (rs : list (request T)) : M St (list T) :=
  match rs with
  | [] => ret []
  | r :: rs' => xs <- serve r ;; ys <- serve_all rs' ;; ret (xs ++ ys)
  end.
End Serve.

(** Two computations end alike: the same value with related states, the
    same wait, or both undefined. *)
Definition agree {A St1 St2 : Type} (R : St1 -> St2 -> Prop)
    (o1 : outcome (A * St1)) (o2 : outcome (A * St2)) : Prop :=
  match o1, o2 with
  | Done (a1, s1), Done (a2, s2) => a1 = a2 /\ R s1 s2
  | Blocks w1, Blocks w2 => w1 = w2
  | Undefined, Undefined => True
  | _, _ => False
  end.

(** * MsgQueue<T>: the blocking queue *)

Module MsgQueue.
Section MsgQueue.
Variable T : Type.

(** The data members of the class. *)
Record t : Type := mk {
  nmax : Z;
  queue : list T;
  mutex : Semaphore.t;
  full : Semaphore.t;
  empty : Semaphore.t
}.

Definition set_queue (q : list T) (s : t) : t :=
  mk (nmax s) q (mutex s) (full s) (empty s).
Definition set_mutex (c : Semaphore.t) (s : t) : t :=
  mk (nmax s) (queue s) c (full s) (empty s).
Definition set_full (c : Semaphore.t) (s : t) : t :=
  mk (nmax s) (queue s) (mutex s) c (empty s).
Definition set_empty (c : Semaphore.t) (s : t) : t :=
  mk (nmax s) (queue s) (mutex s) (full s) c.

(** The statements of the methods. *)
Definition empty_decrement : M t unit := sem_decrement Empty empty set_empty.
Definition empty_increment : M t unit := sem_increment empty set_empty.
Definition full_decrement : M t unit := sem_decrement Full full set_full.
Definition full_increment : M t unit := sem_increment full set_full.
Definition lock : M t unit := Lock mutex set_mutex.
Definition unlock : M t unit := Lock_end mutex set_mutex.

Definition queue_push (msg : T) : M t unit :=
  fun s => Done (tt, set_queue (StdQueue.push (queue s) msg) s).

Definition queue_front : M t T :=
  fun s =>
    match StdQueue.front (queue s) with
    | Some x => Done (x, s)
    | None => Undefined
    end.

Definition queue_pop : M t unit :=
  fun s =>
    match StdQueue.pop (queue s) with
    | Some q => Done (tt, set_queue q s)
    | None => Undefined
    end.

(** [MsgQueue(int _nmax)], lines 70-80. *)
Definition MsgQueue (_nmax : Z) : t :=
  let n := std_max 1 _nmax in
  let s := mk n [] Semaphore.init Semaphore.init Semaphore.init in
  let s := set_mutex (Semaphore.increment (mutex s)) s in
  for_lt 0 n (fun s => set_empty (Semaphore.increment (empty s)) s) s.

(** [void push(const T &msg)], lines 89-99. *)
Definition push (msg : T) : M t unit :=
  empty_decrement ;;
  lock ;;
  queue_push msg ;;
  unlock ;;
  full_increment.

(** [T pop()], lines 108-123. *)
Definition pop : M t T :=
  full_decrement ;;
  lock ;;
  ret_ <- queue_front ;;
  queue_pop ;;
  unlock ;;
  empty_increment ;;
  ret ret_.

(** Control points: the statement a thread inside [push] or [pop] runs
    next, with the locals that are live there ([msg]; [ret] once assigned). *)
Inductive ctl : Type :=
| Push_empty_dec (msg : T)     (* line 91: empty.decrement() *)
| Push_lock (msg : T)          (* line 94: Lock lock(mutex) *)
| Push_queue_push (msg : T)    (* line 95: queue.push(msg) *)
| Push_unlock (msg : T)        (* line 96: end of the scope of lock *)
| Push_full_inc (msg : T)      (* line 98: full.increment() *)
| Pop_full_dec                 (* line 112: full.decrement() *)
| Pop_lock                     (* line 115: Lock lock(mutex) *)
| Pop_front                    (* line 116: ret=queue.front() *)
| Pop_queue_pop (ret_ : T)     (* line 117: queue.pop() *)
| Pop_unlock (ret_ : T)        (* line 118: end of the scope of lock *)
| Pop_empty_inc (ret_ : T)     (* line 120: empty.increment() *)
| Pop_return (ret_ : T).       (* line 122: return ret *)

Definition call (r : request T) : ctl :=
  match r with
  | ReqPush msg => Push_empty_dec msg
  | ReqPop => Pop_full_dec
  end.

(** One statement.  The label of [queue.pop()] names the element that
    left the storage (read for the label only). *)
Definition exec (c : ctl) : M t (event T * option ctl) :=
  match c with
  | Push_empty_dec msg => empty_decrement ;; ret (EvDec Empty, Some (Push_lock msg))
  | Push_lock msg => lock ;; ret (EvDec Mutex, Some (Push_queue_push msg))
  | Push_queue_push msg => queue_push msg ;; ret (EvQPush msg, Some (Push_unlock msg))
  | Push_unlock msg => unlock ;; ret (EvInc Mutex, Some (Push_full_inc msg))
  | Push_full_inc msg => full_increment ;; ret (EvInc Full, None)
  | Pop_full_dec => full_decrement ;; ret (EvDec Full, Some Pop_lock)
  | Pop_lock => lock ;; ret (EvDec Mutex, Some Pop_front)
  | Pop_front => x <- queue_front ;; ret (EvQFront x, Some (Pop_queue_pop x))
  | Pop_queue_pop r => x <- queue_front ;; queue_pop ;; ret (EvQPop x, Some (Pop_unlock r))
  | Pop_unlock r => unlock ;; ret (EvInc Mutex, Some (Pop_empty_inc r))
  | Pop_empty_inc r => empty_increment ;; ret (EvInc Empty, Some (Pop_return r))
  | Pop_return r => ret (EvReturn r, None)
  end.

(** The thread holds the mutex: it is past [Lock lock(mutex)] and before
    the end of the scope of [lock]. *)
Definition holds_mutex (c : ctl) : bool :=
  match c with
  | Push_queue_push _ | Push_unlock _ | Pop_front | Pop_queue_pop _ | Pop_unlock _ => true
  | _ => false
  end.

Definition in_push (c : ctl) : bool :=
  match c with
  | Push_empty_dec _ | Push_lock _ | Push_queue_push _ | Push_unlock _ | Push_full_inc _ => true
  | _ => false
  end.

Definition in_pop (c : ctl) : bool := negb (in_push c).

(** Executions of a pool of threads on a fresh queue. *)
Definition config : Type := Pool.config (shared := t) (ctl := ctl).
Definition trace : Type := Pool.trace (T := T).
Definition init (_nmax : Z) (k : nat) : config := (MsgQueue _nmax, Pool.idle k).
Definition steps : config -> trace -> config -> Prop := Pool.steps call exec.
Definition reachable (_nmax : Z) (k : nat) (tr : trace) (cfg : config) : Prop :=
  steps (init _nmax k) tr cfg.

(** Requests served one after the other, each call run to its end. *)
Definition run (rs : list (request T)) : M t (list T) := serve_all push pop rs.

(** A chosen interleaving, from a configuration. *)
Definition schedule (chs : list Pool.choice) (cfg : config) : option (trace * config) :=
  Pool.schedule call exec chs cfg.

(** Where the threads are, counted: what the semaphores do not show while
    calls are in progress. *)
Definition holding (t : option ctl) : nat :=
  match t with
  | Some c => if holds_mutex c then 1 else 0
  | None => 0
  end.

(** An [empty] permit is taken, the message is not stored yet. *)
Definition slot_taken (t : option ctl) : nat :=
  match t with
  | Some (Push_lock _) | Some (Push_queue_push _) => 1
  | _ => 0
  end.

(** The message is stored, its [full] permit is not released yet. *)
Definition unsignalled (t : option ctl) : nat :=
  match t with
  | Some (Push_unlock _) | Some (Push_full_inc _) => 1
  | _ => 0
  end.

(** A [full] permit is taken, the element is not removed yet. *)
Definition claimed (t : option ctl) : nat :=
  match t with
  | Some Pop_lock | Some Pop_front | Some (Pop_queue_pop _) => 1
  | _ => 0
  end.

(** The element is removed, its [empty] permit is not released yet. *)
Definition unreleased (t : option ctl) : nat :=
  match t with
  | Some (Pop_unlock _) | Some (Pop_empty_inc _) => 1
  | _ => 0
  end.

(** The message of a [push] that has not reached the storage yet. *)
Definition pending (t : option ctl) : list T :=
  match t with
  | Some (Push_empty_dec m) | Some (Push_lock m) | Some (Push_queue_push m) => [m]
  | _ => []
  end.

(** The element a [pop] has removed and not returned yet. *)
Definition in_hand (t : option ctl) : list T :=
  match t with
  | Some (Pop_unlock r) | Some (Pop_empty_inc r) | Some (Pop_return r) => [r]
  | _ => []
  end.

(** A [pop] is in progress. *)
Definition popping (t : option ctl) : nat :=
  match t with
  | Some c => if in_pop c then 1 else 0
  | None => 0
  end.

(** The statements a thread has left to run in its call: [push] has
    five (lines 91, 94, 95, 96, 98), [pop] has seven (lines 112, 115, 116,
    117, 118, 120, 122). *)
Definition remaining (t : option ctl) : nat :=
  match t with
  | None => 0
  | Some (Push_empty_dec _) => 5
  | Some (Push_lock _) => 4
  | Some (Push_queue_push _) => 3
  | Some (Push_unlock _) => 2
  | Some (Push_full_inc _) => 1
  | Some Pop_full_dec => 7
  | Some Pop_lock => 6
  | Some Pop_front => 5
  | Some (Pop_queue_pop _) => 4
  | Some (Pop_unlock _) => 3
  | Some (Pop_empty_inc _) => 2
  | Some (Pop_return _) => 1
  end.

(** The accounting of permits, elements and threads. *)
Definition counting (_nmax : Z) (cfg : config) : Prop :=
  let (s, p) := cfg in
  nmax s = Z.max 1 _nmax /\
  mutex s + Pool.total holding p = 1 /\
  Z.of_nat (empty s + Pool.total slot_taken p + length (queue s)
            + Pool.total unreleased p) = nmax s /\
  full s + Pool.total unsignalled p + Pool.total claimed p = length (queue s).

(** Between [ret=queue.front()] and [queue.pop()] the front is still [ret]. *)
Definition front_kept (s : t) (t : option ctl) : Prop :=
  match t with
  | Some (Pop_queue_pop r) => StdQueue.front (queue s) = Some r
  | _ => True
  end.

Definition is_dec (w : sem_id) (e : event T) : bool :=
  match e, w with
  | EvDec Mutex, Mutex | EvDec Full, Full | EvDec Empty, Empty => true
  | _, _ => false
  end.

Definition is_inc (w : sem_id) (e : event T) : bool :=
  match e, w with
  | EvInc Mutex, Mutex | EvInc Full, Full | EvInc Empty, Empty => true
  | _, _ => false
  end.

Definition is_pop (r : request T) : bool :=
  match r with ReqPop => true | ReqPush _ => false end.

Definition is_push (r : request T) : bool := negb (is_pop r).

(** The events of a call that runs to its end. *)
Definition push_events (msg : T) : list (event T) :=
  [EvDec Empty; EvDec Mutex; EvQPush msg; EvInc Mutex; EvInc Full].

Definition pop_events (x : T) : list (event T) :=
  [EvDec Full; EvDec Mutex; EvQFront x; EvQPop x; EvInc Mutex; EvInc Empty; EvReturn x].

(** The messages a sequence of requests pushes. *)
Definition pushes (rs : list (request T)) : list T :=
  flat_map (fun r => match r with ReqPush m => [m] | ReqPop => [] end) rs.

(** The control points that call [front()] or [pop()] on the storage. *)
Definition accesses_front (c : ctl) : bool :=
  match c with
  | Pop_front | Pop_queue_pop _ => true
  | _ => false
  end.

(** The object, with nobody inside, holds the list [q] with capacity [cap]. *)
Definition represents (cap : nat) (s : t) (q : list T) : Prop :=
  mutex s = 1 /\ full s = length q /\ empty s + length q = cap /\ queue s = q.

(** A thread that is not at work: outside the queue, or at the first
    statement of [push] with no room, or at the first statement of [pop]
    with nothing to take. *)
Definition waiting (s : t) (t : option ctl) : Prop :=
  match t with
  | None => True
  | Some (Push_empty_dec _) =>
      empty s = 0 /\ Z.of_nat (length (queue s)) = nmax s
  | Some Pop_full_dec => full s = 0 /\ queue s = []
  | Some _ => False
  end.

End MsgQueue.

Arguments MsgQueue {T} _nmax.
Arguments init {T} _nmax k.
Arguments Pop_full_dec {T}.
Arguments Pop_lock {T}.
Arguments Pop_front {T}.

End MsgQueue.

(** * MsgQueueReplace<T>: the queue that drops the oldest message *)

Module MsgQueueReplace.
Section MsgQueueReplace.
Variable T : Type.

(** The data members of the class. *)
Record t : Type := mk {
  nmax : Z;
  queue : list T;
  mutex : Semaphore.t;
  full : Semaphore.t
}.

Definition set_queue (q : list T) (s : t) : t := mk (nmax s) q (mutex s) (full s).
Definition set_mutex (c : Semaphore.t) (s : t) : t := mk (nmax s) (queue s) c (full s).
Definition set_full (c : Semaphore.t) (s : t) : t := mk (nmax s) (queue s) (mutex s) c.

(** The statements of the methods. *)
Definition full_decrement : M t unit := sem_decrement Full full set_full.
Definition full_increment : M t unit := sem_increment full set_full.
Definition lock : M t unit := Lock mutex set_mutex.
Definition unlock : M t unit := Lock_end mutex set_mutex.

Definition queue_push (msg : T) : M t unit :=
  fun s => Done (tt, set_queue (StdQueue.push (queue s) msg) s).

Definition queue_front : M t T :=
  fun s =>
    match StdQueue.front (queue s) with
    | Some x => Done (x, s)
    | None => Undefined
    end.

Definition queue_pop : M t unit :=
  fun s =>
    match StdQueue.pop (queue s) with
    | Some q => Done (tt, set_queue q s)
    | None => Undefined
    end.

(** [queue.size() >= nmax], line 167. *)
Definition size_ge_nmax : M t bool :=
  fun s => Done ((StdQueue.size (queue s) >=? size_t_of_int (nmax s))%Z, s).

(** [MsgQueueReplace(int _nmax)], lines 149-153. *)
Definition MsgQueueReplace (_nmax : Z) : t :=
  let s := mk (std_max 1 _nmax) [] Semaphore.init Semaphore.init in
  set_mutex (Semaphore.increment (mutex s)) s.

(** [void push(const T &msg)], lines 163-177: [lock] lives to the end of
    the function. *)
Definition push (msg : T) : M t unit :=
  lock ;;
  b <- size_ge_nmax ;;
  (if b : bool
   then queue_pop ;; queue_push msg
   else queue_push msg ;; full_increment) ;;
  unlock.

(** [T pop()], lines 186-199. *)
Definition pop : M t T :=
  full_decrement ;;
  lock ;;
  ret_ <- queue_front ;;
  queue_pop ;;
  unlock ;;
  ret ret_.

(** Control points. *)
Inductive ctl : Type :=
| Push_lock (msg : T)            (* line 165: Lock lock(mutex) *)
| Push_test (msg : T)            (* line 167: if (queue.size() >= nmax) *)
| Push_replace_pop (msg : T)     (* line 169: queue.pop() *)
| Push_replace_push (msg : T)    (* line 170: queue.push(msg) *)
| Push_queue_push (msg : T)      (* line 174: queue.push(msg) *)
| Push_full_inc (msg : T)        (* line 175: full.increment() *)
| Push_unlock (msg : T)          (* line 177: end of the scope of lock *)
| Pop_full_dec                   (* line 190: full.decrement() *)
| Pop_lock                       (* line 193: Lock lock(mutex) *)
| Pop_front                      (* line 194: ret=queue.front() *)
| Pop_queue_pop (ret_ : T)       (* line 195: queue.pop() *)
| Pop_unlock (ret_ : T)          (* line 196: end of the scope of lock *)
| Pop_return (ret_ : T).         (* line 198: return ret *)

Definition call (r : request T) : ctl :=
  match r with
  | ReqPush msg => Push_lock msg
  | ReqPop => Pop_full_dec
  end.

(** One statement.  The labels of the two [queue.pop()] name the element
    that left the storage (read for the label only). *)
Definition exec (c : ctl) : M t (event T * option ctl) :=
  match c with
  | Push_lock msg => lock ;; ret (EvDec Mutex, Some (Push_test msg))
  | Push_test msg =>
      b <- size_ge_nmax ;;
      ret (EvTest b, Some (if b : bool then Push_replace_pop msg else Push_queue_push msg))
  | Push_replace_pop msg =>
      x <- queue_front ;; queue_pop ;; ret (EvQDrop x, Some (Push_replace_push msg))
  | Push_replace_push msg => queue_push msg ;; ret (EvQPush msg, Some (Push_unlock msg))
  | Push_queue_push msg => queue_push msg ;; ret (EvQPush msg, Some (Push_full_inc msg))
  | Push_full_inc msg => full_increment ;; ret (EvInc Full, Some (Push_unlock msg))
  | Push_unlock msg => unlock ;; ret (EvInc Mutex, None)
  | Pop_full_dec => full_decrement ;; ret (EvDec Full, Some Pop_lock)
  | Pop_lock => lock ;; ret (EvDec Mutex, Some Pop_front)
  | Pop_front => x <- queue_front ;; ret (EvQFront x, Some (Pop_queue_pop x))
  | Pop_queue_pop r => x <- queue_front ;; queue_pop ;; ret (EvQPop x, Some (Pop_unlock r))
  | Pop_unlock r => unlock ;; ret (EvInc Mutex, Some (Pop_return r))
  | Pop_return r => ret (EvReturn r, None)
  end.

(** The thread holds the mutex. *)
Definition holds_mutex (c : ctl) : bool :=
  match c with
  | Push_lock _ | Pop_full_dec | Pop_lock | Pop_return _ => false
  | _ => true
  end.

Definition in_push (c : ctl) : bool :=
  match c with
  | Pop_full_dec | Pop_lock | Pop_front | Pop_queue_pop _ | Pop_unlock _ | Pop_return _ => false
  | _ => true
  end.

Definition in_pop (c : ctl) : bool := negb (in_push c).

(** Executions of a pool of threads on a fresh queue. *)
Definition config : Type := Pool.config (shared := t) (ctl := ctl).
Definition trace : Type := Pool.trace (T := T).
Definition init (_nmax : Z) (k : nat) : config := (MsgQueueReplace _nmax, Pool.idle k).
Definition steps : config -> trace -> config -> Prop := Pool.steps call exec.
Definition reachable (_nmax : Z) (k : nat) (tr : trace) (cfg : config) : Prop :=
  steps (init _nmax k) tr cfg.

(** Requests served one after the other, each call run to its end. *)
Definition run (rs : list (request T)) : M t (list T) := serve_all push pop rs.

(** A chosen interleaving, from a configuration. *)
Definition schedule (chs : list Pool.choice) (cfg : config) : option (trace * config) :=
  Pool.schedule call exec chs cfg.

(** Where the threads are, counted. *)
Definition holding (t : option ctl) : nat :=
  match t with
  | Some c => if holds_mutex c then 1 else 0
  | None => 0
  end.

(** A [full] permit is taken, the element is not removed yet. *)
Definition claimed (t : option ctl) : nat :=
  match t with
  | Some Pop_lock | Some Pop_front | Some (Pop_queue_pop _) => 1
  | _ => 0
  end.

(** The message is stored, its [full] permit is not released yet. *)
Definition unsignalled (t : option ctl) : nat :=
  match t with
  | Some (Push_full_inc _) => 1
  | _ => 0
  end.

(** The oldest message is dropped, the new one is not stored yet. *)
Definition replacing (t : option ctl) : nat :=
  match t with
  | Some (Push_replace_push _) => 1
  | _ => 0
  end.

(** The accounting of permits, elements and threads. *)
Definition counting (_nmax : Z) (cfg : config) : Prop :=
  let (s, p) := cfg in
  nmax s = Z.max 1 _nmax /\
  mutex s + Pool.total holding p = 1 /\
  length (queue s) + Pool.total replacing p
  = full s + Pool.total claimed p + Pool.total unsignalled p /\
  (Z.of_nat (length (queue s) + Pool.total replacing p) <= nmax s)%Z.

(** What a thread knows about the storage while it holds the mutex: the
    outcome of the test in [push], the front read in [pop]. *)
Definition knows (s : t) (t : option ctl) : Prop :=
  match t with
  | Some (Push_replace_pop _) => (nmax s <= Z.of_nat (length (queue s)))%Z
  | Some (Push_queue_push _) => (Z.of_nat (length (queue s)) < nmax s)%Z
  | Some (Pop_queue_pop r) => StdQueue.front (queue s) = Some r
  | _ => True
  end.

(** The events of a call that runs to its end. *)
Definition push_events (dropped : option T) (msg : T) : list (event T) :=
  match dropped with
  | Some x => [EvDec Mutex; EvTest true; EvQDrop x; EvQPush msg; EvInc Mutex]
  | None => [EvDec Mutex; EvTest false; EvQPush msg; EvInc Full; EvInc Mutex]
  end.

Definition pop_events (x : T) : list (event T) :=
  [EvDec Full; EvDec Mutex; EvQFront x; EvQPop x; EvInc Mutex; EvReturn x].

(** The control points that call [front()] or [pop()] on the storage. *)
Definition accesses_front (c : ctl) : bool :=
  match c with
  | Push_replace_pop _ | Pop_front | Pop_queue_pop _ => true
  | _ => false
  end.

(** The accounting, and what the threads in the critical section know. *)
Definition invariant (_nmax : Z) (cfg : config) : Prop :=
  counting _nmax cfg /\ Forall (knows (fst cfg)) (snd cfg).

(** The message a [push] drops: the front, when the storage is full. *)
Definition dropped_by (s : t) : option T :=
  if (StdQueue.size (queue s) >=? size_t_of_int (nmax s))%Z
  then StdQueue.front (queue s)
  else None.

(** The message of a [push] that has not reached the storage yet. *)
Definition pending (t : option ctl) : list T :=
  match t with
  | Some (Push_lock m) | Some (Push_test m) | Some (Push_replace_pop m)
  | Some (Push_replace_push m) | Some (Push_queue_push m) => [m]
  | _ => []
  end.

(** The element a [pop] has removed and not returned yet. *)
Definition in_hand (t : option ctl) : list T :=
  match t with
  | Some (Pop_unlock r) | Some (Pop_return r) => [r]
  | _ => []
  end.

Definition is_pop (r : request T) : bool :=
  match r with ReqPop => true | ReqPush _ => false end.

Definition is_push (r : request T) : bool := negb (is_pop r).

(** The object, with nobody inside, holds the list [q] with capacity [cap]. *)
Definition represents (cap : nat) (s : t) (q : list T) : Prop :=
  mutex s = 1 /\ full s = length q /\ queue s = q /\
  (1 <= nmax s <= INT_MAX)%Z /\ nmax s = Z.of_nat cap.

(** A thread that is not at work: outside the queue, or at the first
    statement of [pop] with nothing to take. *)
Definition waiting (s : t) (t : option ctl) : Prop :=
  match t with
  | None => True
  | Some Pop_full_dec => full s = 0 /\ queue s = []
  | Some _ => False
  end.

End MsgQueueReplace.

Arguments MsgQueueReplace {T} _nmax.
Arguments init {T} _nmax k.
Arguments Pop_full_dec {T}.
Arguments Pop_lock {T}.
Arguments Pop_front {T}.

End MsgQueueReplace.

(** * The queues as plain lists

    The reference the two classes are compared with: a queue is the list
    of its elements, oldest first, with a capacity; no semaphore, no
    mutex. *)

Module Abstract.
Section Abstract.
Variable T : Type.
Variable cap : nat.

(** Append at the tail when there is room, wait for room otherwise. *)
Definition bounded_push (msg : T) : M (list T) unit :=
  fun q => if length q <? cap then Done (tt, q ++ [msg]) else Blocks Empty.

(** Append at the tail, after leaving out the oldest element when there
    is no room. *)
Definition newest_push (msg : T) : M (list T) unit :=
  fun q => Done (tt, (if cap <=? length q then tl q else q) ++ [msg]).

(** Take the oldest element, wait for one when there is none. *)
Definition take : M (list T) T :=
  fun q =>
    match q with
    | [] => Blocks Full
    | x :: q' => Done (x, q')
    end.

Definition bounded_run (rs : list (request T)) : M (list T) (list T) :=
  serve_all bounded_push take rs.

Definition newest_run (rs : list (request T)) : M (list T) (list T) :=
  serve_all newest_push take rs.

(** The last [cap] elements of a list. *)
Definition newest (ms : list T) : list T := skipn (length ms - cap) ms.

End Abstract.
End Abstract.

(** * Concrete runs *)

Module Demo.

Definition runs (i n : nat) : list (Pool.choice (T := Z)) := repeat (Pool.Run i) n.

(** Thread 0 pushes 10, 20, 30 into a [MsgQueue] of capacity 2 while
    thread 1 pops three times, the two threads taking turns inside the
    calls. *)
Definition producer_consumer : list (Pool.choice (T := Z)) :=
  [Pool.Call 0 (ReqPush 10%Z); Pool.Call 1 ReqPop] ++ runs 0 5 ++ runs 1 3 ++
  [Pool.Call 0 (ReqPush 20%Z)] ++ runs 0 1 ++ runs 1 4 ++ runs 0 4 ++
  [Pool.Call 0 (ReqPush 30%Z); Pool.Call 1 ReqPop] ++
  runs 1 2 ++ runs 0 1 ++ runs 1 5 ++ runs 0 4 ++
  [Pool.Call 1 ReqPop] ++ runs 1 7.

Definition producer_consumer_trace : MsgQueue.trace Z :=
  Eval vm_compute in
    match MsgQueue.schedule producer_consumer (MsgQueue.init 2 2) with
    | Some (tr, _) => tr
    | None => []
    end.

(** Threads 0, 1, 2 push 1, 2, 3 into a [MsgQueue] of capacity 1 and
    thread 3 pops three times; the pushes called first are not stored
    first. *)
Definition three_producers : list (Pool.choice (T := Z)) :=
  [Pool.Call 0 (ReqPush 1%Z); Pool.Call 1 (ReqPush 2%Z); Pool.Call 2 (ReqPush 3%Z);
   Pool.Call 3 ReqPop] ++
  runs 1 5 ++ runs 3 7 ++ runs 2 5 ++ [Pool.Call 3 ReqPop] ++ runs 3 7 ++
  runs 0 5 ++ [Pool.Call 3 ReqPop] ++ runs 3 7.

Definition three_producers_trace : MsgQueue.trace Z :=
  Eval vm_compute in
    match MsgQueue.schedule three_producers (MsgQueue.init 1 4) with
    | Some (tr, _) => tr
    | None => []
    end.

(** One thread pushes 1 and then 2 into a [MsgQueueReplace] of capacity 1
    and stops inside the second call: [replace_dropped] after the
    [queue.pop()] of line 169, [replace_stored] after the [queue.push(msg)]
    of line 174 of a first push. *)
Definition replace_dropped : list (Pool.choice (T := Z)) :=
  [Pool.Call 0 (ReqPush 1%Z)] ++ runs 0 5 ++ [Pool.Call 0 (ReqPush 2%Z)] ++ runs 0 3.

Definition replace_dropped_trace : MsgQueueReplace.trace Z :=
  Eval vm_compute in
    match MsgQueueReplace.schedule replace_dropped (MsgQueueReplace.init 1 1) with
    | Some (tr, _) => tr
    | None => []
    end.

Definition replace_stored : list (Pool.choice (T := Z)) :=
  [Pool.Call 0 (ReqPush 7%Z)] ++ runs 0 3.

Definition replace_stored_trace : MsgQueueReplace.trace Z :=
  Eval vm_compute in
    match MsgQueueReplace.schedule replace_stored (MsgQueueReplace.init 1 1) with
    | Some (tr, _) => tr
    | None => []
    end.

(** A [MsgQueueReplace] of capacity 1, thread 0 pushing 1, 2, 3 and
    thread 1 popping once: the pop takes the permit of message 1, the
    second push drops message 1 before the pop reads the storage, and the
    pop returns 2. *)
Definition replace_two_threads : list (Pool.choice (T := Z)) :=
  [Pool.Call 0 (ReqPush 1%Z)] ++ runs 0 5 ++
  [Pool.Call 1 ReqPop] ++ runs 1 1 ++
  [Pool.Call 0 (ReqPush 2%Z)] ++ runs 0 5 ++ runs 1 5 ++
  [Pool.Call 0 (ReqPush 3%Z)] ++ runs 0 5.

Definition replace_two_threads_trace : MsgQueueReplace.trace Z :=
  Eval vm_compute in
    match MsgQueueReplace.schedule replace_two_threads (MsgQueueReplace.init 1 2) with
    | Some (tr, _) => tr
    | None => []
    end.

(** A [MsgQueue] of capacity 1 that holds 1, thread 0 inside [push(2)]
    and thread 1 inside [pop], both at their first statement. *)
Definition producer_meets_consumer : list (Pool.choice (T := Z)) :=
  [Pool.Call 0 (ReqPush 1%Z)] ++ runs 0 5 ++
  [Pool.Call 0 (ReqPush 2%Z); Pool.Call 1 ReqPop].

Definition producer_meets_consumer_trace : MsgQueue.trace Z :=
  Eval vm_compute in
    match MsgQueue.schedule producer_meets_consumer (MsgQueue.init 1 2) with
    | Some (tr, _) => tr
    | None => []
    end.

End Demo.

(** * Facts *)

(** ** Integers and loops *)

Lemma for_lt_fuel_iter {St : Type} (body : St -> St) hi fuel : forall i s,
  fuel = Z.to_nat (hi - i) -> for_lt_fuel fuel i hi body s = Nat.iter fuel body s.
Proof.
  induction fuel as [|fuel IH]; intros i s Hf; simpl; [reflexivity|].
  destruct (Z.ltb_spec i hi) as [Hlt|Hge]; [|lia].
  rewrite IH by lia. now rewrite <- Nat.iter_succ_r.
Qed.

Lemma for_lt_iter {St : Type} (body : St -> St) hi s :
  for_lt 0 hi body s = Nat.iter (Z.to_nat hi) body s.
Proof.
  unfold for_lt. rewrite for_lt_fuel_iter by reflexivity. now rewrite Z.sub_0_r.
Qed.

Lemma std_max_spec a b : std_max a b = Z.max a b.
Proof. unfold std_max. destruct (Z.ltb_spec a b); lia. Qed.

Lemma INT_MAX_pos : (1 <= INT_MAX)%Z.
Proof. discriminate. Qed.

Lemma size_t_of_int_id z : (0 <= z <= INT_MAX)%Z -> size_t_of_int z = z.
Proof.
  unfold size_t_of_int, SIZE_WIDTH, INT_MAX. intros H.
  apply Z.mod_small. split; [lia|].
  apply Z.le_lt_trans with (2 ^ 31 - 1)%Z; [lia | reflexivity].
Qed.

(** ** Lists *)

Lemma subseq_nil_l {A : Type} (l : list A) : subseq [] l.
Proof. induction l; constructor; assumption. Qed.

Lemma subseq_refl {A : Type} (l : list A) : subseq l l.
Proof. induction l; constructor; assumption. Qed.

Lemma subseq_app {A : Type} (l1 l2 l3 l4 : list A) :
  subseq l1 l2 -> subseq l3 l4 -> subseq (l1 ++ l3) (l2 ++ l4).
Proof.
  induction 1; simpl; intros H34;
    [exact H34 | apply subseq_skip; auto | apply subseq_take; auto].
Qed.

Lemma subseq_prefix {A : Type} (l q : list A) : subseq l (l ++ q).
Proof.
  rewrite <- (app_nil_r l) at 1. apply subseq_app; [apply subseq_refl | apply subseq_nil_l].
Qed.

Lemma subseq_trans {A : Type} (l1 l2 l3 : list A) :
  subseq l1 l2 -> subseq l2 l3 -> subseq l1 l3.
Proof.
  intros H12 H23. revert l1 H12.
  induction H23 as [|x l2 l3 _ IH|x l2 l3 _ IH]; intros l1 H12.
  - exact H12.
  - apply subseq_skip. now apply IH.
  - inversion H12; subst; [apply subseq_skip | apply subseq_take]; now apply IH.
Qed.

(** The two parts of a list without repetition share no element. *)
Lemma nodup_app_parts {A : Type} (l1 l2 : list A) :
  NoDup (l1 ++ l2) -> NoDup l1 /\ NoDup l2 /\ forall a, In a l1 -> ~ In a l2.
Proof.
  induction l1 as [|x l1 IH]; simpl; intros H.
  - split; [constructor|]. split; [exact H|]. intros a [].
  - inversion H as [|y l Hx Hnd]; subst. destruct (IH Hnd) as (H1 & H2 & H3).
    split; [|split; [exact H2|]].
    + constructor; [|exact H1]. intros Hin. apply Hx, in_or_app. now left.
    + intros a [<-|Ha] Hin; [apply Hx, in_or_app; now right|exact (H3 a Ha Hin)].
Qed.

(** ** Requests served in a row *)

Lemma serve_all_app {St T : Type} (push : T -> M St unit) (pop : M St T) rs1 : forall rs2 s,
  serve_all push pop (rs1 ++ rs2) s
  = (xs <- serve_all push pop rs1 ;; ys <- serve_all push pop rs2 ;; ret (xs ++ ys)) s.
Proof.
  induction rs1 as [|r rs1 IH]; intros rs2 s; simpl.
  - unfold bind, ret. simpl. now destruct (serve_all push pop rs2 s) as [[ys s']| |].
  - unfold bind, ret. destruct (serve push pop r s) as [[xs s1]| |]; trivial.
    rewrite IH. unfold bind, ret.
    destruct (serve_all push pop rs1 s1) as [[ys s2]| |]; trivial.
    destruct (serve_all push pop rs2 s2) as [[zs s3]| |]; trivial.
    now rewrite app_assoc.
Qed.

Lemma serve_all_agree {St1 St2 T : Type} (R : St1 -> St2 -> Prop)
    (push1 : T -> M St1 unit) (pop1 : M St1 T)
    (push2 : T -> M St2 unit) (pop2 : M St2 T) :
  (forall msg s1 s2, R s1 s2 -> agree R (push1 msg s1) (push2 msg s2)) ->
  (forall s1 s2, R s1 s2 -> agree R (pop1 s1) (pop2 s2)) ->
  forall rs s1 s2, R s1 s2 ->
    agree R (serve_all push1 pop1 rs s1) (serve_all push2 pop2 rs s2).
Proof.
  intros Hpush Hpop. induction rs as [|r rs IH]; intros s1 s2 HR; simpl.
  - now split.
  - unfold bind, ret. destruct r as [msg|]; simpl; unfold bind, ret.
    + specialize (Hpush msg s1 s2 HR). unfold agree in Hpush.
      destruct (push1 msg s1) as [[u1 t1]|w1|], (push2 msg s2) as [[u2 t2]|w2|];
        try contradiction; trivial.
      destruct Hpush as [_ HR']. specialize (IH t1 t2 HR'). unfold agree in IH |- *.
      destruct (serve_all push1 pop1 rs t1) as [[o1 v1]|x1|],
               (serve_all push2 pop2 rs t2) as [[o2 v2]|x2|]; try contradiction; trivial;
        destruct IH as [-> HR'']; now split.
    + specialize (Hpop s1 s2 HR). unfold agree in Hpop.
      destruct (pop1 s1) as [[u1 t1]|w1|], (pop2 s2) as [[u2 t2]|w2|];
        try contradiction; trivial.
      destruct Hpop as [-> HR']. specialize (IH t1 t2 HR'). unfold agree in IH |- *.
      destruct (serve_all push1 pop1 rs t1) as [[o1 v1]|x1|],
               (serve_all push2 pop2 rs t2) as [[o2 v2]|x2|]; try contradiction; trivial;
        destruct IH as [-> HR'']; now split.
Qed.

(** When the related state determines the content, the results are equal. *)
Lemma agree_content {A St1 St2 : Type} (R : St1 -> St2 -> Prop) (f : St1 -> St2)
    (o1 : outcome (A * St1)) (o2 : outcome (A * St2)) :
  (forall s1 s2, R s1 s2 -> f s1 = s2) -> agree R o1 o2 ->
  outcome_map (fun res => (fst res, f (snd res))) o1 = o2.
Proof.
  intros Hf. unfold agree. destruct o1 as [[a1 s1]|w1|], o2 as [[a2 s2]|w2|];
    try contradiction; simpl; trivial.
  - intros [-> HR]. now rewrite (Hf _ _ HR).
  - now intros ->.
Qed.

(** ** Pools and traces *)

Module PoolFacts.
Import Pool.
Section PoolFacts.
Context {shared ctl T : Type}.
Variable call : request T -> ctl.
Variable exec : ctl -> M shared (event T * option ctl).

Local Abbreviation pool := (Pool.pool (ctl := ctl)).
Local Abbreviation trace := (Pool.trace (T := T)).
Local Abbreviation config := (Pool.config (shared := shared) (ctl := ctl)).
Local Abbreviation step := (Pool.step call exec).
Local Abbreviation steps := (Pool.steps call exec).
Local Abbreviation sched_step := (Pool.sched_step call exec).
Local Abbreviation schedule := (Pool.schedule call exec).
Local Abbreviation complete := (Pool.complete exec).

Implicit Types (f : option ctl -> nat) (p : pool) (tr : trace).

Lemma total_app f (p1 p2 : pool) : total f (p1 ++ p2) = total f p1 + total f p2.
Proof. unfold total. now rewrite map_app, list_sum_app. Qed.

Lemma total_cons f t (p : pool) : total f (t :: p) = f t + total f p.
Proof. reflexivity. Qed.

Lemma total_idle f k : f None = 0 -> total f (idle k) = 0.
Proof.
  intros Hf. unfold idle. induction k as [|k IH]; simpl; [reflexivity|].
  rewrite total_cons, Hf. exact IH.
Qed.

Lemma total_quiescent f (p : pool) : f None = 0 -> quiescent p -> total f p = 0.
Proof.
  intros Hf Hq. induction Hq as [|t p Ht _ IH]; [reflexivity|].
  subst t. rewrite total_cons, Hf. exact IH.
Qed.

Lemma quiescent_idle k : quiescent (ctl := ctl) (idle k).
Proof. apply Forall_forall. intros t Ht. now apply repeat_spec in Ht. Qed.

Lemma events_where_app {A : Type} (f : nat * label -> list A) tr1 tr2 :
  events_where f (tr1 ++ tr2) = events_where f tr1 ++ events_where f tr2.
Proof. apply flat_map_app. Qed.

Lemma occurrences_app sel tr1 tr2 :
  occurrences sel (tr1 ++ tr2) = occurrences sel tr1 + occurrences sel tr2.
Proof. unfold occurrences. now rewrite filter_app, length_app. Qed.

Lemma calls_app sel tr1 tr2 : calls sel (tr1 ++ tr2) = calls sel tr1 + calls sel tr2.
Proof. unfold calls. now rewrite filter_app, length_app. Qed.

Lemma steps_step c0 l c1 tr c2 :
  step c0 l c1 -> steps c1 tr c2 -> steps c0 (l :: tr) c2.
Proof.
  intros H1 H2. induction H2 as [|tr c l' c' _ IH Hs].
  - change [l] with ([] ++ [l]). eapply steps_snoc; [apply steps_refl | exact H1].
  - change (l :: tr ++ [l']) with ((l :: tr) ++ [l']).
    eapply steps_snoc; [exact IH | exact Hs].
Qed.

Lemma split_at_nth (p : pool) i t :
  nth_error p i = Some t ->
  exists l1 l2, p = l1 ++ t :: l2 /\ length l1 = i /\
                forall t', set_thread i t' p = l1 ++ t' :: l2.
Proof.
  intros H. exists (firstn i p), (skipn (S i) p).
  assert (Hlen : i < length p) by (apply nth_error_Some; congruence).
  repeat split.
  - rewrite <- (firstn_skipn i p) at 1. f_equal.
    clear Hlen. revert i H. induction p as [|x p IH]; intros [|i] H; simpl in *;
      try discriminate; [congruence | now apply IH].
  - rewrite length_firstn. lia.
Qed.

Lemma sched_step_sound ch cfg l cfg' :
  sched_step ch cfg = Some (l, cfg') -> step cfg l cfg'.
Proof.
  destruct cfg as [s p]. destruct ch as [i r|i]; unfold sched_step.
  - destruct (nth_error p i) as [[c|]|] eqn:E; try discriminate.
    intros H. injection H as <- <-.
    destruct (split_at_nth _ _ E) as (l1 & l2 & -> & <- & ->). apply step_call.
  - destruct (nth_error p i) as [[c|]|] eqn:E; try discriminate.
    destruct (exec c s) as [[[e c'] s']| |] eqn:X; try discriminate.
    intros H. injection H as <- <-.
    destruct (split_at_nth _ _ E) as (l1 & l2 & -> & <- & ->). now apply step_exec.
Qed.

Lemma schedule_sound chs : forall cfg tr cfg',
  schedule chs cfg = Some (tr, cfg') -> steps cfg tr cfg'.
Proof.
  induction chs as [|ch chs IH]; simpl; intros cfg tr cfg' H.
  - injection H as <- <-. apply steps_refl.
  - destruct (sched_step ch cfg) as [[l c1]|] eqn:E; try discriminate.
    destruct (schedule chs c1) as [[tr1 c2]|] eqn:R; try discriminate.
    injection H as <- <-.
    eapply steps_step; [eapply sched_step_sound; exact E | now apply IH].
Qed.

Lemma nth_error_here {A : Type} (l1 l2 : list A) x :
  nth_error (l1 ++ x :: l2) (length l1) = Some x.
Proof. rewrite nth_error_app2, Nat.sub_diag by lia. reflexivity. Qed.

Lemma nth_error_elsewhere {A : Type} (l1 l2 : list A) x y i :
  i <> length l1 -> nth_error (l1 ++ x :: l2) i = nth_error (l1 ++ y :: l2) i.
Proof.
  intros Hi. destruct (Nat.lt_ge_cases i (length l1)) as [Hlt|Hge].
  - now rewrite !nth_error_app1 by assumption.
  - rewrite !nth_error_app2 by assumption.
    destruct (i - length l1) as [|j] eqn:E; [lia | reflexivity].
Qed.

Lemma only_caller_confined (sel : request T -> bool) (inside : ctl -> bool) c s0 k :
  (forall r, inside (call r) = sel r) ->
  (forall c0 s e c1 s', exec c0 s = Done ((e, Some c1), s') -> inside c1 = inside c0) ->
  forall tr cfg, steps (s0, idle k) tr cfg -> only_caller sel c tr ->
  confined inside c (snd cfg).
Proof.
  intros Hcall Hexec tr cfg H. induction H as [|tr cfg l cfg' _ IH Hs]; intros Hc.
  - intros i c0 Hi _. apply nth_error_In in Hi. now apply repeat_spec in Hi.
  - assert (Hc' : only_caller sel c tr).
    { intros i r Hin. apply Hc. apply in_or_app. now left. }
    specialize (IH Hc'). destruct Hs as [s l1 l2 r|s l1 c1 l2 e c' s' He]; simpl in *.
    + intros i c0 Hi Hin. destruct (Nat.eq_dec i (length l1)) as [->|Hne].
      * rewrite nth_error_here in Hi. injection Hi as <-.
        apply (Hc (length l1) r); [apply in_or_app; right; now left|].
        now rewrite <- Hcall.
      * rewrite (nth_error_elsewhere l1 l2 _ None Hne) in Hi. now apply (IH i c0).
    + intros i c0 Hi Hin. destruct (Nat.eq_dec i (length l1)) as [->|Hne].
      * rewrite nth_error_here in Hi. injection Hi as Hi. subst c'.
        apply (IH (length l1) c1); [apply nth_error_here|].
        now rewrite <- (Hexec _ _ _ _ _ He).
      * rewrite (nth_error_elsewhere l1 l2 _ (Some c1) Hne) in Hi. now apply (IH i c0).
Qed.

Lemma confined_alone inside c (l1 l2 : pool) c1 :
  confined inside c (l1 ++ Some c1 :: l2) -> inside c1 = true ->
  Forall (outside inside) l1 /\ Forall (outside inside) l2.
Proof.
  intros Hc Hin.
  assert (Hlen : length l1 = c) by (apply (Hc _ c1); [apply nth_error_here | exact Hin]).
  split; apply Forall_forall; intros [c0|] Ht; simpl; trivial;
    destruct (inside c0) eqn:E; trivial; exfalso;
    apply In_nth_error in Ht; destruct Ht as [j Hj].
  - assert (j < length l1) by (apply nth_error_Some; congruence).
    enough (j = c) by lia. apply (Hc j c0); [|exact E].
    now rewrite nth_error_app1.
  - enough (length l1 + S j = c) by lia. apply (Hc _ c0); [|exact E].
    rewrite nth_error_app2 by lia.
    replace (length l1 + S j - length l1) with (S j) by lia. exact Hj.
Qed.

Lemma flat_map_outside {A : Type} inside (f : option ctl -> list A) (p : pool) :
  (forall t, outside inside t -> f t = []) ->
  Forall (outside inside) p -> flat_map f p = [].
Proof.
  intros Hf Hp. induction Hp as [|t p Ht _ IH]; simpl; [reflexivity|].
  now rewrite (Hf _ Ht), IH.
Qed.

Lemma flat_map_quiescent {A : Type} (f : option ctl -> list A) (p : pool) :
  f None = [] -> quiescent p -> flat_map f p = [].
Proof.
  intros Hf Hq. induction Hq as [|t p Ht _ IH]; simpl; [reflexivity|].
  subst t. now rewrite Hf, IH.
Qed.

Lemma returned_app tr1 tr2 : returned (tr1 ++ tr2) = returned tr1 ++ returned tr2.
Proof. apply events_where_app. Qed.

Lemma push_calls_app tr1 tr2 : push_calls (tr1 ++ tr2) = push_calls tr1 ++ push_calls tr2.
Proof. apply events_where_app. Qed.

Lemma push_calls_execs i (es : list (event T)) :
  push_calls (map (fun e => (i, LExec e)) es) = [].
Proof. induction es as [|e es IH]; simpl; auto. Qed.

Lemma returned_execs i (es : list (event T)) :
  returned (map (fun e => (i, LExec e)) es)
  = flat_map (fun e => match e with EvReturn m => [m] | _ => [] end) es.
Proof.
  induction es as [|e es IH]; simpl; auto.
  unfold returned in *. simpl. now rewrite IH.
Qed.

Lemma only_callerb_sound sel c tr :
  only_callerb sel c tr = true -> only_caller sel c tr.
Proof.
  unfold only_callerb. rewrite forallb_forall. intros H i r Hin Hr.
  specialize (H _ Hin). simpl in H. rewrite Hr in H. simpl in H.
  now apply Nat.eqb_eq.
Qed.

(** A call run without interruption is one of the executions of the pool. *)
Lemma complete_steps fuel : forall c s es s' (l1 l2 : pool),
  complete fuel c s = Some (Done (es, s')) ->
  steps (s, l1 ++ Some c :: l2) (map (fun e => (length l1, LExec e)) es)
        (s', l1 ++ None :: l2).
Proof.
  induction fuel as [|fuel IH]; intros c s es s' l1 l2; simpl; [discriminate|].
  destruct (exec c s) as [[[e [c1|]] s1]| |] eqn:E; try discriminate.
  - destruct (complete fuel c1 s1) as [[[es1 s2]| |]|] eqn:R; try discriminate.
    intros H. injection H as <- <-. simpl.
    eapply steps_step; [apply step_exec; exact E | now apply IH].
  - intros H. injection H as <- <-. simpl.
    eapply steps_step; [apply step_exec; exact E | apply steps_refl].
Qed.

Lemma steps_trans c0 tr1 c1 tr2 c2 :
  steps c0 tr1 c1 -> steps c1 tr2 c2 -> steps c0 (tr1 ++ tr2) c2.
Proof.
  intros H1 H2. induction H2 as [|tr c l c' _ IH Hs].
  - now rewrite app_nil_r.
  - rewrite app_assoc. eapply steps_snoc; eassumption.
Qed.
(** More projections. *)
(** What left the storage was removed by a [pop] or dropped by a [push]. *)
Lemma removed_subseq_gone tr : subseq (removed tr) (gone tr).
Proof.
  induction tr as [|[i [r|e]] tr IH]; simpl; [constructor | exact IH |].
  destruct e; simpl; trivial; [apply subseq_take | apply subseq_skip]; exact IH.
Qed.

Lemma gone_removed_dropped tr : Permutation (gone tr) (removed tr ++ dropped tr).
Proof.
  induction tr as [|[i [r|e]] tr IH]; simpl; [constructor | exact IH |].
  destruct e; simpl; trivial.
  - now constructor.
  - rewrite IH. apply Permutation_middle.
Qed.

Lemma total_zero f p : (forall t, In t p -> f t = 0) -> total f p = 0.
Proof.
  induction p as [|t p IH]; intros H; [reflexivity|].
  rewrite total_cons, (H t) by (now left).
  apply IH. intros t0 Ht0. apply H. now right.
Qed.

(** Some thread can run, or none can. *)
Lemma runnable_or_stuck (s : shared) p :
  (exists c, In (Some c) p /\ runnable exec s c = true) \/
  (forall c, In (Some c) p -> runnable exec s c = false).
Proof.
  induction p as [|t p [(c & Hin & Hr)|IH]].
  - right. intros c [].
  - left. exists c. simpl. auto.
  - destruct t as [c|].
    + destruct (runnable exec s c) eqn:E.
      * left. exists c. simpl. auto.
      * right. intros c0 [Hc|Hc]; [congruence | auto].
    + right. intros c0 [Hc|Hc]; [discriminate | auto].
Qed.

End PoolFacts.
End PoolFacts.

(** ** MsgQueue *)

Module MsgQueueFacts.
Import MsgQueue.
Section MsgQueueFacts.
Variable T : Type.

Local Abbreviation t := (MsgQueue.t T).
Local Abbreviation ctl := (MsgQueue.ctl T).
Local Abbreviation config := (MsgQueue.config T).
Local Abbreviation trace := (MsgQueue.trace T).
Local Abbreviation MsgQueue := (MsgQueue.MsgQueue (T := T)).
Local Abbreviation init := (MsgQueue.init (T := T)).
Local Abbreviation reachable := (MsgQueue.reachable (T := T)).
Local Abbreviation run := (MsgQueue.run (T := T)).
Local Abbreviation call := (MsgQueue.call (T := T)).
Local Abbreviation exec := (MsgQueue.exec (T := T)).
Local Abbreviation holding := (MsgQueue.holding (T := T)).
Local Abbreviation slot_taken := (MsgQueue.slot_taken (T := T)).
Local Abbreviation unsignalled := (MsgQueue.unsignalled (T := T)).
Local Abbreviation claimed := (MsgQueue.claimed (T := T)).
Local Abbreviation unreleased := (MsgQueue.unreleased (T := T)).
Local Abbreviation pending := (MsgQueue.pending (T := T)).
Local Abbreviation in_hand := (MsgQueue.in_hand (T := T)).
Local Abbreviation front_kept := (MsgQueue.front_kept (T := T)).
Local Abbreviation in_pop := (MsgQueue.in_pop (T := T)).
Local Abbreviation in_push := (MsgQueue.in_push (T := T)).
Local Abbreviation is_pop := (MsgQueue.is_pop (T := T)).
Local Abbreviation is_push := (MsgQueue.is_push (T := T)).
Local Abbreviation push := (MsgQueue.push (T := T)).
Local Abbreviation pop := (MsgQueue.pop (T := T)).
Local Abbreviation waiting := (MsgQueue.waiting (T := T)).
Local Abbreviation popping := (MsgQueue.popping (T := T)).
Local Abbreviation remaining := (MsgQueue.remaining (T := T)).

Implicit Types (s : t) (p : Pool.pool (ctl := ctl)) (tr : trace)
  (msg : T) (r : request T).

(** ** The constructor *)

Lemma MsgQueue_fields _nmax :
  MsgQueue _nmax = mk (Z.max 1 _nmax) [] 1 0 (Z.to_nat (Z.max 1 _nmax)).
Proof.
  unfold MsgQueue. rewrite for_lt_iter, std_max_spec. simpl.
  set (k := Z.to_nat (Z.max 1 _nmax)).
  assert (H : forall j s, Nat.iter j (fun s => set_empty (Semaphore.increment (empty s)) s) s
                          = set_empty (j + empty s) s).
  { induction j as [|j IH]; intros s; simpl.
    - now destruct s.
    - rewrite IH. now destruct s. }
  rewrite H. unfold set_empty, set_mutex, Semaphore.increment, Semaphore.init; simpl.
  now rewrite Nat.add_0_r.
Qed.

(** ** Running the statements of one call *)

Ltac run_exec He :=
  cbv beta iota delta [MsgQueue.exec bind ret empty_decrement empty_increment full_decrement
    full_increment lock unlock Lock Lock_end sem_decrement sem_increment
    queue_push queue_front queue_pop Semaphore.decrement Semaphore.increment
    StdQueue.front StdQueue.pop StdQueue.push hd_error
    set_queue set_mutex set_full set_empty nmax queue mutex full empty] in He;
  repeat match type of He with
         | context [match ?x with _ => _ end] => is_var x; destruct x
         end;
  try discriminate He;
  try (injection He as <- <- <-).

Ltac totals :=
  repeat rewrite PoolFacts.total_app in *; repeat rewrite PoolFacts.total_cons in *;
  simpl MsgQueue.holding in *; simpl MsgQueue.slot_taken in *; simpl MsgQueue.unsignalled in *;
  simpl MsgQueue.claimed in *; simpl MsgQueue.unreleased in *.

(** ** The accounting holds in every reachable configuration *)

Lemma counting_init _nmax k : counting _nmax (init _nmax k).
Proof.
  unfold init, counting. rewrite MsgQueue_fields. simpl.
  rewrite !PoolFacts.total_idle by reflexivity. repeat split; lia.
Qed.

Lemma counting_step _nmax cfg l cfg' :
  counting _nmax cfg -> Pool.step call exec cfg l cfg' -> counting _nmax cfg'.
Proof.
  intros Hc Hs. destruct Hs as [s l1 l2 r|s l1 c l2 e c' s' He]; unfold counting in *.
  - destruct r; simpl call; totals; exact Hc.
  - destruct c; destruct s as [nm q mx fl em]; run_exec He; simpl in *; totals;
      rewrite ?length_app in *; simpl length in *;
      repeat split; try lia.
Qed.

Lemma counting_reachable _nmax k tr cfg :
  reachable _nmax k tr cfg -> counting _nmax cfg.
Proof.
  unfold reachable, steps. induction 1 as [|tr cfg l cfg' _ IH Hs].
  - apply counting_init.
  - eapply counting_step; eassumption.
Qed.

(** ** Mutual exclusion keeps the front in place *)

Lemma holding_free s (p : Pool.pool (ctl := ctl)) :
  Pool.total holding p = 0 -> Forall (front_kept s) p.
Proof.
  induction p as [|t p IH]; intros H; [constructor|].
  rewrite PoolFacts.total_cons in H. constructor; [|apply IH; lia].
  destruct t as [[]|]; simpl in *; trivial; lia.
Qed.

Lemma front_kept_queue s s' t :
  (forall x, StdQueue.front (queue s) = Some x -> StdQueue.front (queue s') = Some x) ->
  front_kept s t -> front_kept s' t.
Proof. intros H. destruct t as [[]|]; simpl; auto. Qed.

Lemma front_kept_step _nmax s p l s' p' :
  counting _nmax (s, p) -> Forall (front_kept s) p ->
  Pool.step call exec (s, p) l (s', p') -> Forall (front_kept s') p'.
Proof.
  intros Hc Hk Hs. inversion Hs as [s0 l1 l2 r|s0 l1 c l2 e c' s1 He]; subst; clear Hs.
  - apply Forall_app in Hk. destruct Hk as [H1 H2]. inversion H2; subst.
    apply Forall_app. split; [assumption|]. constructor; [|assumption].
    now destruct r.
  - apply Forall_app in Hk. destruct Hk as [H1 H2].
    inversion H2 as [|? ? Hc0 H2']; subst. unfold counting in Hc.
    destruct c; destruct s as [nm q mx fl em]; run_exec He; totals;
      apply Forall_app; split; try constructor; simpl; trivial;
      try (eapply Forall_impl; [|eassumption]; intros t0;
           apply front_kept_queue; simpl; intros x0 Hx0;
           solve [exact Hx0 | now destruct q]);
      apply holding_free; lia.
Qed.

Lemma front_kept_reachable _nmax k tr s p :
  reachable _nmax k tr (s, p) -> Forall (front_kept s) p.
Proof.
  unfold reachable, steps. intros H.
  remember (s, p) as cfg eqn:E. revert s p E.
  induction H as [|tr cfg l cfg' H IH Hs]; intros s p E.
  - injection E as <- <-. apply Forall_forall. intros t Ht.
    apply repeat_spec in Ht. now subst t.
  - subst cfg'. destruct cfg as [s0 p0].
    eapply front_kept_step; [eapply counting_reachable; exact H | now apply IH | exact Hs].
Qed.

(** ** What went in, what came out *)

Ltac snoc_trace :=
  unfold Pool.stored, Pool.removed, Pool.returned, Pool.push_calls in *;
  rewrite ?PoolFacts.events_where_app; simpl Pool.events_where;
  rewrite ?flat_map_app in *; simpl flat_map in *;
  rewrite ?app_nil_r in *.

Ltac reach_induction H s p :=
  unfold reachable, steps in H;
  let cfg := fresh "cfg" in
  let E := fresh "E" in
  remember (s, p) as cfg eqn:E; revert s p E;
  induction H as [|tr cfg l cfg' H IH Hs]; intros s p E;
  [ injection E as <- <-
  | subst cfg'; destruct cfg as [s0 p0]; specialize (IH s0 p0 eq_refl) ].

(** The storage holds, in order, what was stored and not removed yet. *)
Lemma stored_removed _nmax k tr s p :
  reachable _nmax k tr (s, p) ->
  Pool.stored tr = Pool.removed tr ++ queue s.
Proof.
  intros H. reach_induction H s p.
  - now rewrite MsgQueue_fields.
  - inversion Hs as [s1 l1 l2 r|s1 l1 c l2 e c' s2 He]; subst; clear Hs.
    + snoc_trace. exact IH.
    + destruct c; destruct s0 as [nm q mx fl em]; run_exec He; snoc_trace;
        simpl in *; rewrite ?IH; trivial.
      * now rewrite app_assoc.
      * now rewrite <- app_assoc.
Qed.

(** Every message handed to [push] is stored or still on its way in. *)
Lemma calls_stored _nmax k tr s p :
  reachable _nmax k tr (s, p) ->
  Permutation (Pool.push_calls tr) (Pool.stored tr ++ flat_map pending p).
Proof.
  intros H. reach_induction H s p.
  - simpl. rewrite PoolFacts.flat_map_quiescent; auto using PoolFacts.quiescent_idle.
  - inversion Hs as [s1 l1 l2 r|s1 l1 c l2 e c' s2 He]; subst; clear Hs.
    + destruct r as [m|]; snoc_trace; [|exact IH].
      rewrite IH. rewrite <- !app_assoc. do 2 apply Permutation_app_head.
      symmetry. apply Permutation_cons_append.
    + destruct c; destruct s0 as [nm q mx fl em]; run_exec He; snoc_trace;
        simpl in *; trivial.
      rewrite IH. rewrite <- !app_assoc. apply Permutation_app_head.
      simpl. now rewrite <- Permutation_middle.
Qed.

(** Every element removed by a [pop] is returned or still in its hands. *)
Lemma removed_returned _nmax k tr s p :
  reachable _nmax k tr (s, p) ->
  Permutation (Pool.removed tr) (Pool.returned tr ++ flat_map in_hand p).
Proof.
  intros H. reach_induction H s p.
  - simpl. rewrite PoolFacts.flat_map_quiescent; auto using PoolFacts.quiescent_idle.
  - assert (Hk : Forall (front_kept s0) p0) by (eapply front_kept_reachable; exact H).
    inversion Hs as [s1 l1 l2 r|s1 l1 c l2 e c' s2 He]; subst; clear Hs.
    + destruct r as [m|]; snoc_trace; exact IH.
    + apply Forall_app in Hk. destruct Hk as [_ Hk].
      inversion Hk as [|? ? Hc0 _]; subst.
      destruct c; destruct s0 as [nm q mx fl em]; run_exec He; snoc_trace;
        simpl in *; trivial.
      * injection Hc0 as ->. rewrite IH. rewrite <- !app_assoc.
        do 2 apply Permutation_app_head.
        symmetry. apply Permutation_cons_append.
      * rewrite IH. rewrite <- !app_assoc. apply Permutation_app_head.
        simpl. now rewrite <- Permutation_middle.
Qed.

(** With a single consumer the elements are returned in the order removed. *)

Lemma in_pop_call r : in_pop (call r) = is_pop r.
Proof. now destruct r. Qed.

Lemma in_push_call r : in_push (call r) = is_push r.
Proof. now destruct r. Qed.

Lemma in_push_exec c0 s e c1 s' :
  exec c0 s = Done ((e, Some c1), s') -> in_push c1 = in_push c0.
Proof.
  intros He. destruct c0; destruct s as [nm q mx fl em]; run_exec He;
    try reflexivity; discriminate.
Qed.

Lemma in_pop_exec c0 s e c1 s' :
  exec c0 s = Done ((e, Some c1), s') -> in_pop c1 = in_pop c0.
Proof. intros He. unfold in_pop. now rewrite (in_push_exec _ _ He). Qed.

Lemma only_caller_prefix sel c (tr : trace) l :
  Pool.only_caller sel c (tr ++ [l]) -> Pool.only_caller sel c tr.
Proof. intros H i r Hi. apply H. apply in_or_app. now left. Qed.

Lemma in_hand_outside (p : Pool.pool) :
  Forall (Pool.outside in_pop) p -> flat_map in_hand p = [].
Proof.
  apply PoolFacts.flat_map_outside. intros [[]|]; simpl; trivial; discriminate.
Qed.

Lemma pending_outside (p : Pool.pool) :
  Forall (Pool.outside in_push) p -> flat_map pending p = [].
Proof.
  apply PoolFacts.flat_map_outside. intros [[]|]; simpl; trivial; discriminate.
Qed.

Lemma removed_returned_seq _nmax k tr s p c :
  reachable _nmax k tr (s, p) -> Pool.only_caller is_pop c tr ->
  Pool.removed tr = Pool.returned tr ++ flat_map in_hand p.
Proof.
  intros H Hc. revert Hc. reach_induction H s p; intros Hc.
  - simpl. rewrite PoolFacts.flat_map_quiescent; auto using PoolFacts.quiescent_idle.
  - assert (Hk : Forall (front_kept s0) p0) by (eapply front_kept_reachable; exact H).
    apply only_caller_prefix in Hc. specialize (IH Hc).
    assert (Hconf : Pool.confined in_pop c (snd (s0, p0))).
    { eapply PoolFacts.only_caller_confined;
        [apply in_pop_call | apply in_pop_exec | exact H | exact Hc]. }
    simpl in Hconf.
    inversion Hs as [s1 l1 l2 r|s1 l1 c0 l2 e c' s2 He]; subst; clear Hs.
    + destruct r as [m|]; snoc_trace; exact IH.
    + apply Forall_app in Hk. destruct Hk as [_ Hk].
      inversion Hk as [|? ? Hc0 _]; subst.
      destruct c0; destruct s0 as [nm q mx fl em]; run_exec He; snoc_trace;
        simpl in *; trivial;
        destruct (PoolFacts.confined_alone _ _ _ Hconf eq_refl) as [A1 A2];
        rewrite (in_hand_outside A1), (in_hand_outside A2) in *;
        simpl in *; rewrite ?app_nil_r in *.
      * injection Hc0 as ->. now rewrite IH.
      * exact IH.
Qed.

(** With a single producer the messages are stored in the order of the calls. *)
Lemma calls_stored_seq _nmax k tr s p c :
  reachable _nmax k tr (s, p) -> Pool.only_caller is_push c tr ->
  Pool.push_calls tr = Pool.stored tr ++ flat_map pending p.
Proof.
  intros H Hc. revert Hc. reach_induction H s p; intros Hc.
  - simpl. rewrite PoolFacts.flat_map_quiescent; auto using PoolFacts.quiescent_idle.
  - pose proof Hc as Hlast.
    apply only_caller_prefix in Hc. specialize (IH Hc).
    assert (Hconf : Pool.confined in_push c (snd (s0, p0))).
    { eapply PoolFacts.only_caller_confined;
        [apply in_push_call | apply in_push_exec | exact H | exact Hc]. }
    simpl in Hconf.
    inversion Hs as [s1 l1 l2 r|s1 l1 c0 l2 e c' s2 He]; subst; clear Hs.
    + destruct r as [m|]; snoc_trace; [|exact IH].
      assert (Hlen : length l1 = c).
      { apply (Hlast _ (ReqPush m)); [apply in_or_app; right; now left | reflexivity]. }
      assert (Hconf' : Pool.confined in_push c (l1 ++ Some (Push_empty_dec m) :: l2)).
      { intros i c1 Hi Hin. destruct (Nat.eq_dec i (length l1)) as [->|Hne]; [exact Hlen|].
        rewrite (PoolFacts.nth_error_elsewhere l1 l2 _ None Hne) in Hi. now apply (Hconf i c1). }
      destruct (PoolFacts.confined_alone _ _ _ Hconf' eq_refl) as [A1 A2].
      rewrite (pending_outside A1), (pending_outside A2) in *.
      simpl in *. rewrite ?app_nil_r in *. now rewrite IH.
    + destruct c0; destruct s0 as [nm q mx fl em]; run_exec He; snoc_trace;
        simpl in *; trivial.
      destruct (PoolFacts.confined_alone _ _ _ Hconf eq_refl) as [A1 A2].
      rewrite (pending_outside A1), (pending_outside A2) in *.
      simpl in *. rewrite ?app_nil_r in *. exact IH.
Qed.

(** ** One call run alone is the method *)

Lemma push_complete msg s :
  Pool.complete exec 5 (call (ReqPush msg)) s =
  Some match push msg s with
       | Done (_, s') => Done (push_events msg, s')
       | Blocks w => Blocks w
       | Undefined => Undefined
       end.
Proof. destruct s as [nm q mx fl [|em]]; [reflexivity|]. now destruct mx. Qed.

Lemma pop_complete s :
  Pool.complete exec 7 (call ReqPop) s =
  Some match pop s with
       | Done (x, s') => Done (pop_events x, s')
       | Blocks w => Blocks w
       | Undefined => Undefined
       end.
Proof.
  destruct s as [nm q mx [|fl] em]; [reflexivity|].
  destruct mx; [reflexivity|]. now destruct q.
Qed.

(** Requests served one after the other by a single thread are an
    execution of the pool with that one thread. *)
Lemma serve_all_steps rs : forall s outs s',
  serve_all push pop rs s = Done (outs, s') ->
  exists tr : trace,
    steps (s, [None]) tr (s', [None]) /\
    Pool.returned tr = outs /\ Pool.push_calls tr = pushes rs /\
    (forall i l, In (i, l) tr -> i = 0).
Proof.
  induction rs as [|r rs IH]; intros s outs s' H.
  - injection H as <- <-. exists []. repeat split; [apply Pool.steps_refl | now intros].
  - simpl in H. unfold bind at 1 in H.
    destruct (serve push pop r s) as [[xs s1]| |] eqn:E1; try discriminate.
    unfold bind at 1 in H.
    destruct (serve_all push pop rs s1) as [[ys s2]| |] eqn:E2; try discriminate.
    injection H as <- <-.
    destruct (IH _ _ _ E2) as (tr2 & H2 & R2 & P2 & O2).
    assert (H1 : exists fuel es, Pool.complete exec fuel (call r) s = Some (Done (es, s1)) /\
              flat_map (fun e => match e with EvReturn m => [m] | _ => [] end) es = xs).
    { destruct r as [m|]; simpl in E1; unfold bind in E1.
      - pose proof (push_complete m s) as Hp.
        destruct (push m s) as [[u s1']| |]; try discriminate.
        injection E1 as <- <-. exists 5, (push_events m). now split.
      - pose proof (pop_complete s) as Hp.
        destruct (pop s) as [[x s1']| |]; try discriminate.
        injection E1 as <- <-. exists 7, (pop_events x). now split. }
    destruct H1 as (fuel & es & Hc & Hx).
    exists ((0, Pool.LCall r) :: map (fun e => (0, Pool.LExec e)) es ++ tr2).
    repeat split.
    + eapply PoolFacts.steps_step; [exact (Pool.step_call call exec s [] [] r)|].
      eapply PoolFacts.steps_trans; [|exact H2].
      exact (PoolFacts.complete_steps call exec fuel _ _ [] [] Hc).
    + change ((0, Pool.LCall r) :: map (fun e => (0, Pool.LExec e)) es ++ tr2)
        with ([(0, Pool.LCall r)] ++ map (fun e => (0, Pool.LExec e)) es ++ tr2).
      rewrite !PoolFacts.returned_app, PoolFacts.returned_execs, Hx, R2. reflexivity.
    + change ((0, Pool.LCall r) :: map (fun e => (0, Pool.LExec e)) es ++ tr2)
        with ([(0, Pool.LCall r)] ++ map (fun e => (0, Pool.LExec e)) es ++ tr2).
      rewrite !PoolFacts.push_calls_app, PoolFacts.push_calls_execs, P2. now destruct r.
    + intros i l [Hi|Hi]; [congruence|].
      apply in_app_or in Hi. destruct Hi as [Hi|Hi]; [|now apply (O2 i l)].
      apply in_map_iff in Hi. destruct Hi as (e0 & He0 & _). congruence.
Qed.

(** ** Consequences of the accounting *)

Lemma quiescent_counts _nmax k tr s p :
  reachable _nmax k tr (s, p) -> Pool.quiescent p ->
  nmax s = Z.max 1 _nmax /\ mutex s = 1 /\
  Z.of_nat (full s + empty s) = nmax s /\ length (queue s) = full s.
Proof.
  intros H Hq. apply counting_reachable in H. unfold counting in H.
  rewrite !PoolFacts.total_quiescent in H by (reflexivity || assumption). lia.
Qed.

Lemma occupancy _nmax k tr s p :
  reachable _nmax k tr (s, p) ->
  nmax s = Z.max 1 _nmax /\
  (0 <= Z.of_nat (length (queue s)) <= nmax s)%Z /\ full s <= length (queue s).
Proof. intros H. apply counting_reachable in H. unfold counting in H. lia. Qed.

(** No statement of a reachable thread reads or pops an empty storage. *)
Lemma exec_defined _nmax k tr s p c :
  reachable _nmax k tr (s, p) -> In (Some c) p -> exec c s <> Undefined.
Proof.
  intros H Hin. apply counting_reachable in H. unfold counting in H.
  apply in_split in Hin. destruct Hin as (l1 & l2 & ->).
  destruct c; destruct s as [nm q mx fl em]; simpl in H; totals;
    cbv beta iota delta [MsgQueue.exec bind ret empty_decrement empty_increment full_decrement
      full_increment lock unlock Lock Lock_end sem_decrement sem_increment
      queue_push queue_front queue_pop Semaphore.decrement Semaphore.increment
      StdQueue.front StdQueue.pop StdQueue.push hd_error
      set_queue set_mutex set_full set_empty nmax queue mutex full empty];
    try (destruct em; discriminate); try (destruct mx; discriminate);
    try (destruct fl; discriminate); try discriminate;
    destruct q; try discriminate; simpl in H; lia.
Qed.

Lemma front_nonempty _nmax k tr s p c :
  reachable _nmax k tr (s, p) -> In (Some c) p -> accesses_front c = true ->
  queue s <> [].
Proof.
  intros H Hin Ha. apply counting_reachable in H. unfold counting in H.
  apply in_split in Hin. destruct Hin as (l1 & l2 & ->).
  destruct c; try discriminate; totals; intros E; rewrite E in H; simpl in H; lia.
Qed.

(** A thread is counted in [claimed] only from its own [full.decrement()]. *)
Lemma claimed_by_decrement c s e c' s' :
  exec c s = Done ((e, c'), s') ->
  claimed (Some c) = 0 -> claimed c' = 1 -> e = EvDec Full.
Proof.
  intros He. destruct c; destruct s as [nm q mx fl em]; run_exec He; simpl;
    intros; trivial; discriminate.
Qed.

(** Permits taken and released along a trace. *)
Lemma permits_trace _nmax k tr s p :
  reachable _nmax k tr (s, p) ->
  Z.of_nat (empty s + Pool.occurrences (is_dec Empty) tr)
  = (Z.max 1 _nmax + Z.of_nat (Pool.occurrences (is_inc Empty) tr))%Z /\
  full s + Pool.occurrences (is_dec Full) tr = Pool.occurrences (is_inc Full) tr.
Proof.
  intros H. reach_induction H s p.
  - rewrite MsgQueue_fields. unfold Pool.occurrences. cbn [empty full filter length]. lia.
  - rewrite !PoolFacts.occurrences_app.
    inversion Hs as [s1 l1 l2 r|s1 l1 c l2 e c' s2 He]; subst; clear Hs.
    + simpl. unfold Pool.occurrences at 2 4 6 8. simpl. lia.
    + destruct c; destruct s0 as [nm q mx fl em]; run_exec He;
        unfold Pool.occurrences at 2 4 6 8; simpl in *; lia.
Qed.

(** ** Calls on a queue nobody else is using *)

Lemma push_done msg s e m :
  empty s = S e -> mutex s = S m ->
  push msg s = Done (tt, mk (nmax s) (queue s ++ [msg]) (mutex s) (S (full s)) e).
Proof. destruct s as [nm q mx fl em]; simpl. now intros -> ->. Qed.

Lemma pop_done s f m x q :
  full s = S f -> mutex s = S m -> queue s = x :: q ->
  pop s = Done (x, mk (nmax s) q (mutex s) f (S (empty s))).
Proof. destruct s as [nm q0 mx fl em]; simpl. now intros -> -> ->. Qed.

Lemma push_blocks msg s : empty s = 0 -> push msg s = Blocks Empty.
Proof. destruct s as [nm q mx fl em]; simpl. now intros ->. Qed.

Lemma pop_blocks s : full s = 0 -> pop s = Blocks Full.
Proof. destruct s as [nm q mx fl em]; simpl. now intros ->. Qed.

Lemma serve_pushes ms : forall s m,
  length ms <= empty s -> mutex s = S m ->
  serve_all push pop (map ReqPush ms) s =
  Done ([], mk (nmax s) (queue s ++ ms) (mutex s) (full s + length ms)
               (empty s - length ms)).
Proof.
  induction ms as [|x ms IH]; intros s m Hl Hm; simpl in *.
  - unfold ret. rewrite app_nil_r, Nat.add_0_r, Nat.sub_0_r. now destruct s.
  - destruct (empty s) as [|e] eqn:Ee; [lia|].
    unfold bind at 1. unfold bind at 1. rewrite (push_done x s Ee Hm). unfold ret at 1.
    unfold bind at 1. rewrite (IH _ m) by (simpl; lia || assumption). simpl.
    unfold ret. rewrite <- app_assoc, Nat.add_succ_r. reflexivity.
Qed.

(** Served one after the other, the calls return the pushed messages in
    the order pushed; the storage holds the rest. *)
Lemma fifo_served _nmax rs outs s :
  run rs (MsgQueue _nmax) = Done (outs, s) -> pushes rs = outs ++ queue s.
Proof.
  intros H. apply serve_all_steps in H. destruct H as (tr & H & <- & <- & Honly).
  assert (Hq : Pool.quiescent (ctl := ctl) [None]) by (repeat constructor).
  assert (Hpop : Pool.only_caller is_pop 0 tr) by (intros i r Hi _; exact (Honly _ _ Hi)).
  assert (Hpush : Pool.only_caller is_push 0 tr) by (intros i r Hi _; exact (Honly _ _ Hi)).
  rewrite (calls_stored_seq (k := 1) H Hpush), (stored_removed (k := 1) H),
    (removed_returned_seq (k := 1) H Hpop).
  rewrite !PoolFacts.flat_map_quiescent by (reflexivity || exact Hq).
  now rewrite !app_nil_r.
Qed.

(** The state after any sequence of calls served one after the other. *)
Lemma served _nmax rs outs s :
  serve_all push pop rs (MsgQueue _nmax) = Done (outs, s) ->
  nmax s = Z.max 1 _nmax /\ mutex s = 1 /\
  Z.of_nat (full s + empty s) = nmax s /\ length (queue s) = full s.
Proof.
  intros H. apply serve_all_steps in H. destruct H as (tr & H & _).
  apply (quiescent_counts (k := 1) (tr := tr) (p := [None])); [exact H|].
  repeat constructor.
Qed.

(** ** Permits and the lock, statement by statement *)

Lemma permit_outside_lock c s e c' s' :
  exec c s = Done ((e, c'), s') -> permit_event e = true ->
  holds_mutex c = false /\ holding c' = 0.
Proof.
  intros He. destruct c; destruct s as [nm q mx fl em]; run_exec He;
    simpl; intros; try discriminate; auto.
Qed.

Lemma blocks_outside_lock c s w :
  exec c s = Blocks w ->
  holds_mutex c = false /\
  match w with
  | Empty => empty s = 0 /\ exists msg, c = Push_empty_dec msg
  | Full => full s = 0 /\ c = Pop_full_dec
  | Mutex => mutex s = 0
  end.
Proof.
  intros He. destruct c; destruct s as [nm q mx fl em];
    cbv beta iota delta [MsgQueue.exec bind ret empty_decrement empty_increment full_decrement
      full_increment lock unlock Lock Lock_end sem_decrement sem_increment
      queue_push queue_front queue_pop Semaphore.decrement Semaphore.increment
      StdQueue.front StdQueue.pop StdQueue.push hd_error
      set_queue set_mutex set_full set_empty nmax queue mutex full empty] in He;
    repeat match type of He with
           | context [match ?x with _ => _ end] => is_var x; destruct x
           end;
    try discriminate He; injection He as <-; simpl; eauto.
Qed.

(** [holds_mutex] is the ownership of the lock: taken by the thread's
    [Lock lock(mutex)], given back at the end of its scope. *)
Lemma holding_exec c s e c' s' :
  exec c s = Done ((e, c'), s') ->
  holding c' = match e with
               | EvDec Mutex => 1
               | EvInc Mutex => 0
               | _ => holding (Some c)
               end.
Proof.
  intros He. destruct c; destruct s as [nm q mx fl em]; run_exec He; reflexivity.
Qed.

(** The first statement of [push] and of [pop] is the only gate. *)
Lemma push_gate msg s :
  ((exists res, exec (call (ReqPush msg)) s = Done res) <-> 0 < empty s) /\
  (exec (call (ReqPush msg)) s = Blocks Empty <-> empty s = 0).
Proof.
  destruct s as [nm q mx fl [|em]]; simpl; unfold bind, ret, empty_decrement, sem_decrement;
    simpl; repeat split; intros; try lia; try discriminate; eauto.
  destruct H; discriminate.
Qed.

Lemma pop_gate s :
  ((exists res, exec (call ReqPop) s = Done res) <-> 0 < full s) /\
  (exec (call ReqPop) s = Blocks Full <-> full s = 0).
Proof.
  destruct s as [nm q mx [|fl] em]; simpl; unfold bind, ret, full_decrement, sem_decrement;
    simpl; repeat split; intros; try lia; try discriminate; eauto.
  destruct H; discriminate.
Qed.
(** ** When no thread can run *)

Lemma stuck_waiting _nmax k tr s p :
  reachable _nmax k tr (s, p) ->
  (forall c, In (Some c) p -> Pool.runnable exec s c = false) ->
  Forall (waiting s) p.
Proof.
  intros H Hst. pose proof (counting_reachable H) as Hc. unfold counting in Hc.
  assert (Hblk : forall c, In (Some c) p -> exists w, exec c s = Blocks w).
  { intros c Hin. specialize (Hst c Hin). unfold Pool.runnable in Hst.
    destruct (exec c s) as [res|w|] eqn:E; [discriminate | eauto |].
    exfalso. revert E. eapply exec_defined; eassumption. }
  assert (Hfree : Pool.total holding p = 0).
  { apply PoolFacts.total_zero. intros [c|] Hin; [|reflexivity].
    destruct (Hblk c Hin) as [w E]. simpl.
    now rewrite (proj1 (blocks_outside_lock _ _ E)). }
  assert (Hgate : forall t, In t p ->
            t = None \/ (exists msg, t = Some (Push_empty_dec msg) /\ empty s = 0)
            \/ (t = Some Pop_full_dec /\ full s = 0)).
  { intros [c|] Hin; [|now left]. right. destruct (Hblk c Hin) as [w E].
    destruct (blocks_outside_lock _ _ E) as [_ Hw]. destruct w.
    - lia.
    - right. destruct Hw as [Hf ->]. now split.
    - left. destruct Hw as [He [msg ->]]. now exists msg. }
  assert (Z1 : Pool.total slot_taken p = 0).
  { apply PoolFacts.total_zero. intros t Ht.
    destruct (Hgate t Ht) as [->|[(msg & -> & _)|[-> _]]]; reflexivity. }
  assert (Z2 : Pool.total unsignalled p = 0).
  { apply PoolFacts.total_zero. intros t Ht.
    destruct (Hgate t Ht) as [->|[(msg & -> & _)|[-> _]]]; reflexivity. }
  assert (Z3 : Pool.total claimed p = 0).
  { apply PoolFacts.total_zero. intros t Ht.
    destruct (Hgate t Ht) as [->|[(msg & -> & _)|[-> _]]]; reflexivity. }
  assert (Z4 : Pool.total unreleased p = 0).
  { apply PoolFacts.total_zero. intros t Ht.
    destruct (Hgate t Ht) as [->|[(msg & -> & _)|[-> _]]]; reflexivity. }
  apply Forall_forall. intros t Ht.
  destruct (Hgate t Ht) as [->|[(msg & -> & He)|[-> Hf]]]; simpl; trivial.
  - split; [exact He | lia].
  - split; [exact Hf|]. apply length_zero_iff_nil. lia.
Qed.

Lemma progress _nmax k tr s p :
  reachable _nmax k tr (s, p) ->
  (exists c, In (Some c) p /\ Pool.runnable exec s c = true) \/ Forall (waiting s) p.
Proof.
  intros H. destruct (PoolFacts.runnable_or_stuck exec s p) as [Hr|Hs]; [now left|].
  right. eapply stuck_waiting; eassumption.
Qed.

(** A producer and a consumer never wait for each other. *)
Lemma waiting_one_side s p c1 c2 :
  (1 <= nmax s)%Z -> Forall (waiting s) p ->
  In (Some c1) p -> In (Some c2) p -> in_push c1 = true -> in_pop c2 = true -> False.
Proof.
  intros Hn Hw H1 H2 Hp1 Hp2. rewrite Forall_forall in Hw.
  pose proof (Hw _ H1) as W1. pose proof (Hw _ H2) as W2.
  destruct c1; try discriminate Hp1; simpl in W1; try contradiction.
  destruct c2; try discriminate Hp2; simpl in W2; try contradiction.
  destruct W1 as [_ Hfull]. destruct W2 as [_ Hempty].
  rewrite Hempty in Hfull. simpl in Hfull. lia.
Qed.

(** ** Calls that run to their end *)

(** Every call of [pop] has returned one value or is in progress. *)
Lemma pop_calls_returned _nmax k tr s p :
  reachable _nmax k tr (s, p) ->
  Pool.calls is_pop tr = length (Pool.returned tr) + Pool.total popping p.
Proof.
  intros H. reach_induction H s p.
  - simpl. now rewrite PoolFacts.total_idle.
  - rewrite PoolFacts.calls_app, PoolFacts.returned_app, length_app.
    inversion Hs as [s1 l1 l2 r|s1 l1 c l2 e c' s2 He]; subst; clear Hs;
      rewrite !PoolFacts.total_app, !PoolFacts.total_cons in *.
    + destruct r; unfold Pool.calls, Pool.occurrences in *; simpl in *; lia.
    + destruct c; destruct s0 as [nm q mx fl em]; run_exec He;
        unfold Pool.calls, Pool.occurrences in *; simpl in *; lia.
Qed.

(** Every statement run is one of the five of a [push] or of the seven of
    a [pop] that was called. *)
Lemma statements_left _nmax k tr s p :
  reachable _nmax k tr (s, p) ->
  Pool.occurrences (fun _ => true) tr + Pool.total remaining p
  = 5 * length (Pool.push_calls tr) + 7 * Pool.calls is_pop tr.
Proof.
  intros H. reach_induction H s p.
  - simpl. now rewrite PoolFacts.total_idle.
  - rewrite PoolFacts.calls_app, PoolFacts.push_calls_app, PoolFacts.occurrences_app,
      length_app.
    inversion Hs as [s1 l1 l2 r|s1 l1 c l2 e c' s2 He]; subst; clear Hs;
      rewrite !PoolFacts.total_app, !PoolFacts.total_cons in *.
    + destruct r; unfold Pool.calls, Pool.occurrences in *; simpl in *; lia.
    + destruct c; destruct s0 as [nm q mx fl em]; run_exec He;
        unfold Pool.calls, Pool.occurrences in *; simpl in *; lia.
Qed.

Lemma remaining_zero (p : Pool.pool (ctl := ctl)) :
  Pool.total remaining p = 0 -> Pool.quiescent p.
Proof.
  induction p as [|t p IH]; intros H; [constructor|].
  rewrite PoolFacts.total_cons in H. constructor; [|apply IH; lia].
  destruct t as [[]|]; simpl in H; trivial; lia.
Qed.

(** Threads that all wait are at the first statement of their calls. *)
Lemma waiting_counts s (p : Pool.pool (ctl := ctl)) :
  Forall (waiting s) p ->
  flat_map in_hand p = [] /\
  Pool.total remaining p
  = 5 * length (flat_map pending p) + 7 * Pool.total popping p /\
  (0 < length (flat_map pending p) -> Z.of_nat (length (queue s)) = nmax s) /\
  (0 < Pool.total popping p -> queue s = []).
Proof.
  induction 1 as [|t p Ht _ (IH1 & IH2 & IH3 & IH4)].
  - repeat split; simpl; trivial; intros Hpos; inversion Hpos.
  - rewrite !PoolFacts.total_cons.
    destruct t as [[]|]; simpl in Ht; try contradiction; simpl;
      rewrite ?IH1, ?IH2; (split; [reflexivity|]); (split; [lia|]);
      split; intros Hpos; try (apply Ht); auto; apply IH4; lia.
Qed.

(** While as many [pop] as [push] have been called, one of the threads
    inside a call can run its next statement. *)
Lemma balanced_progress _nmax k tr s p :
  reachable _nmax k tr (s, p) ->
  Pool.calls is_pop tr = length (Pool.push_calls tr) ->
  Pool.quiescent p \/ exists c, In (Some c) p /\ Pool.runnable exec s c = true.
Proof.
  intros H Hb. destruct (progress H) as [Hr|Hw]; [now right|]. left.
  apply remaining_zero.
  destruct (waiting_counts Hw) as (Hh & Hr & Hfull & Hempty).
  pose proof (pop_calls_returned H) as Hp.
  pose proof (Permutation_length (calls_stored H)) as Hc.
  pose proof (Permutation_length (removed_returned H)) as Hrr.
  destruct (occupancy H) as (Hn & _).
  rewrite (stored_removed H) in Hc. rewrite !length_app in *.
  rewrite Hh in Hrr. simpl in Hrr.
  destruct (Nat.eq_0_gt_0_cases (Pool.total popping p)) as [E|E].
  - destruct (Nat.eq_0_gt_0_cases (length (flat_map pending p))) as [E'|E']; [lia|].
    specialize (Hfull E'). lia.
  - rewrite (Hempty E) in *. simpl in *.
    destruct (Nat.eq_0_gt_0_cases (length (flat_map pending p))) as [E'|E']; [lia|].
    specialize (Hfull E'). lia.
Qed.

(** When no call is in progress and as many [pop] as [push] have been
    called, with a single consumer: what was returned is what was stored,
    in that order. *)
Lemma balanced_fifo _nmax k tr s p c :
  reachable _nmax k tr (s, p) ->
  Pool.only_caller is_pop c tr ->
  Pool.calls is_pop tr = length (Pool.push_calls tr) ->
  Pool.quiescent p ->
  Pool.returned tr = Pool.stored tr /\
  Permutation (Pool.returned tr) (Pool.push_calls tr) /\
  (forall c', Pool.only_caller is_push c' tr -> Pool.returned tr = Pool.push_calls tr).
Proof.
  intros H Hpop Hb Hq.
  pose proof (pop_calls_returned H) as Hp.
  pose proof (calls_stored H) as Hc.
  pose proof (stored_removed H) as Hs.
  pose proof (removed_returned_seq H Hpop) as Hr.
  rewrite PoolFacts.flat_map_quiescent in Hc, Hr by (reflexivity || exact Hq).
  rewrite PoolFacts.total_quiescent in Hp by (reflexivity || exact Hq).
  rewrite app_nil_r in Hc, Hr. rewrite Hr in Hs.
  pose proof (Permutation_length Hc) as Hl. rewrite Hs, length_app in Hl.
  assert (E : queue s = []) by (apply length_zero_iff_nil; lia).
  rewrite E, app_nil_r in Hs.
  split; [now symmetry|]. split; [now rewrite Hc, Hs|].
  intros c' Hpush. rewrite (calls_stored_seq H Hpush).
  rewrite PoolFacts.flat_map_quiescent by (reflexivity || exact Hq).
  now rewrite app_nil_r.
Qed.

(** As many [pop] as [push] called: the calls in progress run to their
    end, in as many steps as they have statements left. *)
Lemma balanced_completes _nmax k : forall n tr s p,
  Pool.total remaining p = n ->
  reachable _nmax k tr (s, p) ->
  Pool.calls is_pop tr = length (Pool.push_calls tr) ->
  exists tr' s' p',
    reachable _nmax k (tr ++ tr') (s', p') /\ Pool.quiescent p' /\
    length tr' = n /\
    Pool.push_calls (tr ++ tr') = Pool.push_calls tr /\
    Pool.calls is_pop (tr ++ tr') = Pool.calls is_pop tr /\
    (forall sel c, Pool.only_caller sel c tr -> Pool.only_caller sel c (tr ++ tr')).
Proof.
  induction n as [|n IH]; intros tr s p Hn H Hb.
  - exists [], s, p. rewrite app_nil_r.
    split; [exact H|]. split; [now apply remaining_zero|]. repeat split; trivial.
  - destruct (balanced_progress H Hb) as [Hq|(c & Hin & Hrun)].
    + rewrite PoolFacts.total_quiescent in Hn by (reflexivity || exact Hq).
      discriminate Hn.
    + apply in_split in Hin. destruct Hin as (l1 & l2 & ->).
      unfold Pool.runnable in Hrun.
      destruct (exec c s) as [[[e c'] s']| |] eqn:He; try discriminate Hrun.
      assert (H' : reachable _nmax k (tr ++ [(length l1, Pool.LExec e)])
                     (s', l1 ++ c' :: l2)).
      { eapply Pool.steps_snoc; [exact H|]. now apply Pool.step_exec. }
      assert (Hcalls : Pool.calls is_pop (tr ++ [(length l1, Pool.LExec e)])
                       = Pool.calls is_pop tr)
        by (rewrite PoolFacts.calls_app; unfold Pool.calls at 2; simpl; lia).
      assert (Hpush : Pool.push_calls (tr ++ [(length l1, Pool.LExec e)])
                      = Pool.push_calls tr)
        by (rewrite PoolFacts.push_calls_app; simpl; now rewrite app_nil_r).
      assert (Hn' : Pool.total remaining (l1 ++ c' :: l2) = n).
      { pose proof (statements_left H) as S1. pose proof (statements_left H') as S2.
        rewrite Hcalls, Hpush, PoolFacts.occurrences_app in S2.
        unfold Pool.occurrences at 2 in S2. simpl in S2. lia. }
      destruct (IH _ _ _ Hn' H') as (tr' & s'' & p'' & Hreach & Hq & Hlen & E1 & E2 & Honly).
      { now rewrite Hcalls, Hpush. }
      exists ((length l1, Pool.LExec e) :: tr'), s'', p''.
      replace (tr ++ (length l1, Pool.LExec e) :: tr')
        with ((tr ++ [(length l1, Pool.LExec e)]) ++ tr')
        by (now rewrite <- app_assoc).
      split; [exact Hreach|]. split; [exact Hq|]. split; [simpl; now rewrite Hlen|].
      split; [now rewrite E1|]. split; [now rewrite E2|].
      intros sel c0 Hc0. apply Honly. intros i r Hi Hsel.
      apply in_app_or in Hi. destruct Hi as [Hi|[Hi|[]]]; [eauto | discriminate Hi].
Qed.

(** ** The queue as a plain list *)

Lemma bounded_push_agree cap msg s q :
  represents cap s q ->
  agree (represents cap) (push msg s) (Abstract.bounded_push cap msg q).
Proof.
  intros (Hm & Hf & He & Hq). unfold Abstract.bounded_push, agree.
  destruct (empty s) as [|e] eqn:Ee.
  - rewrite (push_blocks msg s Ee).
    replace (length q <? cap) with false by (symmetry; apply Nat.ltb_ge; lia).
    reflexivity.
  - rewrite (push_done msg s Ee Hm).
    replace (length q <? cap) with true by (symmetry; apply Nat.ltb_lt; lia).
    split; [reflexivity|]. unfold represents. simpl.
    rewrite Hq, length_app. simpl. repeat split; lia.
Qed.

Lemma take_agree cap s q :
  represents cap s q -> agree (represents cap) (pop s) (Abstract.take q).
Proof.
  intros (Hm & Hf & He & Hq). unfold Abstract.take, agree.
  destruct q as [|x q].
  - now rewrite (pop_blocks s Hf).
  - rewrite (pop_done s Hf Hm Hq). split; [reflexivity|].
    unfold represents. simpl in *. repeat split; lia.
Qed.

Lemma fresh_represents _nmax :
  represents (Z.to_nat (Z.max 1 _nmax)) (MsgQueue _nmax) [].
Proof. rewrite MsgQueue_fields. unfold represents. simpl. repeat split. lia. Qed.


End MsgQueueFacts.
End MsgQueueFacts.

(** ** MsgQueueReplace *)

Module MsgQueueReplaceFacts.
Import MsgQueueReplace.
Section MsgQueueReplaceFacts.
Variable T : Type.

Local Abbreviation t := (MsgQueueReplace.t T).
Local Abbreviation ctl := (MsgQueueReplace.ctl T).
Local Abbreviation config := (MsgQueueReplace.config T).
Local Abbreviation trace := (MsgQueueReplace.trace T).
Local Abbreviation MsgQueueReplace := (MsgQueueReplace.MsgQueueReplace (T := T)).
Local Abbreviation init := (MsgQueueReplace.init (T := T)).
Local Abbreviation reachable := (MsgQueueReplace.reachable (T := T)).
Local Abbreviation run := (MsgQueueReplace.run (T := T)).
Local Abbreviation call := (MsgQueueReplace.call (T := T)).
Local Abbreviation exec := (MsgQueueReplace.exec (T := T)).
Local Abbreviation holding := (MsgQueueReplace.holding (T := T)).
Local Abbreviation claimed := (MsgQueueReplace.claimed (T := T)).
Local Abbreviation unsignalled := (MsgQueueReplace.unsignalled (T := T)).
Local Abbreviation replacing := (MsgQueueReplace.replacing (T := T)).
Local Abbreviation knows := (MsgQueueReplace.knows (T := T)).
Local Abbreviation in_pop := (MsgQueueReplace.in_pop (T := T)).
Local Abbreviation in_push := (MsgQueueReplace.in_push (T := T)).
Local Abbreviation push := (MsgQueueReplace.push (T := T)).
Local Abbreviation pop := (MsgQueueReplace.pop (T := T)).
Local Abbreviation waiting := (MsgQueueReplace.waiting (T := T)).
Local Abbreviation pending := (MsgQueueReplace.pending (T := T)).
Local Abbreviation in_hand := (MsgQueueReplace.in_hand (T := T)).
Local Abbreviation is_pop := (MsgQueueReplace.is_pop (T := T)).
Local Abbreviation is_push := (MsgQueueReplace.is_push (T := T)).

Implicit Types (s : t) (p : Pool.pool (ctl := ctl)) (tr : trace)
  (msg : T) (r : request T).

(** ** The constructor *)

Lemma MsgQueueReplace_fields _nmax :
  MsgQueueReplace _nmax = mk (Z.max 1 _nmax) [] 1 0.
Proof. unfold MsgQueueReplace. now rewrite std_max_spec. Qed.

(** ** Running the statements of one call *)

Ltac run_exec He :=
  cbv beta iota delta [MsgQueueReplace.exec bind ret full_decrement size_ge_nmax
    full_increment lock unlock Lock Lock_end sem_decrement sem_increment
    queue_push queue_front queue_pop Semaphore.decrement Semaphore.increment
    StdQueue.front StdQueue.pop StdQueue.push hd_error
    set_queue set_mutex set_full nmax queue mutex full] in He;
  repeat match type of He with
         | context [match ?x with _ => _ end] => is_var x; destruct x
         end;
  try discriminate He;
  try (injection He as <- <- <-).

Ltac totals :=
  repeat rewrite PoolFacts.total_app in *; repeat rewrite PoolFacts.total_cons in *;
  simpl MsgQueueReplace.holding in *; simpl MsgQueueReplace.claimed in *; simpl MsgQueueReplace.unsignalled in *;
  simpl MsgQueueReplace.replacing in *.

(** The test of [push], read in [Z]. *)
Lemma size_test nm (q : list T) :
  (1 <= nm <= INT_MAX)%Z ->
  (StdQueue.size q >=? size_t_of_int nm)%Z = (nm <=? Z.of_nat (length q))%Z.
Proof.
  intros H. rewrite size_t_of_int_id by lia. unfold StdQueue.size. apply Z.geb_leb.
Qed.

(** ** The accounting holds in every reachable configuration *)

Lemma replacing_le_holding (p : Pool.pool (ctl := ctl)) :
  Pool.total replacing p + Pool.total unsignalled p <= Pool.total holding p.
Proof.
  induction p as [|t p IH]; [reflexivity|]. rewrite !PoolFacts.total_cons.
  destruct t as [[]|]; simpl; lia.
Qed.

Lemma knows_free s (p : Pool.pool (ctl := ctl)) :
  Pool.total holding p = 0 -> Forall (knows s) p.
Proof.
  induction p as [|t p IH]; intros H; [constructor|].
  rewrite PoolFacts.total_cons in H. constructor; [|apply IH; lia].
  destruct t as [[]|]; simpl in *; trivial; lia.
Qed.

Lemma knows_same s s' t :
  queue s' = queue s -> nmax s' = nmax s -> knows s t -> knows s' t.
Proof. intros Hq Hn. destruct t as [[]|]; simpl; rewrite ?Hq, ?Hn; auto. Qed.

Lemma invariant_init _nmax k : invariant _nmax (init _nmax k).
Proof.
  unfold init, invariant, counting. rewrite MsgQueueReplace_fields. simpl.
  rewrite !PoolFacts.total_idle by reflexivity. repeat split; try lia.
  apply Forall_forall. intros t Ht. apply repeat_spec in Ht. now subst t.
Qed.

Lemma invariant_step _nmax cfg l cfg' :
  in_int _nmax ->
  invariant _nmax cfg -> Pool.step call exec cfg l cfg' -> invariant _nmax cfg'.
Proof.
  unfold in_int, INT_MIN. intros Hn [Hc Hk] Hs.
  destruct Hs as [s l1 l2 r|s l1 c l2 e c' s' He]; unfold invariant, counting in *;
    simpl fst in *; simpl snd in *.
  - split; [destruct r; simpl call; totals; exact Hc|].
    apply Forall_app in Hk. destruct Hk as [H1 H2]. inversion H2; subst.
    apply Forall_app. split; [assumption|]. constructor; [|assumption].
    now destruct r.
  - apply Forall_app in Hk. destruct Hk as [H1 H2].
    inversion H2 as [|? ? Hc0 H2']; subst.
    pose proof (replacing_le_holding l1) as R1.
    pose proof (replacing_le_holding l2) as R2.
    destruct Hc as (Hnm & Hmx & Heq & Hbd). pose proof INT_MAX_pos as Hmax.
    destruct c; destruct s as [nm q mx fl]; run_exec He; simpl in Hnm;
      try (rewrite size_test by lia;
           destruct (Z.leb_spec nm (Z.of_nat (length q))));
      totals; simpl in *;
      rewrite ?length_app in *; simpl length in *;
      (split; [repeat split; try lia|]);
      apply Forall_app; split; try constructor; simpl; trivial;
      try (eapply Forall_impl; [|eassumption]; intros t0;
           apply knows_same; reflexivity);
      try (apply knows_free; lia).
Qed.

Lemma invariant_reachable _nmax k tr cfg :
  in_int _nmax -> reachable _nmax k tr cfg -> invariant _nmax cfg.
Proof.
  intros Hn. unfold reachable, steps. induction 1 as [|tr cfg l cfg' _ IH Hs].
  - apply invariant_init.
  - eapply invariant_step; eassumption.
Qed.

(** ** Consequences of the accounting *)

(** By how much [full] and the number of stored elements differ. *)
Lemma replace_full_excess _nmax k tr s p :
  in_int _nmax -> reachable _nmax k tr (s, p) ->
  length (queue s) + Pool.total replacing p
  = full s + Pool.total claimed p + Pool.total unsignalled p /\
  Pool.total replacing p + Pool.total unsignalled p <= 1.
Proof.
  intros Hn H. destruct (invariant_reachable Hn H) as [(_ & Hm & He & _) _].
  split; [exact He|]. pose proof (replacing_le_holding p). lia.
Qed.

Lemma replace_quiescent_counts _nmax k tr s p :
  in_int _nmax -> reachable _nmax k tr (s, p) -> Pool.quiescent p ->
  nmax s = Z.max 1 _nmax /\ mutex s = 1 /\ length (queue s) = full s /\
  (0 <= Z.of_nat (length (queue s)) <= nmax s)%Z.
Proof.
  intros Hn H Hq. apply (invariant_reachable Hn) in H. destruct H as [H _].
  unfold counting in H.
  rewrite !PoolFacts.total_quiescent in H by (reflexivity || assumption). lia.
Qed.

Lemma replace_occupancy _nmax k tr s p :
  in_int _nmax -> reachable _nmax k tr (s, p) ->
  nmax s = Z.max 1 _nmax /\
  (0 <= Z.of_nat (length (queue s)) <= nmax s)%Z /\
  full s <= length (queue s) + Pool.total replacing p /\
  (mutex s = 1 -> Pool.total replacing p = 0).
Proof.
  intros Hn H. apply (invariant_reachable Hn) in H. destruct H as [H _].
  unfold counting in H. pose proof (replacing_le_holding p). lia.
Qed.

(** No statement of a reachable thread reads or pops an empty storage. *)
Lemma replace_exec_defined _nmax k tr s p c :
  in_int _nmax -> reachable _nmax k tr (s, p) -> In (Some c) p ->
  exec c s <> Undefined.
Proof.
  intros Hn H Hin. apply (invariant_reachable Hn) in H. destruct H as [H Hk].
  unfold counting in H. simpl in Hk.
  apply in_split in Hin. destruct Hin as (l1 & l2 & ->).
  apply Forall_app in Hk. destruct Hk as [_ Hk]. inversion Hk as [|? ? Hc0 _]; subst.
  pose proof (replacing_le_holding l1) as R1.
  pose proof (replacing_le_holding l2) as R2.
  destruct c; destruct s as [nm q mx fl]; simpl in H; totals;
    cbv beta iota delta [MsgQueueReplace.exec bind ret full_decrement size_ge_nmax
      full_increment lock unlock Lock Lock_end sem_decrement sem_increment
      queue_push queue_front queue_pop Semaphore.decrement Semaphore.increment
      StdQueue.front StdQueue.pop StdQueue.push hd_error
      set_queue set_mutex set_full nmax queue mutex full];
    try (destruct mx; discriminate); try (destruct fl; discriminate); try discriminate;
    destruct q; try discriminate; simpl in *; lia.
Qed.

Lemma replace_front_nonempty _nmax k tr s p c :
  in_int _nmax -> reachable _nmax k tr (s, p) -> In (Some c) p ->
  accesses_front c = true ->
  queue s <> [] /\ (in_pop c = true -> full s < length (queue s)).
Proof.
  intros Hn H Hin Ha. apply (invariant_reachable Hn) in H. destruct H as [H Hk].
  unfold counting in H. simpl in Hk.
  apply in_split in Hin. destruct Hin as (l1 & l2 & ->).
  apply Forall_app in Hk. destruct Hk as [_ Hk]. inversion Hk as [|? ? Hc0 _]; subst.
  pose proof (replacing_le_holding l1) as R1.
  pose proof (replacing_le_holding l2) as R2.
  destruct c; try discriminate; totals;
    (split; [intros E; assert (L : length (queue s) = 0) by (now rewrite E)
            | intros E; try discriminate E]);
    simpl in *; lia.
Qed.

(** The replacement branch runs only on a full storage. *)
Lemma replace_branch_full _nmax k tr s p msg :
  in_int _nmax -> reachable _nmax k tr (s, p) -> In (Some (Push_replace_pop msg)) p ->
  (1 <= nmax s <= Z.of_nat (length (queue s)))%Z.
Proof.
  intros Hn H Hin. apply (invariant_reachable Hn) in H. destruct H as [H Hk].
  unfold counting in H. simpl in Hk.
  rewrite Forall_forall in Hk. specialize (Hk _ Hin). simpl in Hk. lia.
Qed.

Lemma replace_claimed_by_decrement c s e c' s' :
  exec c s = Done ((e, c'), s') ->
  claimed (Some c) = 0 -> claimed c' = 1 -> e = EvDec Full.
Proof.
  intros He. destruct c; destruct s as [nm q mx fl]; run_exec He; simpl;
    intros; trivial; try discriminate.
  destruct (_ >=? _)%Z; discriminate.
Qed.

(** ** Calls on a queue nobody else is using *)

Lemma push_replaces msg s m :
  mutex s = S m -> (1 <= nmax s <= INT_MAX)%Z ->
  (nmax s <= Z.of_nat (length (queue s)))%Z ->
  push msg s = Done (tt, set_queue (tl (queue s) ++ [msg]) s).
Proof.
  destruct s as [nm q mx fl]; simpl. intros -> Hn Hq.
  unfold push, bind, lock, Lock, sem_decrement, size_ge_nmax; simpl.
  rewrite size_test by assumption.
  destruct (Z.leb_spec nm (Z.of_nat (length q))) as [_|]; [|lia].
  destruct q as [|x q]; [simpl in Hq; lia|]. reflexivity.
Qed.

Lemma push_appends msg s m :
  mutex s = S m -> (1 <= nmax s <= INT_MAX)%Z ->
  (Z.of_nat (length (queue s)) < nmax s)%Z ->
  push msg s = Done (tt, mk (nmax s) (queue s ++ [msg]) (mutex s) (S (full s))).
Proof.
  destruct s as [nm q mx fl]; simpl. intros -> Hn Hq.
  unfold push, bind, lock, Lock, sem_decrement, size_ge_nmax; simpl.
  rewrite size_test by assumption.
  destruct (Z.leb_spec nm (Z.of_nat (length q))) as [|_]; [lia|]. reflexivity.
Qed.

Lemma replace_pop_done s f m x q :
  full s = S f -> mutex s = S m -> queue s = x :: q ->
  pop s = Done (x, mk (nmax s) q (mutex s) f).
Proof. destruct s as [nm q0 mx fl]; simpl. now intros -> -> ->. Qed.

Lemma replace_pop_blocks s : full s = 0 -> pop s = Blocks Full.
Proof. destruct s as [nm q mx fl]; simpl. now intros ->. Qed.

(** ** One call run alone is the method *)

Lemma replace_push_complete msg s :
  Pool.complete exec 5 (call (ReqPush msg)) s =
  Some match push msg s with
       | Done (_, s') => Done (push_events (dropped_by s) msg, s')
       | Blocks w => Blocks w
       | Undefined => Undefined
       end.
Proof.
  destruct s as [nm q [|mx] fl]; [reflexivity|].
  unfold dropped_by, push, bind, lock, Lock, sem_decrement, size_ge_nmax. simpl.
  destruct (_ >=? _)%Z; [destruct q|]; reflexivity.
Qed.

Lemma replace_pop_complete s :
  Pool.complete exec 6 (call ReqPop) s =
  Some match pop s with
       | Done (x, s') => Done (pop_events x, s')
       | Blocks w => Blocks w
       | Undefined => Undefined
       end.
Proof.
  destruct s as [nm q mx [|fl]]; [reflexivity|].
  destruct mx; [reflexivity|]. now destruct q.
Qed.

Lemma replace_serve_all_steps rs : forall s outs s',
  serve_all push pop rs s = Done (outs, s') ->
  exists tr : trace, steps (s, [None]) tr (s', [None]).
Proof.
  induction rs as [|r rs IH]; intros s outs s' H.
  - injection H as <- <-. exists []. apply Pool.steps_refl.
  - simpl in H. unfold bind at 1 in H.
    destruct (serve push pop r s) as [[xs s1]| |] eqn:E1; try discriminate.
    unfold bind at 1 in H.
    destruct (serve_all push pop rs s1) as [[ys s2]| |] eqn:E2; try discriminate.
    injection H as <- <-.
    destruct (IH _ _ _ E2) as (tr2 & H2).
    assert (H1 : exists fuel es, Pool.complete exec fuel (call r) s = Some (Done (es, s1))).
    { destruct r as [m|]; simpl in E1; unfold bind in E1.
      - pose proof (replace_push_complete m s) as Hp.
        destruct (push m s) as [[u s1']| |]; try discriminate.
        injection E1 as <- <-. now exists 5, (push_events (dropped_by s) m).
      - pose proof (replace_pop_complete s) as Hp.
        destruct (pop s) as [[x s1']| |]; try discriminate.
        injection E1 as <- <-. now exists 6, (pop_events x). }
    destruct H1 as (fuel & es & Hc).
    exists ((0, Pool.LCall r) :: map (fun e => (0, Pool.LExec e)) es ++ tr2).
    eapply PoolFacts.steps_step; [exact (Pool.step_call call exec s [] [] r)|].
    eapply PoolFacts.steps_trans; [|exact H2].
    exact (PoolFacts.complete_steps call exec fuel _ _ [] [] Hc).
Qed.

(** The state after any sequence of calls served one after the other. *)
Lemma replace_served _nmax rs outs s :
  in_int _nmax ->
  serve_all push pop rs (MsgQueueReplace _nmax) = Done (outs, s) ->
  nmax s = Z.max 1 _nmax /\ mutex s = 1 /\ length (queue s) = full s /\
  (0 <= Z.of_nat (length (queue s)) <= nmax s)%Z.
Proof.
  intros Hn H. apply replace_serve_all_steps in H. destruct H as [tr H].
  apply (replace_quiescent_counts (k := 1) (tr := tr) (p := [None]) Hn); [exact H|].
  repeat constructor.
Qed.

(** ** Permits and the lock, statement by statement *)

(** [pop] keeps its permit operation outside the lock; no statement of
    either method acquires a permit under the lock. *)
Lemma replace_permit_outside_lock c s e c' s' :
  exec c s = Done ((e, c'), s') -> permit_event e = true ->
  (in_pop c = true \/ acquire_event e = true) ->
  holds_mutex c = false /\ holding c' = 0.
Proof.
  intros He. destruct c; destruct s as [nm q mx fl]; run_exec He;
    simpl; intros ? [?|?]; try discriminate; auto.
Qed.

(** [push] releases the [full] permit before the scope of [lock] ends. *)
Lemma replace_push_permit c s e c' s' :
  exec c s = Done ((e, c'), s') -> permit_event e = true -> in_push c = true ->
  e = EvInc Full /\ holds_mutex c = true /\ holding c' = 1 /\
  exists msg, c = Push_full_inc msg.
Proof.
  intros He. destruct c; destruct s as [nm q mx fl]; run_exec He;
    simpl; intros; try discriminate; eauto.
Qed.

Lemma replace_blocks_outside_lock c s w :
  exec c s = Blocks w ->
  holds_mutex c = false /\
  match w with
  | Empty => False
  | Full => full s = 0 /\ c = Pop_full_dec
  | Mutex => mutex s = 0
  end.
Proof.
  intros He. destruct c; destruct s as [nm q mx fl];
    cbv beta iota delta [MsgQueueReplace.exec bind ret full_decrement size_ge_nmax
      full_increment lock unlock Lock Lock_end sem_decrement sem_increment
      queue_push queue_front queue_pop Semaphore.decrement Semaphore.increment
      StdQueue.front StdQueue.pop StdQueue.push hd_error
      set_queue set_mutex set_full nmax queue mutex full] in He;
    repeat match type of He with
           | context [match ?x with _ => _ end] => is_var x; destruct x
           end;
    try discriminate He; injection He as <-; simpl; eauto.
Qed.

Lemma replace_holding_exec c s e c' s' :
  exec c s = Done ((e, c'), s') ->
  holding c' = match e with
               | EvDec Mutex => 1
               | EvInc Mutex => 0
               | _ => holding (Some c)
               end.
Proof.
  intros He. destruct c; destruct s as [nm q mx fl]; run_exec He; try reflexivity.
  simpl. now destruct (_ >=? _)%Z.
Qed.

(** Inside [push] the only statement that can wait is [Lock lock(mutex)]. *)
Lemma replace_push_waits_for_lock_only c s w :
  in_push c = true -> exec c s = Blocks w ->
  w = Mutex /\ mutex s = 0 /\ exists msg, c = Push_lock msg.
Proof.
  intros Hin He. destruct c; try discriminate Hin; destruct s as [nm q mx fl];
    cbv beta iota delta [MsgQueueReplace.exec bind ret full_decrement size_ge_nmax
      full_increment lock unlock Lock Lock_end sem_decrement sem_increment
      queue_push queue_front queue_pop Semaphore.decrement Semaphore.increment
      StdQueue.front StdQueue.pop StdQueue.push hd_error
      set_queue set_mutex set_full nmax queue mutex full] in He;
    repeat match type of He with
           | context [match ?x with _ => _ end] => is_var x; destruct x
           end;
    try discriminate He; injection He as <-; simpl; eauto.
Qed.

Lemma replace_push_acquires_nothing c s e c' s' :
  in_push c = true -> exec c s = Done ((e, c'), s') -> acquire_event e = false.
Proof.
  intros Hin He. destruct c; try discriminate Hin; destruct s as [nm q mx fl];
    run_exec He; reflexivity.
Qed.

(** Any number of pushes in a row on a queue whose mutex is free. *)
Lemma replace_serve_pushes ms : forall s m,
  mutex s = S m -> (1 <= nmax s <= INT_MAX)%Z ->
  exists s', run (map ReqPush ms) s = Done ([], s') /\
             mutex s' = mutex s /\ nmax s' = nmax s /\
             Z.of_nat (length (queue s'))
             = Z.min (Z.of_nat (length (queue s) + length ms))
                     (Z.max (Z.of_nat (length (queue s))) (nmax s)).
Proof.
  unfold run. induction ms as [|x ms IH]; intros s m Hm Hn.
  - exists s. simpl. repeat split. rewrite Nat.add_0_r. lia.
  - assert (Hp : exists s1, push x s = Done (tt, s1) /\ mutex s1 = mutex s /\
                   nmax s1 = nmax s /\
                   Z.of_nat (length (queue s1))
                   = Z.min (Z.of_nat (length (queue s)) + 1)
                           (Z.max (Z.of_nat (length (queue s))) (nmax s))).
    { destruct (Z.le_gt_cases (nmax s) (Z.of_nat (length (queue s)))) as [Hf|Hf].
      - rewrite (push_replaces x s Hm Hn Hf). eexists. split; [reflexivity|].
        destruct s as [nm [|y q] mx fl]; simpl in *; [lia|].
        rewrite length_app. simpl. repeat split. lia.
      - rewrite (push_appends x s Hm Hn) by lia. eexists. split; [reflexivity|].
        simpl. rewrite length_app. simpl. repeat split. lia. }
    destruct Hp as (s1 & Hp & Hm1 & Hn1 & Hl1).
    destruct (IH s1 m) as (s2 & H2 & Hm2 & Hn2 & Hl2); [congruence | rewrite Hn1; exact Hn |].
    exists s2. simpl. unfold bind at 1. unfold bind at 1. rewrite Hp.
    unfold ret at 1. unfold bind at 1. rewrite H2. simpl.
    repeat split; try congruence. rewrite Hl2, Hn1. simpl length. lia.
Qed.
(** ** When no thread can run *)

Lemma replace_stuck_waiting _nmax k tr s p :
  in_int _nmax -> reachable _nmax k tr (s, p) ->
  (forall c, In (Some c) p -> Pool.runnable exec s c = false) ->
  Forall (waiting s) p.
Proof.
  intros Hn H Hst. pose proof (invariant_reachable Hn H) as [Hc _].
  unfold counting in Hc.
  assert (Hblk : forall c, In (Some c) p -> exists w, exec c s = Blocks w).
  { intros c Hin. specialize (Hst c Hin). unfold Pool.runnable in Hst.
    destruct (exec c s) as [res|w|] eqn:E; [discriminate | eauto |].
    exfalso. revert E. eapply replace_exec_defined; eassumption. }
  assert (Hfree : Pool.total holding p = 0).
  { apply PoolFacts.total_zero. intros [c|] Hin; [|reflexivity].
    destruct (Hblk c Hin) as [w E]. simpl.
    now rewrite (proj1 (replace_blocks_outside_lock _ _ E)). }
  assert (Hgate : forall t, In t p -> t = None \/ (t = Some Pop_full_dec /\ full s = 0)).
  { intros [c|] Hin; [|now left]. right. destruct (Hblk c Hin) as [w E].
    destruct (replace_blocks_outside_lock _ _ E) as [_ Hw]. destruct w.
    - lia.
    - destruct Hw as [Hf ->]. now split.
    - contradiction. }
  assert (Z1 : Pool.total replacing p = 0).
  { apply PoolFacts.total_zero. intros t Ht. destruct (Hgate t Ht) as [->|[-> _]]; reflexivity. }
  assert (Z2 : Pool.total claimed p = 0).
  { apply PoolFacts.total_zero. intros t Ht. destruct (Hgate t Ht) as [->|[-> _]]; reflexivity. }
  assert (Z3 : Pool.total unsignalled p = 0).
  { apply PoolFacts.total_zero. intros t Ht. destruct (Hgate t Ht) as [->|[-> _]]; reflexivity. }
  apply Forall_forall. intros t Ht.
  destruct (Hgate t Ht) as [->|[-> Hf]]; simpl; trivial.
  split; [exact Hf|]. apply length_zero_iff_nil. lia.
Qed.

Lemma replace_progress _nmax k tr s p :
  in_int _nmax -> reachable _nmax k tr (s, p) ->
  (exists c, In (Some c) p /\ Pool.runnable exec s c = true) \/ Forall (waiting s) p.
Proof.
  intros Hn H. destruct (PoolFacts.runnable_or_stuck exec s p) as [Hr|Hs]; [now left|].
  right. eapply replace_stuck_waiting; eassumption.
Qed.

Lemma waiting_not_in_push s p c :
  Forall (waiting s) p -> In (Some c) p -> in_push c = true -> False.
Proof.
  intros Hw Hin Hp. rewrite Forall_forall in Hw. specialize (Hw _ Hin).
  destruct c; try discriminate Hp; simpl in Hw; contradiction.
Qed.

(** ** The queue as a plain list *)

Lemma newest_push_agree cap msg s q :
  represents cap s q ->
  agree (represents cap) (push msg s) (Abstract.newest_push cap msg q).
Proof.
  intros (Hm & Hf & Hq & Hr & Hcap). unfold Abstract.newest_push, agree.
  destruct (Nat.leb_spec cap (length q)) as [Hfull|Hroom].
  - rewrite (push_replaces msg s Hm Hr) by (rewrite Hq; lia).
    split; [reflexivity|]. unfold represents. simpl. rewrite Hq.
    destruct q as [|x q]; [simpl in *; lia|]. simpl. rewrite length_app. simpl.
    simpl in Hf. repeat split; trivial; lia.
  - rewrite (push_appends msg s Hm Hr) by (rewrite Hq; lia).
    split; [reflexivity|]. unfold represents. simpl. rewrite Hq, length_app. simpl.
    repeat split; trivial; lia.
Qed.

Lemma replace_take_agree cap s q :
  represents cap s q -> agree (represents cap) (pop s) (Abstract.take q).
Proof.
  intros (Hm & Hf & Hq & Hr & Hcap). unfold Abstract.take, agree.
  destruct q as [|x q].
  - now rewrite (replace_pop_blocks s Hf).
  - rewrite (replace_pop_done s Hf Hm Hq). split; [reflexivity|].
    unfold represents. simpl in *. repeat split; trivial; lia.
Qed.

Lemma replace_fresh_represents _nmax :
  in_int _nmax -> represents (Z.to_nat (Z.max 1 _nmax)) (MsgQueueReplace _nmax) [].
Proof.
  intros [_ Hn]. rewrite MsgQueueReplace_fields. unfold represents. simpl.
  pose proof INT_MAX_pos. repeat split; lia.
Qed.

(** ** What went in, what came out, what was dropped *)

Ltac snoc_trace :=
  unfold Pool.stored, Pool.removed, Pool.returned, Pool.push_calls, Pool.gone,
    Pool.dropped in *;
  rewrite ?PoolFacts.events_where_app; simpl Pool.events_where;
  rewrite ?flat_map_app in *; simpl flat_map in *;
  rewrite ?app_nil_r in *.

Ltac reach_induction H s p :=
  unfold MsgQueueReplace.reachable, MsgQueueReplace.steps in H;
  let cfg := fresh "cfg" in
  let E := fresh "E" in
  remember (s, p) as cfg eqn:E; revert s p E;
  induction H as [|tr cfg l cfg' H IH Hs]; intros s p E;
  [ injection E as <- <-
  | subst cfg'; destruct cfg as [s0 p0]; specialize (IH s0 p0 eq_refl) ].

(** The storage holds, in order, what was stored and has not left yet. *)
Lemma replace_stored_gone _nmax k tr s p :
  reachable _nmax k tr (s, p) -> Pool.stored tr = Pool.gone tr ++ queue s.
Proof.
  intros H. reach_induction H s p.
  - now rewrite MsgQueueReplace_fields.
  - inversion Hs as [s1 l1 l2 r|s1 l1 c l2 e c' s2 He]; subst; clear Hs.
    + snoc_trace. exact IH.
    + destruct c; destruct s0 as [nm q mx fl]; run_exec He; snoc_trace;
        simpl in *; rewrite ?IH; trivial;
        solve [now rewrite app_assoc | now rewrite <- app_assoc].
Qed.

(** Every message handed to [push] is stored or still on its way in. *)
Lemma replace_calls_stored _nmax k tr s p :
  reachable _nmax k tr (s, p) ->
  Permutation (Pool.push_calls tr) (Pool.stored tr ++ flat_map pending p).
Proof.
  intros H. reach_induction H s p.
  - simpl. rewrite PoolFacts.flat_map_quiescent; auto using PoolFacts.quiescent_idle.
  - inversion Hs as [s1 l1 l2 r|s1 l1 c l2 e c' s2 He]; subst; clear Hs.
    + destruct r as [m|]; snoc_trace; [|exact IH].
      rewrite IH. rewrite <- !app_assoc. do 2 apply Permutation_app_head.
      symmetry. apply Permutation_cons_append.
    + destruct c; destruct s0 as [nm q mx fl]; run_exec He;
        try destruct (_ >=? _)%Z; snoc_trace; simpl in *; trivial;
        rewrite IH; rewrite <- !app_assoc; apply Permutation_app_head;
        simpl; now rewrite <- Permutation_middle.
Qed.

(** Every element removed by a [pop] is returned or still in its hands. *)
Lemma replace_removed_returned _nmax k tr s p :
  in_int _nmax -> reachable _nmax k tr (s, p) ->
  Permutation (Pool.removed tr) (Pool.returned tr ++ flat_map in_hand p).
Proof.
  intros Hn H. reach_induction H s p.
  - simpl. rewrite PoolFacts.flat_map_quiescent; auto using PoolFacts.quiescent_idle.
  - assert (Hk : Forall (knows s0) p0) by (apply (invariant_reachable Hn H)).
    inversion Hs as [s1 l1 l2 r|s1 l1 c l2 e c' s2 He]; subst; clear Hs.
    + destruct r as [m|]; snoc_trace; exact IH.
    + apply Forall_app in Hk. destruct Hk as [_ Hk].
      inversion Hk as [|? ? Hc0 _]; subst.
      destruct c; destruct s0 as [nm q mx fl]; run_exec He;
        try destruct (_ >=? _)%Z; snoc_trace; simpl in *; trivial.
      * injection Hc0 as ->. rewrite IH. rewrite <- !app_assoc.
        do 2 apply Permutation_app_head.
        symmetry. apply Permutation_cons_append.
      * rewrite IH. rewrite <- !app_assoc. apply Permutation_app_head.
        simpl. now rewrite <- Permutation_middle.
Qed.

Lemma replace_in_pop_call r : in_pop (call r) = is_pop r.
Proof. now destruct r. Qed.

Lemma replace_in_push_call r : in_push (call r) = is_push r.
Proof. now destruct r. Qed.

Lemma replace_in_push_exec c0 s e c1 s' :
  exec c0 s = Done ((e, Some c1), s') -> in_push c1 = in_push c0.
Proof.
  intros He. destruct c0; destruct s as [nm q mx fl]; run_exec He;
    try reflexivity; try discriminate.
  now destruct (_ >=? _)%Z.
Qed.

Lemma replace_in_pop_exec c0 s e c1 s' :
  exec c0 s = Done ((e, Some c1), s') -> in_pop c1 = in_pop c0.
Proof. intros He. unfold MsgQueueReplace.in_pop. now rewrite (replace_in_push_exec _ _ He). Qed.

Lemma replace_in_hand_outside p :
  Forall (Pool.outside in_pop) p -> flat_map in_hand p = [].
Proof.
  apply PoolFacts.flat_map_outside. intros [[]|]; simpl; trivial; discriminate.
Qed.

Lemma replace_pending_outside p :
  Forall (Pool.outside in_push) p -> flat_map pending p = [].
Proof.
  apply PoolFacts.flat_map_outside. intros [[]|]; simpl; trivial; discriminate.
Qed.

Lemma replace_only_caller_prefix sel c tr (l : nat * Pool.label) :
  Pool.only_caller sel c (tr ++ [l]) -> Pool.only_caller sel c tr.
Proof. intros H i r Hi. apply H. apply in_or_app. now left. Qed.

(** With a single consumer the elements are returned in the order removed. *)
Lemma replace_removed_returned_seq _nmax k tr s p c :
  in_int _nmax -> reachable _nmax k tr (s, p) -> Pool.only_caller is_pop c tr ->
  Pool.removed tr = Pool.returned tr ++ flat_map in_hand p.
Proof.
  intros Hn H Hc. revert Hc. reach_induction H s p; intros Hc.
  - simpl. rewrite PoolFacts.flat_map_quiescent; auto using PoolFacts.quiescent_idle.
  - assert (Hk : Forall (knows s0) p0) by (apply (invariant_reachable Hn H)).
    apply replace_only_caller_prefix in Hc. specialize (IH Hc).
    assert (Hconf : Pool.confined in_pop c (snd (s0, p0))).
    { eapply PoolFacts.only_caller_confined;
        [apply replace_in_pop_call | apply replace_in_pop_exec | exact H | exact Hc]. }
    simpl in Hconf.
    inversion Hs as [s1 l1 l2 r|s1 l1 c0 l2 e c' s2 He]; subst; clear Hs.
    + destruct r as [m|]; snoc_trace; exact IH.
    + apply Forall_app in Hk. destruct Hk as [_ Hk].
      inversion Hk as [|? ? Hc0 _]; subst.
      destruct c0; destruct s0 as [nm q mx fl]; run_exec He;
        try destruct (_ >=? _)%Z; snoc_trace; simpl in *; trivial;
        destruct (PoolFacts.confined_alone _ _ _ Hconf eq_refl) as [A1 A2];
        rewrite (replace_in_hand_outside A1), (replace_in_hand_outside A2) in *;
        simpl in *; rewrite ?app_nil_r in *.
      * injection Hc0 as ->. now rewrite IH.
      * exact IH.
Qed.

(** With a single producer the messages are stored in the order of the calls. *)
Lemma replace_calls_stored_seq _nmax k tr s p c :
  reachable _nmax k tr (s, p) -> Pool.only_caller is_push c tr ->
  Pool.push_calls tr = Pool.stored tr ++ flat_map pending p.
Proof.
  intros H Hc. revert Hc. reach_induction H s p; intros Hc.
  - simpl. rewrite PoolFacts.flat_map_quiescent; auto using PoolFacts.quiescent_idle.
  - pose proof Hc as Hlast.
    apply replace_only_caller_prefix in Hc. specialize (IH Hc).
    assert (Hconf : Pool.confined in_push c (snd (s0, p0))).
    { eapply PoolFacts.only_caller_confined;
        [apply replace_in_push_call | apply replace_in_push_exec | exact H | exact Hc]. }
    simpl in Hconf.
    inversion Hs as [s1 l1 l2 r|s1 l1 c0 l2 e c' s2 He]; subst; clear Hs.
    + destruct r as [m|]; snoc_trace; [|exact IH].
      assert (Hlen : length l1 = c).
      { apply (Hlast _ (ReqPush m)); [apply in_or_app; right; now left | reflexivity]. }
      assert (Hconf' : Pool.confined in_push c (l1 ++ Some (Push_lock m) :: l2)).
      { intros i c1 Hi Hin. destruct (Nat.eq_dec i (length l1)) as [->|Hne]; [exact Hlen|].
        rewrite (PoolFacts.nth_error_elsewhere l1 l2 _ None Hne) in Hi. now apply (Hconf i c1). }
      destruct (PoolFacts.confined_alone _ _ _ Hconf' eq_refl) as [A1 A2].
      rewrite (replace_pending_outside A1), (replace_pending_outside A2) in *.
      simpl in *. rewrite ?app_nil_r in *. now rewrite IH.
    + destruct c0; destruct s0 as [nm q mx fl]; run_exec He;
        try destruct (_ >=? _)%Z; snoc_trace; simpl in *; trivial;
        destruct (PoolFacts.confined_alone _ _ _ Hconf eq_refl) as [A1 A2];
        rewrite (replace_pending_outside A1), (replace_pending_outside A2) in *;
        simpl in *; rewrite ?app_nil_r in *; exact IH.
Qed.

End MsgQueueReplaceFacts.
End MsgQueueReplaceFacts.

(** ** The queues as plain lists *)

Module AbstractFacts.
Import Abstract.
Section AbstractFacts.
Variable T : Type.
Variable cap : nat.

(** Taking as many elements as there are empties the list, in order. *)
Lemma take_all (push : T -> M (list T) unit) (q : list T) :
  serve_all push (take (T := T)) (repeat ReqPop (length q)) q = Done (q, []).
Proof.
  induction q as [|x q IH]; [reflexivity|].
  cbn [length repeat serve_all serve]. unfold bind, ret. cbn [take].
  now rewrite IH.
Qed.

(** Pushing keeps the newest [cap] elements. *)
Lemma newest_pushes (ms : list T) : forall q,
  1 <= cap -> length q <= cap ->
  newest_run cap (map ReqPush ms) q
  = Done ([], skipn (length q + length ms - cap) (q ++ ms)).
Proof.
  unfold newest_run. induction ms as [|x ms IH]; intros q Hc Hq.
  - cbn. unfold ret. rewrite app_nil_r.
    replace (length q + 0 - cap) with 0 by lia. reflexivity.
  - cbn [map serve_all serve]. unfold bind, ret. unfold newest_push at 1.
    rewrite IH; trivial.
    + rewrite length_app, <- app_assoc. cbn [length app].
      destruct (Nat.leb_spec cap (length q)) as [Hfull|Hroom].
      * destruct q as [|y q]; [simpl in *; lia|]. cbn [tl length app] in *.
        replace (S (length q) + S (length ms) - cap) with (S (length ms)) by lia.
        replace (length q + 1 + length ms - cap) with (length ms) by lia.
        reflexivity.
      * replace (length q + 1 + length ms - cap) with (length q + S (length ms) - cap)
          by lia.
        reflexivity.
    + rewrite length_app. cbn [length].
      destruct (Nat.leb_spec cap (length q)) as [Hfull|Hroom]; [|lia].
      destruct q as [|y q]; cbn [tl length] in *; lia.
Qed.

Lemma newest_length (ms : list T) : length (newest cap ms) = Nat.min (length ms) cap.
Proof. unfold newest. rewrite length_skipn. lia. Qed.

(** Push everything, then take everything that is left. *)
Lemma newest_round (ms : list T) :
  1 <= cap ->
  newest_run cap (map ReqPush ms ++ repeat ReqPop (length (newest cap ms))) []
  = Done (newest cap ms, []).
Proof.
  intros Hc. unfold newest_run. rewrite serve_all_app. unfold bind at 1.
  fold (newest_run cap (map ReqPush ms)).
  rewrite (newest_pushes ms []) by (trivial; simpl; lia). simpl.
  unfold bind at 1. fold (newest cap ms). rewrite take_all. reflexivity.
Qed.

End AbstractFacts.
End AbstractFacts.

(** ** The concrete runs are executions *)

Module DemoFacts.
Import Demo.

(** Calls served one after the other on a [MsgQueue] of capacity 2. *)
Example blocking_in_order :
  MsgQueue.run [ReqPush 1%Z; ReqPush 2%Z; ReqPop; ReqPush 3%Z; ReqPop; ReqPop]
    (MsgQueue.MsgQueue 2)
  = Done ([1; 2; 3]%Z, MsgQueue.mk 2 [] 1 0 2).
Proof. reflexivity. Qed.

Example blocking_when_full :
  MsgQueue.run [ReqPush 1%Z; ReqPush 2%Z; ReqPush 3%Z] (MsgQueue.MsgQueue 2)
  = Blocks Empty.
Proof. reflexivity. Qed.

Example blocking_when_empty :
  MsgQueue.run [ReqPush 1%Z; ReqPop; ReqPop] (MsgQueue.MsgQueue 2) = Blocks Full.
Proof. reflexivity. Qed.

(** The same calls on a [MsgQueueReplace] of capacity 2: the third push
    drops 1. *)
Example replacing_when_full :
  MsgQueueReplace.run [ReqPush 1%Z; ReqPush 2%Z; ReqPush 3%Z; ReqPop; ReqPop]
    (MsgQueueReplace.MsgQueueReplace 2)
  = Done ([2; 3]%Z, MsgQueueReplace.mk 2 [] 1 0).
Proof. reflexivity. Qed.

(** [front()] on an empty storage, in a state no execution reaches. *)
Example undefined_on_empty :
  MsgQueue.pop (MsgQueue.mk 1 (@nil Z) 1 1 0) = Undefined.
Proof. reflexivity. Qed.

Lemma producer_consumer_run :
  MsgQueue.reachable 2 2 producer_consumer_trace
    (MsgQueue.mk 2 [] 1 0 2, [None; None]).
Proof. apply (PoolFacts.schedule_sound _ _ producer_consumer). reflexivity. Qed.

Lemma producer_consumer_values :
  Pool.push_calls producer_consumer_trace = [10; 20; 30]%Z /\
  Pool.stored producer_consumer_trace = [10; 20; 30]%Z /\
  Pool.returned producer_consumer_trace = [10; 20; 30]%Z.
Proof. repeat split. Qed.

Lemma three_producers_run :
  MsgQueue.reachable 1 4 three_producers_trace
    (MsgQueue.mk 1 [] 1 0 1, [None; None; None; None]).
Proof. apply (PoolFacts.schedule_sound _ _ three_producers). reflexivity. Qed.

Lemma three_producers_values :
  Pool.push_calls three_producers_trace = [1; 2; 3]%Z /\
  Pool.stored three_producers_trace = [2; 3; 1]%Z /\
  Pool.returned three_producers_trace = [2; 3; 1]%Z.
Proof. repeat split. Qed.

Lemma replace_dropped_run :
  MsgQueueReplace.reachable 1 1 replace_dropped_trace
    (MsgQueueReplace.mk 1 [] 0 1, [Some (MsgQueueReplace.Push_replace_push 2%Z)]).
Proof. apply (PoolFacts.schedule_sound _ _ replace_dropped). reflexivity. Qed.

Lemma replace_stored_run :
  MsgQueueReplace.reachable 1 1 replace_stored_trace
    (MsgQueueReplace.mk 1 [7%Z] 0 0, [Some (MsgQueueReplace.Push_full_inc 7%Z)]).
Proof. apply (PoolFacts.schedule_sound _ _ replace_stored). reflexivity. Qed.

Lemma replace_two_threads_run :
  MsgQueueReplace.reachable 1 2 replace_two_threads_trace
    (MsgQueueReplace.mk 1 [3%Z] 1 1, [None; None]).
Proof. apply (PoolFacts.schedule_sound _ _ replace_two_threads). reflexivity. Qed.

Lemma replace_two_threads_values :
  Pool.push_calls replace_two_threads_trace = [1; 2; 3]%Z /\
  Pool.stored replace_two_threads_trace = [1; 2; 3]%Z /\
  Pool.dropped replace_two_threads_trace = [1%Z] /\
  Pool.returned replace_two_threads_trace = [2%Z].
Proof. repeat split. Qed.

Lemma producer_meets_consumer_run :
  MsgQueue.reachable 1 2 producer_meets_consumer_trace
    (MsgQueue.mk 1 [1%Z] 1 1 0,
     [Some (MsgQueue.Push_empty_dec 2%Z); Some MsgQueue.Pop_full_dec]).
Proof. apply (PoolFacts.schedule_sound _ _ producer_meets_consumer). reflexivity. Qed.

End DemoFacts.

(** * The properties of the specification *)

(** C1, invariant of [MsgQueueReplace].  After every sequence of [push]
    and [pop] calls served on a fresh queue the storage holds between 0 and
    [nmax] elements ([nmax] being the clamped capacity), exactly as many as
    [full] counts.  From such a state
    [push] completes: when its test [queue.size() >= nmax] holds (which is
    [nmax <= size]) it leaves [full] unchanged, otherwise it increments
    [full] by one; a [pop] that returns has decremented [full] by one;
    [pop] never reads an empty storage. *)
Theorem C1_replace_queue_invariant (T : Type) (_nmax : Z) (rs : list (request T))
    (outs : list T) (s : MsgQueueReplace.t T) :
  in_int _nmax ->
  MsgQueueReplace.run rs (MsgQueueReplace.MsgQueueReplace _nmax) = Done (outs, s) ->
  MsgQueueReplace.nmax s = Z.max 1 _nmax /\
  (0 <= Z.of_nat (length (MsgQueueReplace.queue s)) <= MsgQueueReplace.nmax s)%Z /\
  length (MsgQueueReplace.queue s) = MsgQueueReplace.full s /\
  (forall msg, exists s',
     MsgQueueReplace.push msg s = Done (tt, s') /\
     MsgQueueReplace.full s'
     = (if (StdQueue.size (MsgQueueReplace.queue s)
            >=? size_t_of_int (MsgQueueReplace.nmax s))%Z
        then MsgQueueReplace.full s
        else S (MsgQueueReplace.full s)) /\
     length (MsgQueueReplace.queue s') = MsgQueueReplace.full s' /\
     (Z.of_nat (length (MsgQueueReplace.queue s')) <= MsgQueueReplace.nmax s')%Z) /\
  ((StdQueue.size (MsgQueueReplace.queue s) >=? size_t_of_int (MsgQueueReplace.nmax s))%Z
   = (MsgQueueReplace.nmax s <=? Z.of_nat (length (MsgQueueReplace.queue s)))%Z) /\
  (forall x s',
     MsgQueueReplace.pop s = Done (x, s') ->
     S (MsgQueueReplace.full s') = MsgQueueReplace.full s /\
     length (MsgQueueReplace.queue s') = MsgQueueReplace.full s') /\
  MsgQueueReplace.pop s <> Undefined.
Proof.
  intros Hn H. destruct (MsgQueueReplaceFacts.replace_served _ Hn H) as (Hnm & Hm & Hl & Hb).
  assert (Hr : (1 <= MsgQueueReplace.nmax s <= INT_MAX)%Z).
  { destruct Hn as [_ Hn]. pose proof INT_MAX_pos. lia. }
  pose proof (MsgQueueReplaceFacts.size_test (MsgQueueReplace.queue s) Hr) as Ht.
  split; [exact Hnm|].
  split; [exact Hb|]. split; [exact Hl|]. split; [|split; [exact Ht|split]].
  - intros msg. rewrite Ht.
    destruct (Z.leb_spec (MsgQueueReplace.nmax s)
                (Z.of_nat (length (MsgQueueReplace.queue s)))) as [Hf|Hf].
    + rewrite (MsgQueueReplaceFacts.push_replaces msg s Hm Hr Hf). eexists.
      split; [reflexivity|]. destruct s as [nm [|y q] mx fl]; simpl in *; [lia|].
      rewrite length_app. simpl. lia.
    + rewrite (MsgQueueReplaceFacts.push_appends msg s Hm Hr Hf). eexists.
      split; [reflexivity|]. simpl. rewrite length_app. simpl. lia.
  - intros x s' Hp. destruct s as [nm q mx [|fl]]; simpl in *; [discriminate|].
    subst mx. destruct q as [|y q]; [discriminate|]. simpl in Hp.
    injection Hp as <- <-. simpl in *. lia.
  - destruct s as [nm q mx [|fl]]; simpl in *; [discriminate|].
    subst mx. destruct q as [|y q]; [discriminate|]. discriminate.
Qed.

Lemma C1_replace_queue_invariant_witness :
  in_int 2 /\
  MsgQueueReplace.run [ReqPush 1%Z; ReqPush 2%Z; ReqPush 3%Z; ReqPop]
    (MsgQueueReplace.MsgQueueReplace 2)
  = Done ([2%Z], MsgQueueReplace.mk 2 [3%Z] 1 1) /\
  (0 <= Z.of_nat (length [3%Z]) <= 2)%Z /\ length [3%Z] = 1.
Proof.
  assert (Hn : in_int 2) by (split; discriminate).
  assert (H : MsgQueueReplace.run [ReqPush 1%Z; ReqPush 2%Z; ReqPush 3%Z; ReqPop]
                (MsgQueueReplace.MsgQueueReplace 2)
              = Done ([2%Z], MsgQueueReplace.mk 2 [3%Z] 1 1)) by reflexivity.
  pose proof (C1_replace_queue_invariant _ Hn H) as (_ & Hb & Hl & _).
  split; [exact Hn|]. split; [exact H|]. split; [exact Hb | exact Hl].
Defined.

(** C2, replace semantics.  On any state left by calls served on a fresh
    queue, when the test [queue.size() >= nmax] of [push] holds, [push]
    removes the head of the storage and appends the message at the tail,
    so the size is unchanged (and so is [full]).  On a queue of capacity
    3, pushing 1, 2, 3, 4, 5 and then popping three times returns 3, 4, 5
    in that order. *)
Theorem C2_replace_semantics (T : Type) (_nmax : Z) (rs : list (request T))
    (outs : list T) (s : MsgQueueReplace.t T) (msg : T) :
  in_int _nmax ->
  MsgQueueReplace.run rs (MsgQueueReplace.MsgQueueReplace _nmax) = Done (outs, s) ->
  (StdQueue.size (MsgQueueReplace.queue s) >=? size_t_of_int (MsgQueueReplace.nmax s))%Z
  = true ->
  (exists x q,
     MsgQueueReplace.queue s = x :: q /\
     MsgQueueReplace.push msg s
     = Done (tt, MsgQueueReplace.mk (MsgQueueReplace.nmax s) (q ++ [msg])
                   (MsgQueueReplace.mutex s) (MsgQueueReplace.full s)) /\
     length (q ++ [msg]) = length (MsgQueueReplace.queue s)) /\
  MsgQueueReplace.run
    [ReqPush 1%Z; ReqPush 2%Z; ReqPush 3%Z; ReqPush 4%Z; ReqPush 5%Z;
     ReqPop; ReqPop; ReqPop]
    (MsgQueueReplace.MsgQueueReplace 3)
  = Done ([3%Z; 4%Z; 5%Z], MsgQueueReplace.mk 3 [] 1 0).
Proof.
  intros Hn H Ht. split; [|reflexivity].
  destruct (MsgQueueReplaceFacts.replace_served _ Hn H) as (Hnm & Hm & Hl & Hb).
  assert (Hr : (1 <= MsgQueueReplace.nmax s <= INT_MAX)%Z).
  { destruct Hn as [_ Hn]. pose proof INT_MAX_pos. lia. }
  rewrite (MsgQueueReplaceFacts.size_test (MsgQueueReplace.queue s) Hr) in Ht.
  apply Z.leb_le in Ht.
  rewrite (MsgQueueReplaceFacts.push_replaces msg s Hm Hr Ht).
  destruct s as [nm [|x q] mx fl]; simpl in *; [lia|].
  exists x, q. repeat split. rewrite length_app. simpl. lia.
Qed.

Lemma C2_replace_semantics_witness :
  in_int 3 /\
  MsgQueueReplace.run [ReqPush 1%Z; ReqPush 2%Z; ReqPush 3%Z]
    (MsgQueueReplace.MsgQueueReplace 3)
  = Done ([], MsgQueueReplace.mk 3 [1%Z; 2%Z; 3%Z] 1 3) /\
  (StdQueue.size [1%Z; 2%Z; 3%Z] >=? size_t_of_int 3)%Z = true /\
  exists x q,
    [1%Z; 2%Z; 3%Z] = x :: q /\
    MsgQueueReplace.push 4%Z (MsgQueueReplace.mk 3 [1%Z; 2%Z; 3%Z] 1 3)
    = Done (tt, MsgQueueReplace.mk 3 (q ++ [4%Z]) 1 3) /\
    length (q ++ [4%Z]) = 3.
Proof.
  assert (Hn : in_int 3) by (split; discriminate).
  assert (H : MsgQueueReplace.run [ReqPush 1%Z; ReqPush 2%Z; ReqPush 3%Z]
                (MsgQueueReplace.MsgQueueReplace 3)
              = Done ([], MsgQueueReplace.mk 3 [1%Z; 2%Z; 3%Z] 1 3)) by reflexivity.
  assert (Ht : (StdQueue.size [1%Z; 2%Z; 3%Z] >=? size_t_of_int 3)%Z = true)
    by reflexivity.
  split; [exact Hn|]. split; [exact H|]. split; [exact Ht|].
  exact (proj1 (@C2_replace_semantics Z 3 _ _ _ 4%Z Hn H Ht)).
Defined.

(** C3, FIFO order of [MsgQueue].  In every execution of a pool on a fresh
    queue in which a single thread [c] calls [pop] (any number of threads
    may push, under every interleaving):
    - the values returned so far, followed by the value the consumer has
      removed and not returned yet and by the content of the storage, are
      the values in the order they were stored; with a single pushing
      thread the messages handed to [push], in call order, are these
      followed by the message of the [push] in progress, so the values
      returned are always the first messages pushed, in push order;
    - every call of [pop] has returned exactly one value or is in progress;
    - when N messages were pushed and [pop] was called N times: while a
      call is in progress some thread can run its next statement (no call
      waits forever), the calls take 12 N statements in all, and they can
      be run to their end, in as many steps as they have statements left;
      whenever no call is in progress the sequence returned is the
      sequence stored, a permutation of the messages pushed, and it is the
      sequence of the [push] calls when a single thread pushes;
    - once as many values were returned as were handed to [push], the
      sequence returned is the sequence stored, and the sequence of the
      [push] calls when a single thread pushes. *)
Theorem C3_fifo_order (T : Type) (_nmax : Z) (k : nat) (tr : MsgQueue.trace T)
    (s : MsgQueue.t T) (p : Pool.pool) (c : nat) :
  MsgQueue.reachable _nmax k tr (s, p) ->
  Pool.only_caller (@MsgQueue.is_pop T) c tr ->
  Pool.stored tr
  = Pool.returned tr ++ flat_map (@MsgQueue.in_hand T) p ++ MsgQueue.queue s /\
  (forall c', Pool.only_caller (@MsgQueue.is_push T) c' tr ->
     Pool.push_calls tr
     = Pool.returned tr ++ flat_map (@MsgQueue.in_hand T) p ++ MsgQueue.queue s
         ++ flat_map (@MsgQueue.pending T) p) /\
  Pool.calls (@MsgQueue.is_pop T) tr
  = length (Pool.returned tr) + Pool.total (@MsgQueue.popping T) p /\
  (Pool.calls (@MsgQueue.is_pop T) tr = length (Pool.push_calls tr) ->
   (Pool.quiescent p \/
    exists c0, In (Some c0) p /\ Pool.runnable (@MsgQueue.exec T) s c0 = true) /\
   Pool.occurrences (fun _ => true) tr + Pool.total (@MsgQueue.remaining T) p
   = 12 * length (Pool.push_calls tr) /\
   (Pool.quiescent p ->
    Pool.returned tr = Pool.stored tr /\
    Permutation (Pool.returned tr) (Pool.push_calls tr) /\
    forall c', Pool.only_caller (@MsgQueue.is_push T) c' tr ->
               Pool.returned tr = Pool.push_calls tr) /\
   exists tr' s' p',
     MsgQueue.reachable _nmax k (tr ++ tr') (s', p') /\
     Pool.quiescent p' /\
     length tr' = Pool.total (@MsgQueue.remaining T) p /\
     Pool.push_calls (tr ++ tr') = Pool.push_calls tr /\
     Pool.calls (@MsgQueue.is_pop T) (tr ++ tr') = Pool.calls (@MsgQueue.is_pop T) tr /\
     Pool.returned (tr ++ tr') = Pool.stored (tr ++ tr') /\
     Permutation (Pool.returned (tr ++ tr')) (Pool.push_calls tr) /\
     forall c', Pool.only_caller (@MsgQueue.is_push T) c' tr ->
                Pool.returned (tr ++ tr') = Pool.push_calls tr) /\
  (length (Pool.returned tr) = length (Pool.push_calls tr) ->
   Pool.returned tr = Pool.stored tr /\
   forall c', Pool.only_caller (@MsgQueue.is_push T) c' tr ->
              Pool.returned tr = Pool.push_calls tr).
Proof.
  intros H Hc.
  pose proof (MsgQueueFacts.stored_removed H) as Hs.
  pose proof (MsgQueueFacts.removed_returned_seq H Hc) as Hr.
  pose proof (MsgQueueFacts.calls_stored H) as Hp.
  assert (Hst : Pool.stored tr
                = Pool.returned tr ++ flat_map (@MsgQueue.in_hand T) p
                    ++ MsgQueue.queue s)
    by (now rewrite Hs, Hr, <- app_assoc).
  split; [exact Hst|]. split; [|split; [|split]].
  - intros c' Hc'. rewrite (MsgQueueFacts.calls_stored_seq H Hc'), Hst.
    now rewrite <- !app_assoc.
  - exact (MsgQueueFacts.pop_calls_returned H).
  - intros Hb. split; [exact (MsgQueueFacts.balanced_progress H Hb)|].
    split; [rewrite (MsgQueueFacts.statements_left H), Hb; lia|].
    split; [exact (MsgQueueFacts.balanced_fifo H Hc Hb)|].
    destruct (MsgQueueFacts.balanced_completes eq_refl H Hb)
      as (tr' & s' & p' & Hreach & Hq & Hlen & E1 & E2 & Honly).
    exists tr', s', p'.
    assert (Hb' : Pool.calls (@MsgQueue.is_pop T) (tr ++ tr')
                  = length (Pool.push_calls (tr ++ tr'))) by (now rewrite E1, E2).
    destruct (MsgQueueFacts.balanced_fifo Hreach (Honly _ _ Hc) Hb' Hq)
      as (F1 & F2 & F3).
    split; [exact Hreach|]. split; [exact Hq|]. split; [exact Hlen|].
    split; [exact E1|]. split; [exact E2|]. split; [exact F1|].
    split; [now rewrite <- E1|].
    intros c' Hc'. rewrite <- E1. exact (F3 c' (Honly _ _ Hc')).
  - intros Hlen. apply Permutation_length in Hp.
    rewrite Hs, Hr in Hp. rewrite !length_app in Hp.
    assert (E1 : flat_map (@MsgQueue.in_hand T) p = [])
      by (apply length_zero_iff_nil; lia).
    assert (E2 : MsgQueue.queue s = []) by (apply length_zero_iff_nil; lia).
    assert (E3 : flat_map (@MsgQueue.pending T) p = [])
      by (apply length_zero_iff_nil; lia).
    rewrite E1, app_nil_r in Hr. rewrite E2, app_nil_r in Hs.
    split; [congruence|]. intros c' Hc'.
    rewrite (MsgQueueFacts.calls_stored_seq H Hc'), E3, app_nil_r. congruence.
Qed.

(** Thread 0 pushes 10, 20, 30 into a queue of capacity 2 and thread 1
    calls [pop] three times, the statements of the two interleaved: the
    three calls of [pop] have returned 10, 20, 30. *)
Lemma C3_fifo_order_witness :
  MsgQueue.reachable 2 2 Demo.producer_consumer_trace
    (MsgQueue.mk 2 [] 1 0 2, [None; None]) /\
  Pool.only_caller (@MsgQueue.is_pop Z) 1 Demo.producer_consumer_trace /\
  Pool.only_caller (@MsgQueue.is_push Z) 0 Demo.producer_consumer_trace /\
  Pool.push_calls Demo.producer_consumer_trace = [10; 20; 30]%Z /\
  Pool.calls (@MsgQueue.is_pop Z) Demo.producer_consumer_trace = 3 /\
  Pool.returned Demo.producer_consumer_trace
  = Pool.push_calls Demo.producer_consumer_trace.
Proof.
  assert (Hpop : Pool.only_caller (@MsgQueue.is_pop Z) 1 Demo.producer_consumer_trace)
    by (apply PoolFacts.only_callerb_sound; reflexivity).
  assert (Hpush : Pool.only_caller (@MsgQueue.is_push Z) 0 Demo.producer_consumer_trace)
    by (apply PoolFacts.only_callerb_sound; reflexivity).
  assert (Q : Pool.quiescent (ctl := MsgQueue.ctl Z) [None; None])
    by (repeat constructor).
  pose proof (C3_fifo_order DemoFacts.producer_consumer_run Hpop)
    as (_ & _ & _ & Hbalanced & _).
  destruct (Hbalanced eq_refl) as (_ & _ & Hfifo & _).
  split; [exact DemoFacts.producer_consumer_run|]. split; [exact Hpop|].
  split; [exact Hpush|]. split; [reflexivity|]. split; [reflexivity|].
  exact (proj2 (proj2 (Hfifo Q)) 0 Hpush).
Defined.

(** C4, invariant of [MsgQueue].  In every configuration reachable from a
    fresh queue, with any number of threads and under every interleaving,
    the storage holds between 0 and [nmax] elements; when no push or pop is
    in progress, [full + empty = nmax] and the storage holds exactly [full]
    elements. *)
Theorem C4_blocking_queue_invariant (T : Type) (_nmax : Z) (k : nat)
    (tr : MsgQueue.trace T) (s : MsgQueue.t T) (p : Pool.pool) :
  MsgQueue.reachable _nmax k tr (s, p) ->
  MsgQueue.nmax s = Z.max 1 _nmax /\
  (0 <= Z.of_nat (length (MsgQueue.queue s)) <= MsgQueue.nmax s)%Z /\
  (Pool.quiescent p ->
   Z.of_nat (MsgQueue.full s + MsgQueue.empty s) = MsgQueue.nmax s /\
   length (MsgQueue.queue s) = MsgQueue.full s).
Proof.
  intros H. destruct (MsgQueueFacts.occupancy H) as (Hn & Hb & _).
  split; [exact Hn|]. split; [exact Hb|]. intros Hq.
  destruct (MsgQueueFacts.quiescent_counts H Hq) as (_ & _ & Hfe & Hl). now split.
Qed.

Lemma C4_blocking_queue_invariant_witness :
  MsgQueue.reachable 2 2 Demo.producer_consumer_trace
    (MsgQueue.mk 2 [] 1 0 2, [None; None]) /\
  Pool.quiescent (ctl := MsgQueue.ctl Z) [None; None] /\
  (0 <= Z.of_nat (length (@nil Z)) <= 2)%Z /\
  (Z.of_nat (0 + 2) = 2%Z /\ length (@nil Z) = 0).
Proof.
  pose proof (C4_blocking_queue_invariant DemoFacts.producer_consumer_run) as (_ & Hb & Hq).
  assert (Q : Pool.quiescent (ctl := MsgQueue.ctl Z) [None; None])
    by (repeat constructor).
  split; [exact DemoFacts.producer_consumer_run|].
  split; [exact Q|]. split; [exact Hb | exact (Hq Q)].
Defined.

(** C5, backpressure of [MsgQueue].  On any state left by requests served
    one after the other: [push] blocks on [empty] exactly when there is no
    [empty] permit, which is exactly when the storage is full, and
    completes otherwise; [pop] blocks on [full] exactly when there is no
    [full] permit, which is exactly when the storage is empty, and
    completes otherwise.  As steps, on any state at all: the first
    statement of [push] is enabled iff [empty > 0], that of [pop] iff
    [full > 0].  After [nmax] pushes on a fresh queue a further push blocks,
    and completes after one pop.  Along every execution of a pool, at most
    [nmax] more [empty] permits were taken than released. *)
Theorem C5_backpressure (T : Type) (_nmax : Z) (rs : list (request T))
    (outs : list T) (s : MsgQueue.t T) :
  MsgQueue.run rs (MsgQueue.MsgQueue _nmax) = Done (outs, s) ->
  (forall msg,
     (MsgQueue.push msg s = Blocks Empty <-> MsgQueue.empty s = 0) /\
     ((exists s', MsgQueue.push msg s = Done (tt, s')) <-> 0 < MsgQueue.empty s)) /\
  ((MsgQueue.pop s = Blocks Full <-> MsgQueue.full s = 0) /\
   ((exists x s', MsgQueue.pop s = Done (x, s')) <-> 0 < MsgQueue.full s)) /\
  (MsgQueue.empty s = 0 <-> Z.of_nat (length (MsgQueue.queue s)) = MsgQueue.nmax s) /\
  (MsgQueue.full s = 0 <-> MsgQueue.queue s = []) /\
  (forall (s0 : MsgQueue.t T) (msg : T),
     ((exists r, MsgQueue.exec (MsgQueue.call (ReqPush msg)) s0 = Done r)
      <-> 0 < MsgQueue.empty s0) /\
     (MsgQueue.exec (MsgQueue.call (ReqPush msg)) s0 = Blocks Empty
      <-> MsgQueue.empty s0 = 0)) /\
  (forall s0 : MsgQueue.t T,
     ((exists r, MsgQueue.exec (MsgQueue.call (@ReqPop T)) s0 = Done r)
      <-> 0 < MsgQueue.full s0) /\
     (MsgQueue.exec (MsgQueue.call (@ReqPop T)) s0 = Blocks Full
      <-> MsgQueue.full s0 = 0)) /\
  (forall (ms : list T) (msg : T),
     Z.of_nat (length ms) = Z.max 1 _nmax ->
     exists sk,
       MsgQueue.run (map ReqPush ms) (MsgQueue.MsgQueue _nmax) = Done ([], sk) /\
       MsgQueue.push msg sk = Blocks Empty /\
       exists x s1 s2,
         MsgQueue.pop sk = Done (x, s1) /\ MsgQueue.push msg s1 = Done (tt, s2)) /\
  (forall k (tr : MsgQueue.trace T) s' p,
     MsgQueue.reachable _nmax k tr (s', p) ->
     (Z.of_nat (Pool.occurrences (MsgQueue.is_dec Empty) tr)
      <= Z.max 1 _nmax + Z.of_nat (Pool.occurrences (MsgQueue.is_inc Empty) tr))%Z /\
     Pool.occurrences (MsgQueue.is_dec Full) tr
     <= Pool.occurrences (MsgQueue.is_inc Full) tr).
Proof.
  intros H. destruct (MsgQueueFacts.served _ _ H) as (Hn & Hm & Hfe & Hl).
  split; [|split; [|split; [|split; [|split; [|split; [|split]]]]]].
  - intros msg. destruct (MsgQueue.empty s) as [|e] eqn:Ee.
    + rewrite (MsgQueueFacts.push_blocks msg s Ee). repeat split; intros; try lia.
      destruct H0; discriminate.
    + rewrite (MsgQueueFacts.push_done msg s Ee Hm).
      repeat split; intros; try lia; try discriminate. eauto.
  - destruct (MsgQueue.full s) as [|f] eqn:Ef.
    + rewrite (MsgQueueFacts.pop_blocks s Ef). repeat split; intros; try lia.
      destruct H0 as (? & ? & ?); discriminate.
    + destruct (MsgQueue.queue s) as [|x q] eqn:Eq; [discriminate|].
      rewrite (MsgQueueFacts.pop_done s Ef Hm Eq).
      repeat split; intros; try lia; try discriminate. eauto.
  - lia.
  - split; intros E.
    + destruct (MsgQueue.queue s); [reflexivity | simpl in Hl; lia].
    + rewrite E in Hl. simpl in Hl. lia.
  - intros s0 msg. apply MsgQueueFacts.push_gate.
  - intros s0. apply MsgQueueFacts.pop_gate.
  - intros ms msg Hk. unfold MsgQueue.run.
    rewrite (MsgQueueFacts.serve_pushes ms (MsgQueue.MsgQueue _nmax) (m := 0))
      by (rewrite MsgQueueFacts.MsgQueue_fields; simpl; lia || reflexivity).
    rewrite MsgQueueFacts.MsgQueue_fields. simpl.
    eexists. split; [reflexivity|]. split.
    + apply MsgQueueFacts.push_blocks. simpl. lia.
    + destruct ms as [|x ms]; [simpl in Hk; lia|].
      eexists x, _, _. split.
      * eapply MsgQueueFacts.pop_done; simpl; reflexivity.
      * eapply MsgQueueFacts.push_done; simpl; reflexivity.
  - intros k tr s' p Hr. destruct (MsgQueueFacts.permits_trace Hr) as [He Hf]. lia.
Qed.

Lemma C5_backpressure_witness :
  MsgQueue.run [ReqPush 5%Z; ReqPush 6%Z] (MsgQueue.MsgQueue 2)
  = Done ([], MsgQueue.mk 2 [5%Z; 6%Z] 1 2 0) /\
  (MsgQueue.push 7%Z (MsgQueue.mk 2 [5%Z; 6%Z] 1 2 0) = Blocks Empty <-> 0 = 0) /\
  ((exists x s', MsgQueue.pop (MsgQueue.mk 2 [5%Z; 6%Z] 1 2 0) = Done (x, s'))
   <-> 0 < 2).
Proof.
  assert (H : MsgQueue.run [ReqPush 5%Z; ReqPush 6%Z] (MsgQueue.MsgQueue 2)
              = Done ([], MsgQueue.mk 2 [5%Z; 6%Z] 1 2 0)) by reflexivity.
  pose proof (C5_backpressure _ _ H) as (Hpush & Hpop & _).
  split; [exact H|]. split; [exact (proj1 (Hpush 7%Z)) | exact (proj2 Hpop)].
Defined.

(** C6, [push] of [MsgQueueReplace] never blocks on capacity.  On any
    state left by calls served on a fresh queue, and more generally on any
    state whose mutex is free and whose [nmax] is a positive [int], any
    number of pushes in a row complete, whatever the messages.  On any
    state at all, no statement of [push] acquires a [full] or [empty]
    permit, and the only statement of [push] that can wait is
    [Lock lock(mutex)], while another thread holds the mutex; the events of
    a whole call contain no permit acquisition. *)
Theorem C6_replace_push_never_blocks (T : Type) (_nmax : Z) (rs : list (request T))
    (outs : list T) (s : MsgQueueReplace.t T) (ms : list T) :
  in_int _nmax ->
  MsgQueueReplace.run rs (MsgQueueReplace.MsgQueueReplace _nmax) = Done (outs, s) ->
  (exists s', MsgQueueReplace.run (map ReqPush ms) s = Done ([], s')) /\
  (forall (s0 : MsgQueueReplace.t T) m,
     MsgQueueReplace.mutex s0 = S m ->
     (1 <= MsgQueueReplace.nmax s0 <= INT_MAX)%Z ->
     exists s', MsgQueueReplace.run (map ReqPush ms) s0 = Done ([], s')) /\
  (forall (c : MsgQueueReplace.ctl T) s0 e c' s1,
     MsgQueueReplace.in_push c = true ->
     MsgQueueReplace.exec c s0 = Done ((e, c'), s1) -> acquire_event e = false) /\
  (forall (c : MsgQueueReplace.ctl T) s0 w,
     MsgQueueReplace.in_push c = true -> MsgQueueReplace.exec c s0 = Blocks w ->
     w = Mutex /\ MsgQueueReplace.mutex s0 = 0 /\
     exists msg, c = MsgQueueReplace.Push_lock msg) /\
  (forall (msg : T) s0 s1,
     MsgQueueReplace.push msg s0 = Done (tt, s1) ->
     exists es,
       Pool.complete (@MsgQueueReplace.exec T) 5 (MsgQueueReplace.call (ReqPush msg)) s0
       = Some (Done (es, s1)) /\
       forallb (fun e => negb (acquire_event e)) es = true).
Proof.
  intros Hn H. destruct (MsgQueueReplaceFacts.replace_served _ Hn H) as (Hnm & Hm & Hl & Hb).
  assert (Hr : (1 <= MsgQueueReplace.nmax s <= INT_MAX)%Z).
  { destruct Hn as [_ Hn]. pose proof INT_MAX_pos. lia. }
  split; [|split; [|split; [|split]]].
  - destruct (MsgQueueReplaceFacts.replace_serve_pushes ms s Hm Hr) as (s' & Hs' & _).
    now exists s'.
  - intros s0 m Hm0 Hr0.
    destruct (MsgQueueReplaceFacts.replace_serve_pushes ms s0 Hm0 Hr0) as (s' & Hs' & _).
    now exists s'.
  - intros c s0 e c' s1. apply MsgQueueReplaceFacts.replace_push_acquires_nothing.
  - intros c s0 w. apply MsgQueueReplaceFacts.replace_push_waits_for_lock_only.
  - intros msg s0 s1 Hp. pose proof (MsgQueueReplaceFacts.replace_push_complete msg s0) as Hc.
    rewrite Hp in Hc. eexists. split; [exact Hc|].
    now destruct (MsgQueueReplace.dropped_by s0).
Qed.

Lemma C6_replace_push_never_blocks_witness :
  in_int 0 /\
  MsgQueueReplace.run [ReqPush 1%Z; ReqPop; ReqPush 2%Z]
    (MsgQueueReplace.MsgQueueReplace 0)
  = Done ([1%Z], MsgQueueReplace.mk 1 [2%Z] 1 1) /\
  exists s',
    MsgQueueReplace.run (map ReqPush [3%Z; 4%Z; 5%Z; 6%Z])
      (MsgQueueReplace.mk 1 [2%Z] 1 1)
    = Done ([], s').
Proof.
  assert (Hn : in_int 0) by (split; discriminate).
  assert (H : MsgQueueReplace.run [ReqPush 1%Z; ReqPop; ReqPush 2%Z]
                (MsgQueueReplace.MsgQueueReplace 0)
              = Done ([1%Z], MsgQueueReplace.mk 1 [2%Z] 1 1)) by reflexivity.
  split; [exact Hn|]. split; [exact H|].
  exact (proj1 (@C6_replace_push_never_blocks Z 0 _ _ _ [3%Z; 4%Z; 5%Z; 6%Z] Hn H)).
Defined.

(** C7, capacity clamp.  For every capacity argument the constructor of
    either class stores [max(1, _nmax)] in [nmax] and returns a queue (it
    has no failing outcome): an argument that is zero or negative, written
    [- k] for a natural [k], gives capacity 1.  The fresh [MsgQueue] has
    that many [empty] permits, no [full] permit and a free mutex; the fresh
    [MsgQueueReplace] has no [full] permit and a free mutex. *)
Theorem C7_capacity_clamp (T : Type) (_nmax : Z) (k : nat) :
  MsgQueue.MsgQueue (T := T) _nmax
  = MsgQueue.mk (Z.max 1 _nmax) [] 1 0 (Z.to_nat (Z.max 1 _nmax)) /\
  MsgQueueReplace.MsgQueueReplace (T := T) _nmax
  = MsgQueueReplace.mk (Z.max 1 _nmax) [] 1 0 /\
  MsgQueue.nmax (MsgQueue.MsgQueue (T := T) (- Z.of_nat k)) = 1%Z /\
  MsgQueue.empty (MsgQueue.MsgQueue (T := T) (- Z.of_nat k)) = 1 /\
  MsgQueueReplace.nmax (MsgQueueReplace.MsgQueueReplace (T := T) (- Z.of_nat k)) = 1%Z.
Proof.
  rewrite !MsgQueueFacts.MsgQueue_fields, !MsgQueueReplaceFacts.MsgQueueReplace_fields.
  simpl. replace (Z.max 1 (- Z.of_nat k)) with 1%Z by lia. repeat split.
Qed.

(** C8, counterexample.  In a [MsgQueueReplace] of capacity 1 a thread
    calls [push(7)] and runs to line 175: the mutex is taken (its count is
    0), the thread holds it, and its next statement is [full.increment()],
    a permit release inside the critical section. *)
Lemma C8_counterexample :
  MsgQueueReplace.reachable 1 1 Demo.replace_stored_trace
    (MsgQueueReplace.mk 1 [7%Z] 0 0, [Some (MsgQueueReplace.Push_full_inc 7%Z)]) /\
  MsgQueueReplace.holds_mutex (MsgQueueReplace.Push_full_inc 7%Z) = true /\
  MsgQueueReplace.exec (MsgQueueReplace.Push_full_inc 7%Z)
    (MsgQueueReplace.mk 1 [7%Z] 0 0)
  = Done ((EvInc Full, Some (MsgQueueReplace.Push_unlock 7%Z)),
          MsgQueueReplace.mk 1 [7%Z] 0 1) /\
  permit_event (@EvInc Z Full) = true.
Proof. split; [exact DemoFacts.replace_stored_run|]. repeat split. Qed.

(** C8, as amended.  In [push] and [pop] of [MsgQueue] and in [pop] of
    [MsgQueueReplace] every acquisition and release of a [full] or [empty]
    permit is made by a thread that does not hold the mutex, before and
    after the statement.  [push] of [MsgQueueReplace] makes one permit
    operation, the release [full.increment()] of line 175, and makes it
    while it holds the mutex.  In all four methods no permit is acquired
    under the mutex, and a thread that waits, on a permit or on the mutex,
    does not hold the mutex.  [holds_mutex] is the ownership of the lock:
    it starts with the thread's own [Lock lock(mutex)], ends with the end
    of that scope, and in every reachable configuration the count of the
    mutex plus the number of holders is 1. *)
Theorem C8_lock_permit_discipline (T : Type) :
  (forall (c : MsgQueue.ctl T) s e c' s',
     MsgQueue.exec c s = Done ((e, c'), s') -> permit_event e = true ->
     MsgQueue.holds_mutex c = false /\ MsgQueue.holding c' = 0) /\
  (forall (c : MsgQueue.ctl T) s w,
     MsgQueue.exec c s = Blocks w -> MsgQueue.holds_mutex c = false) /\
  (forall (c : MsgQueueReplace.ctl T) s e c' s',
     MsgQueueReplace.exec c s = Done ((e, c'), s') -> permit_event e = true ->
     MsgQueueReplace.in_pop c = true \/ acquire_event e = true ->
     MsgQueueReplace.holds_mutex c = false /\ MsgQueueReplace.holding c' = 0) /\
  (forall (c : MsgQueueReplace.ctl T) s e c' s',
     MsgQueueReplace.exec c s = Done ((e, c'), s') -> permit_event e = true ->
     MsgQueueReplace.in_push c = true ->
     e = EvInc Full /\ MsgQueueReplace.holds_mutex c = true /\
     MsgQueueReplace.holding c' = 1 /\
     exists msg, c = MsgQueueReplace.Push_full_inc msg) /\
  (forall (c : MsgQueueReplace.ctl T) s w,
     MsgQueueReplace.exec c s = Blocks w -> MsgQueueReplace.holds_mutex c = false) /\
  (forall (c : MsgQueue.ctl T) s e c' s',
     MsgQueue.exec c s = Done ((e, c'), s') ->
     MsgQueue.holding c' = match e with
                           | EvDec Mutex => 1
                           | EvInc Mutex => 0
                           | _ => MsgQueue.holding (Some c)
                           end) /\
  (forall (c : MsgQueueReplace.ctl T) s e c' s',
     MsgQueueReplace.exec c s = Done ((e, c'), s') ->
     MsgQueueReplace.holding c' = match e with
                                  | EvDec Mutex => 1
                                  | EvInc Mutex => 0
                                  | _ => MsgQueueReplace.holding (Some c)
                                  end) /\
  (forall _nmax k (tr : MsgQueue.trace T) s p,
     MsgQueue.reachable _nmax k tr (s, p) ->
     MsgQueue.mutex s + Pool.total (@MsgQueue.holding T) p = 1) /\
  (forall _nmax k (tr : MsgQueueReplace.trace T) s p,
     in_int _nmax -> MsgQueueReplace.reachable _nmax k tr (s, p) ->
     MsgQueueReplace.mutex s + Pool.total (@MsgQueueReplace.holding T) p = 1).
Proof.
  split; [|split; [|split; [|split; [|split; [|split; [|split; [|split]]]]]]].
  - intros c s e c' s'. apply MsgQueueFacts.permit_outside_lock.
  - intros c s w H. apply (MsgQueueFacts.blocks_outside_lock _ _ H).
  - intros c s e c' s'. apply MsgQueueReplaceFacts.replace_permit_outside_lock.
  - intros c s e c' s'. apply MsgQueueReplaceFacts.replace_push_permit.
  - intros c s w H. apply (MsgQueueReplaceFacts.replace_blocks_outside_lock _ _ H).
  - intros c s e c' s'. apply MsgQueueFacts.holding_exec.
  - intros c s e c' s'. apply MsgQueueReplaceFacts.replace_holding_exec.
  - intros n k tr s p H. apply MsgQueueFacts.counting_reachable in H. apply H.
  - intros n k tr s p Hn H. apply (MsgQueueReplaceFacts.invariant_reachable Hn) in H.
    apply H.
Qed.

(** The discipline at the statements of a [MsgQueue] push that take and
    release permits, and the exception at line 175 of [MsgQueueReplace]. *)
Lemma C8_lock_permit_discipline_witness :
  MsgQueue.holds_mutex (MsgQueue.Push_empty_dec 7%Z) = false /\
  MsgQueue.holds_mutex (MsgQueue.Push_full_inc 7%Z) = false /\
  MsgQueueReplace.holds_mutex (MsgQueueReplace.Push_full_inc 7%Z) = true.
Proof.
  pose proof (C8_lock_permit_discipline Z) as (Hq & _ & _ & Hr & _).
  split; [|split].
  - exact (proj1 (Hq (MsgQueue.Push_empty_dec 7%Z) (MsgQueue.mk 1 [] 1 0 1)
                     _ _ _ eq_refl eq_refl)).
  - exact (proj1 (Hq (MsgQueue.Push_full_inc 7%Z) (MsgQueue.mk 1 [7%Z] 1 0 0)
                     _ _ _ eq_refl eq_refl)).
  - exact (proj1 (proj2 (Hr (MsgQueueReplace.Push_full_inc 7%Z)
                            (MsgQueueReplace.mk 1 [7%Z] 0 0)
                            _ _ _ eq_refl eq_refl eq_refl))).
Defined.

(** C9, counterexample.  In a [MsgQueueReplace] of capacity 1 a thread
    pushes 1, calls [push(2)] and runs to line 170: the oldest message has
    been dropped, the new one is not stored yet, and [full] counts 1 while
    the storage holds no element. *)
Lemma C9_counterexample :
  MsgQueueReplace.reachable 1 1 Demo.replace_dropped_trace
    (MsgQueueReplace.mk 1 [] 0 1, [Some (MsgQueueReplace.Push_replace_push 2%Z)]) /\
  length (MsgQueueReplace.queue (MsgQueueReplace.mk 1 (@nil Z) 0 1))
  < MsgQueueReplace.full (MsgQueueReplace.mk 1 (@nil Z) 0 1).
Proof. split; [exact DemoFacts.replace_dropped_run | repeat constructor]. Qed.

(** C9, as amended.  A thread is at [queue.front()] or [queue.pop()] of
    [pop] only after its own [full.decrement()]; in every reachable
    configuration of either class no statement of a thread reads or pops
    an empty storage, and the storage is not empty where a thread is about
    to call [front()] or [pop()].  In [MsgQueue] the [full] counter never
    exceeds the number of stored elements.  In [MsgQueueReplace] it exceeds
    it by at most the number of threads between the [queue.pop()] and the
    [queue.push(msg)] of the replacement branch (at most one, under the
    mutex): it does not exceed it when the mutex is free, and it is below
    it where [pop] reads and pops; the [queue.pop()] of the replacement
    branch runs only with [size >= nmax >= 1].  Exactly: the number of
    stored elements plus the number of threads between these two
    statements is [full] plus the number of [pop] calls that hold a [full]
    permit and have not removed their element yet plus the number of
    [push] calls between lines 174 and 175; at most one thread is between
    lines 169 and 170 or between lines 174 and 175, so [full] exceeds the
    number of stored elements by at most one, and by one only between
    lines 169 and 170 when no [pop] holds a permit. *)
Theorem C9_guarded_storage_access (T : Type) :
  (forall _nmax k (tr : MsgQueue.trace T) s p,
     MsgQueue.reachable _nmax k tr (s, p) ->
     MsgQueue.full s <= length (MsgQueue.queue s) /\
     forall c, In (Some c) p ->
       MsgQueue.exec c s <> Undefined /\
       (MsgQueue.accesses_front c = true ->
        MsgQueue.queue s <> [] /\ MsgQueue.claimed (Some c) = 1)) /\
  (forall (c : MsgQueue.ctl T) s e c' s',
     MsgQueue.exec c s = Done ((e, c'), s') ->
     MsgQueue.claimed (Some c) = 0 -> MsgQueue.claimed c' = 1 -> e = EvDec Full) /\
  (forall r : request T, MsgQueue.claimed (Some (MsgQueue.call r)) = 0) /\
  (forall _nmax k (tr : MsgQueueReplace.trace T) s p,
     in_int _nmax -> MsgQueueReplace.reachable _nmax k tr (s, p) ->
     MsgQueueReplace.full s
     <= length (MsgQueueReplace.queue s) + Pool.total (@MsgQueueReplace.replacing T) p /\
     (MsgQueueReplace.mutex s = 1 ->
      MsgQueueReplace.full s <= length (MsgQueueReplace.queue s)) /\
     (forall c, In (Some c) p ->
        MsgQueueReplace.exec c s <> Undefined /\
        (MsgQueueReplace.accesses_front c = true ->
         MsgQueueReplace.queue s <> [] /\
         (MsgQueueReplace.in_pop c = true ->
          MsgQueueReplace.claimed (Some c) = 1 /\
          MsgQueueReplace.full s < length (MsgQueueReplace.queue s))) /\
        (forall msg, c = MsgQueueReplace.Push_replace_pop msg ->
           (1 <= MsgQueueReplace.nmax s
            <= Z.of_nat (length (MsgQueueReplace.queue s)))%Z)) /\
     length (MsgQueueReplace.queue s) + Pool.total (@MsgQueueReplace.replacing T) p
     = MsgQueueReplace.full s + Pool.total (@MsgQueueReplace.claimed T) p
       + Pool.total (@MsgQueueReplace.unsignalled T) p /\
     Pool.total (@MsgQueueReplace.replacing T) p
     + Pool.total (@MsgQueueReplace.unsignalled T) p <= 1 /\
     MsgQueueReplace.full s <= S (length (MsgQueueReplace.queue s)) /\
     (MsgQueueReplace.full s = S (length (MsgQueueReplace.queue s)) <->
      Pool.total (@MsgQueueReplace.replacing T) p = 1 /\
      Pool.total (@MsgQueueReplace.claimed T) p = 0)) /\
  (forall (c : MsgQueueReplace.ctl T) s e c' s',
     MsgQueueReplace.exec c s = Done ((e, c'), s') ->
     MsgQueueReplace.claimed (Some c) = 0 -> MsgQueueReplace.claimed c' = 1 ->
     e = EvDec Full) /\
  (forall r : request T, MsgQueueReplace.claimed (Some (MsgQueueReplace.call r)) = 0).
Proof.
  split; [|split; [|split; [|split; [|split]]]].
  - intros n k tr s p H. split; [apply (MsgQueueFacts.occupancy H)|].
    intros c Hin. split; [eapply MsgQueueFacts.exec_defined; eassumption|].
    intros Ha. split; [eapply MsgQueueFacts.front_nonempty; eassumption|].
    destruct c; try discriminate Ha; reflexivity.
  - intros c s e c' s'. apply MsgQueueFacts.claimed_by_decrement.
  - intros [msg|]; reflexivity.
  - intros n k tr s p Hn H.
    destruct (MsgQueueReplaceFacts.replace_occupancy Hn H) as (_ & _ & Hf & Hm).
    destruct (MsgQueueReplaceFacts.replace_full_excess Hn H) as (He & Hone).
    split; [exact Hf|]. split; [intros E; specialize (Hm E); lia|].
    split; [|split; [exact He|split; [exact Hone|split; [lia|lia]]]].
    intros c Hin.
    split; [eapply MsgQueueReplaceFacts.replace_exec_defined; eassumption|]. split.
    + intros Ha.
      destruct (MsgQueueReplaceFacts.replace_front_nonempty _ Hn H Hin Ha) as [Hq Hlt].
      split; [exact Hq|]. intros Hp. split; [|exact (Hlt Hp)].
      destruct c; try discriminate Ha; try discriminate Hp; reflexivity.
    + intros msg ->. eapply MsgQueueReplaceFacts.replace_branch_full; eassumption.
  - intros c s e c' s'. apply MsgQueueReplaceFacts.replace_claimed_by_decrement.
  - intros [msg|]; reflexivity.
Qed.

(** The thread that is about to drop the oldest message of a full
    [MsgQueueReplace] of capacity 1 finds the storage non-empty.  When the
    consumer has taken the permit of that message before it is dropped,
    [full] and the number of stored elements are both 0 between lines 169
    and 170. *)
Lemma C9_guarded_storage_access_witness :
  in_int 1 /\
  MsgQueueReplace.reachable 1 1
    [(0, Pool.LCall (ReqPush 1%Z)); (0, Pool.LExec (EvDec Mutex));
     (0, Pool.LExec (EvTest false)); (0, Pool.LExec (EvQPush 1%Z));
     (0, Pool.LExec (EvInc Full)); (0, Pool.LExec (EvInc Mutex));
     (0, Pool.LCall (ReqPush 2%Z)); (0, Pool.LExec (EvDec Mutex));
     (0, Pool.LExec (EvTest true))]
    (MsgQueueReplace.mk 1 [1%Z] 0 1, [Some (MsgQueueReplace.Push_replace_pop 2%Z)]) /\
  MsgQueueReplace.exec (MsgQueueReplace.Push_replace_pop 2%Z)
    (MsgQueueReplace.mk 1 [1%Z] 0 1) <> Undefined /\
  (1 <= 1 <= Z.of_nat (length [1%Z]))%Z /\
  MsgQueueReplace.reachable 1 2
    [(0, Pool.LCall (ReqPush 1%Z)); (0, Pool.LExec (EvDec Mutex));
     (0, Pool.LExec (EvTest false)); (0, Pool.LExec (EvQPush 1%Z));
     (0, Pool.LExec (EvInc Full)); (0, Pool.LExec (EvInc Mutex));
     (1, Pool.LCall ReqPop); (1, Pool.LExec (EvDec Full));
     (0, Pool.LCall (ReqPush 2%Z)); (0, Pool.LExec (EvDec Mutex));
     (0, Pool.LExec (EvTest true)); (0, Pool.LExec (EvQDrop 1%Z))]
    (MsgQueueReplace.mk 1 [] 0 0,
     [Some (MsgQueueReplace.Push_replace_push 2%Z); Some MsgQueueReplace.Pop_lock]) /\
  length (@nil Z) + 1 = 0 + 1 + 0.
Proof.
  assert (Hn : in_int 1) by (split; discriminate).
  assert (H : MsgQueueReplace.reachable 1 1
    [(0, Pool.LCall (ReqPush 1%Z)); (0, Pool.LExec (EvDec Mutex));
     (0, Pool.LExec (EvTest false)); (0, Pool.LExec (EvQPush 1%Z));
     (0, Pool.LExec (EvInc Full)); (0, Pool.LExec (EvInc Mutex));
     (0, Pool.LCall (ReqPush 2%Z)); (0, Pool.LExec (EvDec Mutex));
     (0, Pool.LExec (EvTest true))]
    (MsgQueueReplace.mk 1 [1%Z] 0 1, [Some (MsgQueueReplace.Push_replace_pop 2%Z)])).
  { apply (PoolFacts.schedule_sound _ _
             ([Pool.Call 0 (ReqPush 1%Z)] ++ Demo.runs 0 5
              ++ [Pool.Call 0 (ReqPush 2%Z)] ++ Demo.runs 0 2)).
    reflexivity. }
  assert (H2 : MsgQueueReplace.reachable 1 2
    [(0, Pool.LCall (ReqPush 1%Z)); (0, Pool.LExec (EvDec Mutex));
     (0, Pool.LExec (EvTest false)); (0, Pool.LExec (EvQPush 1%Z));
     (0, Pool.LExec (EvInc Full)); (0, Pool.LExec (EvInc Mutex));
     (1, Pool.LCall ReqPop); (1, Pool.LExec (EvDec Full));
     (0, Pool.LCall (ReqPush 2%Z)); (0, Pool.LExec (EvDec Mutex));
     (0, Pool.LExec (EvTest true)); (0, Pool.LExec (EvQDrop 1%Z))]
    (MsgQueueReplace.mk 1 [] 0 0,
     [Some (MsgQueueReplace.Push_replace_push 2%Z); Some MsgQueueReplace.Pop_lock])).
  { apply (PoolFacts.schedule_sound _ _
             ([Pool.Call 0 (ReqPush 1%Z)] ++ Demo.runs 0 5
              ++ [Pool.Call 1 ReqPop] ++ Demo.runs 1 1
              ++ [Pool.Call 0 (ReqPush 2%Z)] ++ Demo.runs 0 3)).
    reflexivity. }
  pose proof (C9_guarded_storage_access Z) as (_ & _ & _ & Hr & _).
  destruct (Hr _ _ _ _ _ Hn H) as (_ & _ & Hc & _).
  destruct (Hc _ (or_introl eq_refl)) as (Hdef & _ & Hfull).
  destruct (Hr _ _ _ _ _ Hn H2) as (_ & _ & _ & Heq & _).
  split; [exact Hn|]. split; [exact H|]. split; [exact Hdef|].
  split; [exact (Hfull _ eq_refl)|]. split; [exact H2 | exact Heq].
Defined.

(** C10, no loss and no duplication in [MsgQueue].  In every execution of a
    pool on a fresh queue, with any number of pushing and popping threads
    and any capacity, the messages handed to [push] are, counted with
    multiplicity, exactly the messages returned by [pop], those a [pop] has
    removed and not returned yet, those in the storage and those a [push]
    has not stored yet; so once as many messages were returned as were
    pushed, the messages returned are a permutation of the messages pushed:
    the same elements, and without repetition when the pushed ones are
    distinct. *)
Theorem C10_no_loss_no_duplication (T : Type) (_nmax : Z) (k : nat)
    (tr : MsgQueue.trace T) (s : MsgQueue.t T) (p : Pool.pool) :
  MsgQueue.reachable _nmax k tr (s, p) ->
  Permutation (Pool.push_calls tr)
    (Pool.returned tr ++ flat_map (@MsgQueue.in_hand T) p
       ++ MsgQueue.queue s ++ flat_map (@MsgQueue.pending T) p) /\
  (length (Pool.returned tr) = length (Pool.push_calls tr) ->
   Permutation (Pool.returned tr) (Pool.push_calls tr) /\
   (forall x, In x (Pool.returned tr) <-> In x (Pool.push_calls tr)) /\
   (NoDup (Pool.push_calls tr) -> NoDup (Pool.returned tr))).
Proof.
  intros H.
  pose proof (MsgQueueFacts.stored_removed H) as Hs.
  pose proof (MsgQueueFacts.removed_returned H) as Hr.
  pose proof (MsgQueueFacts.calls_stored H) as Hp.
  assert (Hall : Permutation (Pool.push_calls tr)
            (Pool.returned tr ++ flat_map (@MsgQueue.in_hand T) p
               ++ MsgQueue.queue s ++ flat_map (@MsgQueue.pending T) p)).
  { rewrite Hp, Hs, Hr. now rewrite <- !app_assoc. }
  split; [exact Hall|]. intros Hlen.
  pose proof (Permutation_length Hall) as L. rewrite !length_app in L.
  assert (E1 : flat_map (@MsgQueue.in_hand T) p = []) by (apply length_zero_iff_nil; lia).
  assert (E2 : MsgQueue.queue s = []) by (apply length_zero_iff_nil; lia).
  assert (E3 : flat_map (@MsgQueue.pending T) p = []) by (apply length_zero_iff_nil; lia).
  rewrite E1, E2, E3 in Hall. simpl in Hall. rewrite app_nil_r in Hall.
  split; [now symmetry|]. split.
  - intros x. split; intros Hx.
    + eapply Permutation_in; [symmetry; exact Hall | exact Hx].
    + eapply Permutation_in; [exact Hall | exact Hx].
  - intros Hnd. eapply Permutation_NoDup; [exact Hall | exact Hnd].
Qed.

Lemma C10_no_loss_no_duplication_witness :
  MsgQueue.reachable 1 4 Demo.three_producers_trace
    (MsgQueue.mk 1 [] 1 0 1, [None; None; None; None]) /\
  Pool.push_calls Demo.three_producers_trace = [1; 2; 3]%Z /\
  Pool.returned Demo.three_producers_trace = [2; 3; 1]%Z /\
  Permutation (Pool.returned Demo.three_producers_trace)
              (Pool.push_calls Demo.three_producers_trace).
Proof.
  pose proof (C10_no_loss_no_duplication DemoFacts.three_producers_run) as (_ & Hdrained).
  split; [exact DemoFacts.three_producers_run|]. split; [reflexivity|].
  split; [reflexivity|]. exact (proj1 (Hdrained eq_refl)).
Defined.

(** * Further properties of the two queues *)

(** X1, occupancy of [MsgQueueReplace] under concurrency.  In every
    configuration reachable from a fresh [MsgQueueReplace], with any number
    of threads and under every interleaving of the statements of [push]
    and [pop], the capacity is the clamped one given to the constructor and
    the storage holds between 0 and [nmax] elements; when no call is in
    progress the mutex is free and the storage holds exactly [full]
    elements. *)
Theorem X1_replace_occupancy_interleaved (T : Type) (_nmax : Z) (k : nat)
    (tr : MsgQueueReplace.trace T) (s : MsgQueueReplace.t T) (p : Pool.pool) :
  in_int _nmax ->
  MsgQueueReplace.reachable _nmax k tr (s, p) ->
  MsgQueueReplace.nmax s = Z.max 1 _nmax /\
  (0 <= Z.of_nat (length (MsgQueueReplace.queue s)) <= MsgQueueReplace.nmax s)%Z /\
  (Pool.quiescent p ->
   MsgQueueReplace.mutex s = 1 /\
   length (MsgQueueReplace.queue s) = MsgQueueReplace.full s).
Proof.
  intros Hn H. destruct (MsgQueueReplaceFacts.replace_occupancy Hn H) as (Hc & Hb & _).
  split; [exact Hc|]. split; [exact Hb|]. intros Hq.
  destruct (MsgQueueReplaceFacts.replace_quiescent_counts Hn H Hq) as (_ & Hm & Hl & _).
  now split.
Qed.

Lemma X1_replace_occupancy_interleaved_witness :
  MsgQueueReplace.reachable 1 2 Demo.replace_two_threads_trace
    (MsgQueueReplace.mk 1 [3%Z] 1 1, [None; None]) /\
  (0 <= Z.of_nat (length [3%Z]) <= 1)%Z /\
  (1 = 1 /\ length [3%Z] = 1).
Proof.
  assert (Hn : in_int 1) by (split; discriminate).
  assert (Q : Pool.quiescent (ctl := MsgQueueReplace.ctl Z) [None; None])
    by (repeat constructor).
  pose proof (X1_replace_occupancy_interleaved Hn DemoFacts.replace_two_threads_run)
    as (_ & Hb & Hq).
  split; [exact DemoFacts.replace_two_threads_run|]. split; [exact Hb | exact (Hq Q)].
Defined.

(** X2, [MsgQueue] does not deadlock.  In every configuration reachable
    from a fresh [MsgQueue], either some thread inside a call can run its
    next statement, or every thread inside a call waits at the first
    statement of its call: [push] at [empty.decrement()] with the storage
    full, [pop] at [full.decrement()] with the storage empty.  So no thread
    is ever stuck on the mutex or part way through a call, and whenever a
    [push] and a [pop] are both in progress one of the threads can run. *)
Theorem X2_blocking_queue_progress (T : Type) (_nmax : Z) (k : nat)
    (tr : MsgQueue.trace T) (s : MsgQueue.t T) (p : Pool.pool) :
  MsgQueue.reachable _nmax k tr (s, p) ->
  ((exists c, In (Some c) p /\ Pool.runnable (@MsgQueue.exec T) s c = true) \/
   Forall (MsgQueue.waiting s) p) /\
  (forall c1 c2,
     In (Some c1) p -> In (Some c2) p ->
     MsgQueue.in_push c1 = true -> MsgQueue.in_pop c2 = true ->
     exists c, In (Some c) p /\ Pool.runnable (@MsgQueue.exec T) s c = true).
Proof.
  intros H. pose proof (MsgQueueFacts.progress H) as Hp. split; [exact Hp|].
  intros c1 c2 H1 H2 Hpush Hpop. destruct Hp as [Hrun|Hwait]; [exact Hrun|].
  exfalso. destruct (MsgQueueFacts.occupancy H) as (Hc & _).
  assert (Hpos : (1 <= MsgQueue.nmax s)%Z) by lia.
  exact (@MsgQueueFacts.waiting_one_side T s p c1 c2 Hpos Hwait H1 H2 Hpush Hpop).
Qed.

Lemma X2_blocking_queue_progress_witness :
  MsgQueue.reachable 1 2 Demo.producer_meets_consumer_trace
    (MsgQueue.mk 1 [1%Z] 1 1 0,
     [Some (MsgQueue.Push_empty_dec 2%Z); Some MsgQueue.Pop_full_dec]) /\
  MsgQueue.exec (MsgQueue.Push_empty_dec 2%Z) (MsgQueue.mk 1 [1%Z] 1 1 0)
  = Blocks Empty /\
  exists c,
    In (Some c) [Some (MsgQueue.Push_empty_dec 2%Z); Some MsgQueue.Pop_full_dec] /\
    Pool.runnable (@MsgQueue.exec Z) (MsgQueue.mk 1 [1%Z] 1 1 0) c = true.
Proof.
  pose proof (X2_blocking_queue_progress DemoFacts.producer_meets_consumer_run)
    as (_ & Hboth).
  split; [exact DemoFacts.producer_meets_consumer_run|]. split; [reflexivity|].
  apply (Hboth (MsgQueue.Push_empty_dec 2%Z) MsgQueue.Pop_full_dec);
    simpl; auto.
Defined.

(** X3, [MsgQueueReplace] does not deadlock and its producers are never
    stuck.  In every configuration reachable from a fresh
    [MsgQueueReplace], either some thread inside a call can run its next
    statement, or every thread inside a call is a consumer at
    [full.decrement()] with the storage empty.  Whenever a thread is
    inside [push], some thread can run. *)
Theorem X3_replace_queue_progress (T : Type) (_nmax : Z) (k : nat)
    (tr : MsgQueueReplace.trace T) (s : MsgQueueReplace.t T) (p : Pool.pool) :
  in_int _nmax ->
  MsgQueueReplace.reachable _nmax k tr (s, p) ->
  ((exists c, In (Some c) p /\ Pool.runnable (@MsgQueueReplace.exec T) s c = true) \/
   Forall (MsgQueueReplace.waiting s) p) /\
  (forall c0,
     In (Some c0) p -> MsgQueueReplace.in_push c0 = true ->
     exists c, In (Some c) p /\ Pool.runnable (@MsgQueueReplace.exec T) s c = true).
Proof.
  intros Hn H. pose proof (MsgQueueReplaceFacts.replace_progress Hn H) as Hp.
  split; [exact Hp|]. intros c0 Hin Hpush. destruct Hp as [Hrun|Hwait]; [exact Hrun|].
  exfalso. exact (@MsgQueueReplaceFacts.waiting_not_in_push T s p c0 Hwait Hin Hpush).
Qed.

Lemma X3_replace_queue_progress_witness :
  MsgQueueReplace.reachable 1 1 Demo.replace_dropped_trace
    (MsgQueueReplace.mk 1 [] 0 1, [Some (MsgQueueReplace.Push_replace_push 2%Z)]) /\
  exists c,
    In (Some c) [Some (MsgQueueReplace.Push_replace_push 2%Z)] /\
    Pool.runnable (@MsgQueueReplace.exec Z) (MsgQueueReplace.mk 1 [] 0 1) c = true.
Proof.
  assert (Hn : in_int 1) by (split; discriminate).
  pose proof (X3_replace_queue_progress Hn DemoFacts.replace_dropped_run) as (_ & Hpush).
  split; [exact DemoFacts.replace_dropped_run|].
  apply (Hpush (MsgQueueReplace.Push_replace_push 2%Z)); simpl; auto.
Defined.

(** X4, [MsgQueue] used by one thread is a bounded first-in first-out
    list.  Any sequence of [push] and [pop] calls served one after the
    other on a fresh [MsgQueue] gives the outcome of the same calls on a
    list that starts empty, where [push] appends at the tail if the list
    is shorter than [max(1, _nmax)] and waits on [empty] otherwise, and
    [pop] removes the head or waits on [full] on the empty list: the same
    returned values and the same storage, or the same wait at the same
    call.  At the end the mutex is free, [full] is the number of stored
    elements and [empty] the number of free places. *)
Theorem X4_blocking_queue_bounded_fifo (T : Type) (_nmax : Z) (rs : list (request T)) :
  agree (MsgQueue.represents (Z.to_nat (Z.max 1 _nmax)))
    (MsgQueue.run rs (MsgQueue.MsgQueue _nmax))
    (Abstract.bounded_run (Z.to_nat (Z.max 1 _nmax)) rs []) /\
  outcome_map (fun res => (fst res, MsgQueue.queue (snd res)))
    (MsgQueue.run rs (MsgQueue.MsgQueue _nmax))
  = Abstract.bounded_run (Z.to_nat (Z.max 1 _nmax)) rs [].
Proof.
  assert (A : agree (MsgQueue.represents (Z.to_nat (Z.max 1 _nmax)))
                (MsgQueue.run rs (MsgQueue.MsgQueue _nmax))
                (Abstract.bounded_run (Z.to_nat (Z.max 1 _nmax)) rs [])).
  { apply serve_all_agree.
    - intros msg s q. apply MsgQueueFacts.bounded_push_agree.
    - intros s q. apply MsgQueueFacts.take_agree.
    - apply MsgQueueFacts.fresh_represents. }
  split; [exact A|]. apply agree_content with (2 := A).
  intros s q R. apply R.
Qed.

(** X5, [MsgQueueReplace] used by one thread is a list that keeps the
    newest [max(1, _nmax)] elements.  Any sequence of [push] and [pop]
    calls served one after the other on a fresh [MsgQueueReplace] gives
    the outcome of the same calls on a list that starts empty, where
    [push] appends at the tail, after removing the head if the list
    already has [max(1, _nmax)] elements, and [pop] removes the head or
    waits on [full] on the empty list. *)
Theorem X5_replace_queue_keep_newest_list (T : Type) (_nmax : Z)
    (rs : list (request T)) :
  in_int _nmax ->
  agree (MsgQueueReplace.represents (Z.to_nat (Z.max 1 _nmax)))
    (MsgQueueReplace.run rs (MsgQueueReplace.MsgQueueReplace _nmax))
    (Abstract.newest_run (Z.to_nat (Z.max 1 _nmax)) rs []) /\
  outcome_map (fun res => (fst res, MsgQueueReplace.queue (snd res)))
    (MsgQueueReplace.run rs (MsgQueueReplace.MsgQueueReplace _nmax))
  = Abstract.newest_run (Z.to_nat (Z.max 1 _nmax)) rs [].
Proof.
  intros Hn.
  assert (A : agree (MsgQueueReplace.represents (Z.to_nat (Z.max 1 _nmax)))
                (MsgQueueReplace.run rs (MsgQueueReplace.MsgQueueReplace _nmax))
                (Abstract.newest_run (Z.to_nat (Z.max 1 _nmax)) rs [])).
  { apply serve_all_agree.
    - intros msg s q. apply MsgQueueReplaceFacts.newest_push_agree.
    - intros s q. apply MsgQueueReplaceFacts.replace_take_agree.
    - now apply MsgQueueReplaceFacts.replace_fresh_represents. }
  split; [exact A|]. apply agree_content with (2 := A).
  intros s q R. apply R.
Qed.

Lemma X5_replace_queue_keep_newest_list_witness :
  in_int 2 /\
  outcome_map (fun res => (fst res, MsgQueueReplace.queue (snd res)))
    (MsgQueueReplace.run [ReqPush 1%Z; ReqPush 2%Z; ReqPush 3%Z; ReqPop; ReqPop; ReqPop]
       (MsgQueueReplace.MsgQueueReplace 2))
  = Abstract.newest_run 2 [ReqPush 1%Z; ReqPush 2%Z; ReqPush 3%Z; ReqPop; ReqPop; ReqPop] [].
Proof.
  assert (Hn : in_int 2) by (split; discriminate).
  split; [exact Hn|].
  exact (proj2 (X5_replace_queue_keep_newest_list
                  [ReqPush 1%Z; ReqPush 2%Z; ReqPush 3%Z; ReqPop; ReqPop; ReqPop] Hn)).
Defined.

(** X6, what a [MsgQueueReplace] retains.  After any messages [ms] are
    pushed one after the other into a fresh [MsgQueueReplace], the storage
    holds the last [min(|ms|, max(1, _nmax))] of them in the order pushed,
    [full] counts them and the mutex is free; that many calls of [pop]
    then return exactly these messages in that order and leave the queue
    empty. *)
Theorem X6_replace_queue_retains_newest (T : Type) (_nmax : Z) (ms : list T) :
  in_int _nmax ->
  (exists s,
     MsgQueueReplace.run (map ReqPush ms) (MsgQueueReplace.MsgQueueReplace _nmax)
     = Done ([], s) /\
     MsgQueueReplace.queue s = skipn (length ms - Z.to_nat (Z.max 1 _nmax)) ms /\
     MsgQueueReplace.full s = Nat.min (length ms) (Z.to_nat (Z.max 1 _nmax)) /\
     MsgQueueReplace.mutex s = 1) /\
  (exists s,
     MsgQueueReplace.run
       (map ReqPush ms
          ++ repeat ReqPop (Nat.min (length ms) (Z.to_nat (Z.max 1 _nmax))))
       (MsgQueueReplace.MsgQueueReplace _nmax)
     = Done (skipn (length ms - Z.to_nat (Z.max 1 _nmax)) ms, s) /\
     MsgQueueReplace.queue s = [] /\
     MsgQueueReplace.full s = 0 /\
     MsgQueueReplace.mutex s = 1).
Proof.
  intros Hn. set (cap := Z.to_nat (Z.max 1 _nmax)).
  assert (Hc : 1 <= cap) by (unfold cap; lia).
  assert (A : forall rs : list (request T),
             agree (MsgQueueReplace.represents cap)
               (MsgQueueReplace.run rs (MsgQueueReplace.MsgQueueReplace _nmax))
               (Abstract.newest_run cap rs [])).
  { intros rs. apply serve_all_agree.
    - intros msg s q. apply MsgQueueReplaceFacts.newest_push_agree.
    - intros s q. apply MsgQueueReplaceFacts.replace_take_agree.
    - now apply MsgQueueReplaceFacts.replace_fresh_represents. }
  split.
  - specialize (A (map ReqPush ms)).
    rewrite (@AbstractFacts.newest_pushes T cap ms []) in A by (trivial; simpl; lia).
    destruct (MsgQueueReplace.run (map ReqPush ms)
                (MsgQueueReplace.MsgQueueReplace _nmax)) as [[outs s]| |];
      try contradiction.
    destruct A as [-> (Hm & Hf & Hq & _)]. simpl in Hq, Hf.
    exists s. split; [reflexivity|]. split; [exact Hq|]. split; [|exact Hm].
    rewrite Hf, length_skipn. lia.
  - specialize (A (map ReqPush ms ++ repeat ReqPop (Nat.min (length ms) cap))).
    rewrite <- (@AbstractFacts.newest_length T cap ms) in A.
    rewrite (@AbstractFacts.newest_round T cap ms Hc) in A.
    rewrite (@AbstractFacts.newest_length T cap ms) in A.
    destruct (MsgQueueReplace.run
                (map ReqPush ms ++ repeat ReqPop (Nat.min (length ms) cap))
                (MsgQueueReplace.MsgQueueReplace _nmax)) as [[outs s]| |];
      try contradiction.
    destruct A as [-> (Hm & Hf & Hq & _)].
    exists s. split; [reflexivity|]. split; [exact Hq|]. split; [exact Hf | exact Hm].
Qed.

Lemma X6_replace_queue_retains_newest_witness :
  in_int 3 /\
  exists s,
    MsgQueueReplace.run
      (map ReqPush [1; 2; 3; 4; 5]%Z ++ repeat ReqPop 3)
      (MsgQueueReplace.MsgQueueReplace 3)
    = Done ([3; 4; 5]%Z, s) /\
    MsgQueueReplace.queue s = [] /\
    MsgQueueReplace.full s = 0 /\
    MsgQueueReplace.mutex s = 1.
Proof.
  assert (Hn : in_int 3) by (split; discriminate).
  split; [exact Hn|].
  exact (proj2 (X6_replace_queue_retains_newest [1; 2; 3; 4; 5]%Z Hn)).
Defined.

(** X7, where the messages of a [MsgQueueReplace] are.  In every
    configuration reachable from a fresh [MsgQueueReplace], the messages
    passed to [push] so far are, with multiplicity, exactly the returned
    ones, the ones a [pop] has removed and not yet returned, the stored
    ones, the ones a [push] has not stored yet and the ones dropped by the
    replacement branch.  So if the pushed messages are distinct, none is
    returned twice, dropped twice, or both returned and dropped; and when
    no call is in progress every pushed message has been returned or
    dropped or is in the storage. *)
Theorem X7_replace_queue_accounting (T : Type) (_nmax : Z) (k : nat)
    (tr : MsgQueueReplace.trace T) (s : MsgQueueReplace.t T) (p : Pool.pool) :
  in_int _nmax ->
  MsgQueueReplace.reachable _nmax k tr (s, p) ->
  Permutation (Pool.push_calls tr)
    (Pool.returned tr ++ flat_map (@MsgQueueReplace.in_hand T) p
       ++ MsgQueueReplace.queue s ++ flat_map (@MsgQueueReplace.pending T) p
       ++ Pool.dropped tr) /\
  (NoDup (Pool.push_calls tr) ->
   NoDup (Pool.returned tr) /\ NoDup (Pool.dropped tr) /\
   forall x, In x (Pool.returned tr) -> ~ In x (Pool.dropped tr)) /\
  (Pool.quiescent p ->
   Permutation (Pool.push_calls tr)
     (Pool.returned tr ++ MsgQueueReplace.queue s ++ Pool.dropped tr)).
Proof.
  intros Hn H.
  assert (P : Permutation (Pool.push_calls tr)
                (Pool.returned tr ++ flat_map (@MsgQueueReplace.in_hand T) p
                   ++ MsgQueueReplace.queue s
                   ++ flat_map (@MsgQueueReplace.pending T) p
                   ++ Pool.dropped tr)).
  { rewrite (MsgQueueReplaceFacts.replace_calls_stored H),
      (MsgQueueReplaceFacts.replace_stored_gone H),
      (PoolFacts.gone_removed_dropped tr),
      (MsgQueueReplaceFacts.replace_removed_returned Hn H).
    rewrite <- !app_assoc. do 2 apply Permutation_app_head.
    rewrite (app_assoc (MsgQueueReplace.queue s)). apply Permutation_app_comm. }
  split; [exact P|]. split.
  - intros Hnd.
    assert (Hnd' : NoDup ((Pool.returned tr ++ Pool.dropped tr)
                          ++ flat_map (@MsgQueueReplace.in_hand T) p
                          ++ MsgQueueReplace.queue s
                          ++ flat_map (@MsgQueueReplace.pending T) p)).
    { eapply Permutation_NoDup; [|exact Hnd]. rewrite P, <- !app_assoc.
      apply Permutation_app_head.
      transitivity ((flat_map (@MsgQueueReplace.in_hand T) p
                       ++ MsgQueueReplace.queue s
                       ++ flat_map (@MsgQueueReplace.pending T) p)
                      ++ Pool.dropped tr);
        [rewrite <- !app_assoc; reflexivity | apply Permutation_app_comm]. }
    apply nodup_app_parts in Hnd'. destruct Hnd' as (Hrd & _).
    now apply nodup_app_parts in Hrd.
  - intros Hq. rewrite P.
    rewrite !PoolFacts.flat_map_quiescent by (reflexivity || exact Hq).
    reflexivity.
Qed.

Lemma X7_replace_queue_accounting_witness :
  MsgQueueReplace.reachable 1 2 Demo.replace_two_threads_trace
    (MsgQueueReplace.mk 1 [3%Z] 1 1, [None; None]) /\
  Pool.push_calls Demo.replace_two_threads_trace = [1; 2; 3]%Z /\
  Pool.returned Demo.replace_two_threads_trace = [2%Z] /\
  Pool.dropped Demo.replace_two_threads_trace = [1%Z] /\
  Permutation (Pool.push_calls Demo.replace_two_threads_trace)
    (Pool.returned Demo.replace_two_threads_trace ++ [3%Z]
       ++ Pool.dropped Demo.replace_two_threads_trace).
Proof.
  assert (Hn : in_int 1) by (split; discriminate).
  assert (Q : Pool.quiescent (ctl := MsgQueueReplace.ctl Z) [None; None])
    by (repeat constructor).
  pose proof (X7_replace_queue_accounting Hn DemoFacts.replace_two_threads_run)
    as (_ & _ & Hq).
  split; [exact DemoFacts.replace_two_threads_run|].
  split; [reflexivity|]. split; [reflexivity|]. split; [reflexivity|]. exact (Hq Q).
Defined.

(** X8, delivery order of [MsgQueueReplace].  When a single thread calls
    [pop], the messages it has been returned are, in this order, a
    subsequence of the messages stored so far: messages may be missing
    (the dropped ones) but none is returned out of order.  If moreover a
    single thread calls [push], they are a subsequence of the messages
    passed to [push], in call order. *)
Theorem X8_replace_queue_delivery_order (T : Type) (_nmax : Z) (k : nat)
    (tr : MsgQueueReplace.trace T) (s : MsgQueueReplace.t T) (p : Pool.pool)
    (c : nat) :
  in_int _nmax ->
  MsgQueueReplace.reachable _nmax k tr (s, p) ->
  Pool.only_caller (@MsgQueueReplace.is_pop T) c tr ->
  subseq (Pool.returned tr) (Pool.stored tr) /\
  (forall c', Pool.only_caller (@MsgQueueReplace.is_push T) c' tr ->
              subseq (Pool.returned tr) (Pool.push_calls tr)).
Proof.
  intros Hn H Hpop.
  assert (S1 : subseq (Pool.returned tr) (Pool.stored tr)).
  { apply subseq_trans with (l2 := Pool.removed tr).
    - rewrite (MsgQueueReplaceFacts.replace_removed_returned_seq Hn H Hpop).
      apply subseq_prefix.
    - apply subseq_trans with (l2 := Pool.gone tr).
      + apply PoolFacts.removed_subseq_gone.
      + rewrite (MsgQueueReplaceFacts.replace_stored_gone H). apply subseq_prefix. }
  split; [exact S1|]. intros c' Hpush.
  apply subseq_trans with (1 := S1).
  rewrite (MsgQueueReplaceFacts.replace_calls_stored_seq H Hpush). apply subseq_prefix.
Qed.

Lemma X8_replace_queue_delivery_order_witness :
  MsgQueueReplace.reachable 1 2 Demo.replace_two_threads_trace
    (MsgQueueReplace.mk 1 [3%Z] 1 1, [None; None]) /\
  Pool.only_caller (@MsgQueueReplace.is_pop Z) 1 Demo.replace_two_threads_trace /\
  Pool.only_caller (@MsgQueueReplace.is_push Z) 0 Demo.replace_two_threads_trace /\
  subseq [2%Z] [1; 2; 3]%Z.
Proof.
  assert (Hn : in_int 1) by (split; discriminate).
  assert (Hpop : Pool.only_caller (@MsgQueueReplace.is_pop Z) 1
                   Demo.replace_two_threads_trace)
    by (apply PoolFacts.only_callerb_sound; reflexivity).
  assert (Hpush : Pool.only_caller (@MsgQueueReplace.is_push Z) 0
                    Demo.replace_two_threads_trace)
    by (apply PoolFacts.only_callerb_sound; reflexivity).
  pose proof (X8_replace_queue_delivery_order Hn DemoFacts.replace_two_threads_run Hpop)
    as (_ & Hsub).
  split; [exact DemoFacts.replace_two_threads_run|]. split; [exact Hpop|].
  split; [exact Hpush|]. exact (Hsub 0 Hpush).
Defined.

(** X9, the storage of [MsgQueue] is first-in first-out for any number of
    producers and consumers.  In every configuration reachable from a
    fresh [MsgQueue], the messages stored so far by [queue.push(msg)], in
    the order stored, are the messages removed so far by [queue.pop()], in
    the order removed, followed by the content of the storage; and at no
    time have more than [max(1, _nmax)] more messages been stored than
    removed. *)
Theorem X9_blocking_queue_storage_order (T : Type) (_nmax : Z) (k : nat)
    (tr : MsgQueue.trace T) (s : MsgQueue.t T) (p : Pool.pool) :
  MsgQueue.reachable _nmax k tr (s, p) ->
  Pool.stored tr = Pool.removed tr ++ MsgQueue.queue s /\
  (Z.of_nat (length (Pool.stored tr))
   <= Z.of_nat (length (Pool.removed tr)) + Z.max 1 _nmax)%Z.
Proof.
  intros H. pose proof (MsgQueueFacts.stored_removed H) as E.
  destruct (MsgQueueFacts.occupancy H) as (Hc & Hb & _).
  split; [exact E|]. rewrite E, length_app. lia.
Qed.

Lemma X9_blocking_queue_storage_order_witness :
  MsgQueue.reachable 1 4 Demo.three_producers_trace
    (MsgQueue.mk 1 [] 1 0 1, [None; None; None; None]) /\
  Pool.stored Demo.three_producers_trace = [2; 3; 1]%Z /\
  Pool.removed Demo.three_producers_trace = [2; 3; 1]%Z /\
  Pool.stored Demo.three_producers_trace
  = Pool.removed Demo.three_producers_trace ++ [].
Proof.
  split; [exact DemoFacts.three_producers_run|].
  split; [reflexivity|]. split; [reflexivity|].
  exact (proj1 (X9_blocking_queue_storage_order DemoFacts.three_producers_run)).
Defined.

(** X10, the storage of [MsgQueueReplace] is first-in first-out for any
    number of producers and consumers.  In every configuration reachable
    from a fresh [MsgQueueReplace], the messages stored so far, in the
    order stored, are the messages that have left the storage, by the
    [queue.pop()] of [pop] or by the one of the replacement branch of
    [push], in the order they left, followed by the content of the
    storage; the messages removed by [pop] are a subsequence of the stored
    ones; and at no time have more than [max(1, _nmax)] stored messages
    not left the storage yet. *)
Theorem X10_replace_queue_storage_order (T : Type) (_nmax : Z) (k : nat)
    (tr : MsgQueueReplace.trace T) (s : MsgQueueReplace.t T) (p : Pool.pool) :
  in_int _nmax ->
  MsgQueueReplace.reachable _nmax k tr (s, p) ->
  Pool.stored tr = Pool.gone tr ++ MsgQueueReplace.queue s /\
  subseq (Pool.removed tr) (Pool.stored tr) /\
  (Z.of_nat (length (Pool.stored tr))
   <= Z.of_nat (length (Pool.gone tr)) + Z.max 1 _nmax)%Z.
Proof.
  intros Hn H. pose proof (MsgQueueReplaceFacts.replace_stored_gone H) as E.
  destruct (MsgQueueReplaceFacts.replace_occupancy Hn H) as (Hc & Hb & _).
  split; [exact E|]. split.
  - apply subseq_trans with (l2 := Pool.gone tr).
    + apply PoolFacts.removed_subseq_gone.
    + rewrite E. apply subseq_prefix.
  - rewrite E, length_app. lia.
Qed.

Lemma X10_replace_queue_storage_order_witness :
  MsgQueueReplace.reachable 1 2 Demo.replace_two_threads_trace
    (MsgQueueReplace.mk 1 [3%Z] 1 1, [None; None]) /\
  Pool.stored Demo.replace_two_threads_trace = [1; 2; 3]%Z /\
  Pool.gone Demo.replace_two_threads_trace = [1; 2]%Z /\
  Pool.stored Demo.replace_two_threads_trace
  = Pool.gone Demo.replace_two_threads_trace ++ [3%Z].
Proof.
  assert (Hn : in_int 1) by (split; discriminate).
  split; [exact DemoFacts.replace_two_threads_run|].
  split; [reflexivity|]. split; [reflexivity|].
  exact (proj1 (X10_replace_queue_storage_order Hn DemoFacts.replace_two_threads_run)).
Defined.
